(** * smallsh: a shallow embedding of the interpreter and its checked properties

    The development follows [smallsh.c] function by function.  Text is held
    as [string]; a [char const *] walking a NUL-terminated buffer is held as
    the text that remains in front of it; process-wide data (environment,
    signal dispositions, the global [words] array) lives in an explicit
    state that the stateful functions pass along.  Results of the operating
    system that the program cannot predict ([fork], [waitpid], [kill],
    [open], ...) are inputs of the model. *)

From Stdlib Require Import ZArith String Ascii List Lia DecimalString.
From stdpp Require Import gmap strings list.

Open Scope string_scope.
Open Scope Z_scope.

(** ** Outcomes of the model *)

(** Ways in which the C program leaves defined behaviour, plus the marker
    for a loop of the model that ran out of its iteration budget (shown
    below never to happen). *)
Inductive fault :=
| ReadPastTerminator      (* a string is read beyond its terminating NUL *)
| IndexOutOfBounds        (* an array is indexed outside its cells *)
| UninitialisedRead       (* a cell is read before it was written *)
| NullDereference         (* a NULL pointer is handed to a string function *)
| OutOfFuel.

Inductive res (A : Type) :=
| Ok (a : A)
| Fault (f : fault).
Arguments Ok {A} a.
Arguments Fault {A} f.

Definition res_bind {A B} (m : res A) (k : A -> res B) : res B :=
  match m with
  | Ok a => k a
  | Fault f => Fault f
  end.

Notation "'let*' x ':=' m 'in' k" := (res_bind m (fun x => k))
  (at level 10, x pattern, m at level 100, k at level 200).

(** ** The C library, as far as the program uses it *)

Definition NUL : ascii := "000"%char.

Definition is_nul (c : ascii) : bool := (c =? NUL)%char.

(** [isspace] in the C locale: space, \t, \n, \v, \f, \r. *)
Definition isspace (c : ascii) : bool :=
  let n := nat_of_ascii c in
  (Nat.eqb n 32 || (Nat.leb 9 n && Nat.leb n 13))%bool.

(** [strcmp(a, b) == 0]. *)
Definition streq (a b : string) : bool := String.eqb a b.

(** [sprintf(buf, "%d", n)]. *)
Definition sprintf_d (n : Z) : string := NilZero.string_of_int (Z.to_int n).

(** A read pointer into a NUL-terminated buffer: either it still points
    into the string (then it is represented by the characters from the
    pointer up to, not including, the terminator), or it has been moved
    beyond the terminator. *)
Inductive cptr :=
| At (rest : string)
| Past.

(** [*c] *)
Definition deref (c : cptr) : res ascii :=
  match c with
  | At (String x _) => Ok x
  | At EmptyString => Ok NUL
  | Past => Fault ReadPastTerminator
  end.

(** [++c].  A NUL inside [rest] already ends the C string. *)
Definition incr (c : cptr) : cptr :=
  match c with
  | At (String x t) => if is_nul x then Past else At t
  | At EmptyString => Past
  | Past => Past
  end.

(** ** Tokenizer: [wordsplit] *)

Definition MAX_WORDS : nat := 512.

(** [for (; *c && isspace c[0]; ++c);] *)
Fixpoint skip_space (fuel : nat) (c : cptr) : res cptr :=
  match fuel with
  | O => Fault OutOfFuel
  | S fuel' =>
      let* x := deref c in
      if (negb (is_nul x) && isspace x)%bool
      then skip_space fuel' (incr c)
      else Ok c
  end.

(** The loop that reads one word,
    [for (; *c && !isspace c[0]; ++c) { if (c[0] == '\\') ++c; ... words[wind][wlen++] = *c; ... }];
    [w] is the text written to [words[wind]] so far, [wlen] its length. *)
Fixpoint read_word (fuel : nat) (c : cptr) (wind : nat) (w : string)
    (words : list (option string)) : res (cptr * list (option string)) :=
  match fuel with
  | O => Fault OutOfFuel
  | S fuel' =>
      let* x := deref c in
      if (negb (is_nul x) && negb (isspace x))%bool
      then
        let c1 := if (x =? "\")%char then incr c else c in
        let* y := deref c1 in
        let w1 := w ++ String y EmptyString in
        read_word fuel' (incr c1) wind w1 (<[wind := Some w1]> words)
      else Ok (c, words)
  end.

(** The outer loop [for (; *c;) { ... }]; returns [wind] and the array. *)
Fixpoint wordsplit_loop (fuel : nat) (c : cptr) (wind : nat)
    (words : list (option string)) : res (nat * list (option string)) :=
  match fuel with
  | O => Fault OutOfFuel
  | S fuel' =>
      let* x := deref c in
      if is_nul x then Ok (wind, words)
      else if Nat.eqb wind MAX_WORDS then Ok (wind, words)
      else if (x =? "#")%char then Ok (wind, words)
      else
        let* (c1, words1) := read_word fuel c wind "" words in
        let* c2 := skip_space fuel c1 in
        wordsplit_loop fuel' c2 (S wind) words1
  end.

(** Every loop iteration consumes a character of the line, so the length
    of the line plus two bounds every loop. *)
Definition line_fuel (line : string) : nat := S (S (String.length line)).

Definition wordsplit (line : string) (words : list (option string))
  : res (nat * list (option string)) :=
  let* c := skip_space (line_fuel line) (At line) in
  wordsplit_loop (line_fuel line) c 0%nat words.

(** The [words] array as [main] leaves it between two lines: all NULL. *)
Definition no_words : list (option string) := replicate MAX_WORDS None.

(** The tokens of a line, for a caller that only wants the words. *)
Definition tokens_of (r : res (nat * list (option string))) : res (list (option string)) :=
  let* (n, ws) := r in Ok (take n ws).

(** ** Expander: [param_scan], [build_str], [expand] *)

(** Pointers into the word being expanded never leave it; each is held as
    the text from the pointer to the terminator, NULL as [None].  The
    difference [q - p] of two pointers into one word is then the difference
    of the two lengths. *)
Definition ptr_diff (q p : string) : nat := (String.length p - String.length q)%nat.

(** [s + n] *)
Fixpoint str_drop (n : nat) (s : string) : string :=
  match n, s with
  | O, _ => s
  | S n', String _ t => str_drop n' t
  | S _, EmptyString => EmptyString
  end.

(** The first [n] characters at [s]. *)
Fixpoint str_take (n : nat) (s : string) : string :=
  match n, s with
  | S n', String x t => String x (str_take n' t)
  | _, _ => EmptyString
  end.

(** [strchr(s, ch)], for a [ch] other than NUL. *)
Fixpoint strchr (s : string) (ch : ascii) : option string :=
  match s with
  | EmptyString => None
  | String x t => if (x =? ch)%char then Some s else strchr t ch
  end.

(** [s[1]], read where [s[0]] is not the terminator. *)
Definition char1 (s : string) : ascii :=
  match s with
  | String _ (String d _) => d
  | _ => NUL
  end.

Definition is_special (d : ascii) : bool :=
  ((d =? "$") || (d =? "!") || (d =? "?"))%char.

(** The loop of [param_scan], entered with [ret == 0]; yields
    [(ret, *start, *end)]. *)
Fixpoint param_scan_loop (fuel : nat) (s : string)
  : res (ascii * option string * option string) :=
  match fuel with
  | O => Fault OutOfFuel
  | S fuel' =>
      match s with
      | EmptyString => Ok (NUL, None, None)
      | String _ _ =>
          match strchr s "$" with
          | None => Ok (NUL, None, None)
          | Some s1 =>
              let d := char1 s1 in
              if is_special d then Ok (d, Some s1, Some (str_drop 2 s1))
              else if (d =? "{")%char then
                match strchr (str_drop 2 s1) "}" with
                | Some e => Ok (d, Some s1, Some (str_drop 1 e))
                | None => param_scan_loop fuel' (str_drop 1 s1)
                end
              else param_scan_loop fuel' (str_drop 1 s1)
          end
      end
  end.

(** [param_scan(word, &start, &end)] with its static [prev]; the result is
    [(ret, *start, *end, prev)]. *)
Definition param_scan (prev : option string) (word : option string)
  : res (ascii * option string * option string * option string) :=
  match (match word with Some w => Some w | None => prev end) with
  | None => Fault NullDereference
  | Some w =>
      let* (ret, start, end_) := param_scan_loop (S (String.length w)) w in
      Ok (ret, start, end_, end_)
  end.

(** [build_str(start, end)] with its static [base] ([base_len] is the
    length of [base]); the result is the returned pointer and the new
    [base]. *)
Definition build_str (base : option string) (start end_ : option string)
  : option string * option string :=
  match start with
  | None => (base, None)
  | Some s =>
      let n := match end_ with
               | Some e => ptr_diff e s
               | None => String.length s
               end in
      let b := default "" base ++ str_take n s in
      (Some b, Some b)
  end.

(** [getenv]. *)
Definition getenv (env : gmap string string) (name : string) : option string :=
  env !! name.

(** The body of the [switch] in [expand]; yields the new [base]. *)
Definition expand_case (env : gmap string string) (c : ascii)
    (start end_ : option string) (base : option string) : res (option string) :=
  if (c =? "$")%char then
    Ok (snd (build_str base (Some (default "" (getenv env "$"))) None))
  else if (c =? "!")%char then
    Ok (snd (build_str base (Some (default "" (getenv env "!"))) None))
  else if (c =? "?")%char then
    Ok (snd (build_str base (Some (default "0" (getenv env "?"))) None))
  else if (c =? "{")%char then
    match start, end_ with
    | Some s, Some e =>
        let env_var := str_take (ptr_diff e s - 3) (str_drop 2 s) in
        match getenv env env_var with
        | Some env_val => Ok (snd (build_str base (Some env_val) None))
        | None => Ok base
        end
    | _, _ => Fault NullDereference
    end
  else Ok base.

(** The [while (c)] loop of [expand] and the final [build_str(start, NULL)]. *)
Fixpoint expand_loop (fuel : nat) (env : gmap string string) (c : ascii)
    (start end_ : option string) (prev base : option string)
  : res (option string * (option string * option string)) :=
  match fuel with
  | O => Fault OutOfFuel
  | S fuel' =>
      if is_nul c then
        let (r, base') := build_str base start None in
        Ok (r, (prev, base'))
      else
        let* base1 := expand_case env c start end_ base in
        let pos := end_ in
        let* (c', start', end', prev') := param_scan prev pos in
        let base2 := snd (build_str base1 pos start') in
        expand_loop fuel' env c' start' end' prev' base2
  end.

(** [expand(word)], threading the statics [(prev, base)] of [param_scan]
    and [build_str]. *)
Definition expand (env : gmap string string) (statics : option string * option string)
    (word : string) : res (option string * (option string * option string)) :=
  let (prev, base) := statics in
  let pos := Some word in
  let* (c, start, end_, prev1) := param_scan prev pos in
  let base1 := snd (build_str base None None) in
  let base2 := snd (build_str base1 pos start) in
  expand_loop (S (String.length word)) env c start end_ prev1 base2.

(** The expansion alone, from untouched statics. *)
Definition expanded (env : gmap string string) (word : string) : res (option string) :=
  let* (r, _) := expand env (None, None) word in Ok r.

Definition demo_env : gmap string string :=
  <["HOME" := "/home/u"]> (<["!" := ""]> (<["?" := "0"]> (<["$" := "4242"]> ∅))).

(** ** Command Parser: [parse_command] *)

(** [size_t] is 64 bits wide; [x - 1] at [x = 0] wraps around. *)
Definition size_max : Z := 2 ^ 64.
Definition size_wrap (x : Z) : Z := x mod size_max.

(** Reading and writing cell [i] of a C array whose cells are [a]. *)
Definition arr_get {A} (a : list A) (i : Z) : res A :=
  if (0 <=? i) && (i <? Z.of_nat (length a))
  then match a !! Z.to_nat i with
       | Some x => Ok x
       | None => Fault IndexOutOfBounds
       end
  else Fault IndexOutOfBounds.

Definition arr_set {A} (a : list A) (i : Z) (x : A) : res (list A) :=
  if (0 <=? i) && (i <? Z.of_nat (length a))
  then Ok (<[Z.to_nat i := x]> a)
  else Fault IndexOutOfBounds.

(** A [char *] handed to [strcmp]: NULL cannot be read. *)
Definition str_of (p : option string) : res string :=
  match p with
  | Some s => Ok s
  | None => Fault NullDereference
  end.

(** A cell of the freshly [malloc]ed [words_argv]: [None] until written. *)
Definition cell_val (c : option (option string)) : res (option string) :=
  match c with
  | Some p => Ok p
  | None => Fault UninitialisedRead
  end.

Definition is_redirect (s : string) : bool :=
  streq s ">" || streq s "<" || streq s ">>".

(** The copying loop [for (size_t i = 0; i < nwords; ++i) { ... }]. *)
Fixpoint parse_loop (fuel : nat) (words : list (option string)) (nwords i : Z)
    (words_argv : list (option (option string))) (words_argc : Z)
  : res (list (option (option string)) * Z) :=
  match fuel with
  | O => Fault OutOfFuel
  | S fuel' =>
      if i <? nwords then
        let* p := arr_get words i in
        let* s := str_of p in
        if is_redirect s then
          parse_loop fuel' words nwords (size_wrap (size_wrap (i + 1) + 1)) words_argv words_argc
        else
          let* argv1 := arr_set words_argv words_argc (Some p) in
          parse_loop fuel' words nwords (size_wrap (i + 1)) argv1 (size_wrap (words_argc + 1))
      else Ok (words_argv, words_argc)
  end.

(** [parse_command(nwords, words_argv)] over the global [words]; yields the
    array, the returned count and the global [bg_flag]. *)
Definition parse_command (words : list (option string)) (nwords : Z)
    (words_argv : list (option (option string)))
  : res (list (option (option string)) * Z * Z) :=
  let* (argv1, words_argc) := parse_loop (S (Z.to_nat nwords)) words nwords 0 words_argv 0 in
  let* c := arr_get argv1 (size_wrap (words_argc - 1)) in
  let* p := cell_val c in
  let* s := str_of p in
  if streq s "&" then
    let* argv2 := arr_set argv1 (size_wrap (words_argc - 1)) (Some None) in
    Ok (argv2, size_wrap (words_argc - 1), 1)
  else
    let* argv2 := arr_set argv1 words_argc (Some None) in
    Ok (argv2, words_argc, 0).

(** [malloc(sizeof( *words) * (nwords + 1))]: [nwords + 1] unwritten cells. *)
Definition fresh_argv (nwords : Z) : list (option (option string)) :=
  replicate (Z.to_nat (nwords + 1)) None.

(** The [words] array holding the given tokens from cell 0 on. *)
Definition words_holding (ts : list string) : list (option string) :=
  (Some <$> ts) ++ replicate (MAX_WORDS - length ts) None.

(** [parse_command] as [main] calls it on a tokenised, expanded line. *)
Definition parse_tokens (ts : list string) :=
  parse_command (words_holding ts) (Z.of_nat (length ts)) (fresh_argv (Z.of_nat (length ts))).

(** ** The process: kernel-side attributes, globals, system calls *)

Inductive sighandler := SIG_DFL | SIG_IGN | SIGINT_handler.

(** [struct sigaction]: the handler and whether [sa_mask] was filled
    ([sa_flags] is 0 from the initialiser on and never assigned). *)
Record sigaction := { sa_handler : sighandler; sa_mask_full : bool }.

(** [struct sigaction x = {0};] *)
Definition sigaction_zero : sigaction := {| sa_handler := SIG_DFL; sa_mask_full := false |}.

Inductive signal := SIGINT | SIGTSTP.

Inductive open_mode := O_read | O_trunc | O_append.

(** System calls whose order and flags the properties speak about. *)
Inductive syscall :=
| Sys_fork (ret : Z)
| Sys_waitpid (pid : Z) (wnohang wuntraced : bool)
| Sys_kill_cont (pid : Z)
| Sys_chdir (path : string)
| Sys_open (path : string) (mode : open_mode)
| Sys_dup2 (onto_stdout : bool)
| Sys_close.

Record shell := mkShell {
  (* held by the operating system for this process *)
  environ : gmap string string;
  own_pid : Z;
  pgrp : Z;
  disp_int : sigaction;
  disp_tstp : sigaction;
  diag : list string;
  calls : list syscall;
  (* globals of smallsh.c *)
  words : list (option string);
  bg_flag : Z;
  ppgid : Z;
  SIGTSTP_default : sigaction;
  SIGTSTP_action : sigaction;
  SIGINT_default : sigaction;
  SIGINT_action : sigaction
}.

Definition set_environ (v : gmap string string) (s : shell) : shell :=
  mkShell v (own_pid s) (pgrp s) (disp_int s) (disp_tstp s) (diag s) (calls s) (words s)
    (bg_flag s) (ppgid s) (SIGTSTP_default s) (SIGTSTP_action s) (SIGINT_default s) (SIGINT_action s).
Definition set_disp_int (v : sigaction) (s : shell) : shell :=
  mkShell (environ s) (own_pid s) (pgrp s) v (disp_tstp s) (diag s) (calls s) (words s)
    (bg_flag s) (ppgid s) (SIGTSTP_default s) (SIGTSTP_action s) (SIGINT_default s) (SIGINT_action s).
Definition set_disp_tstp (v : sigaction) (s : shell) : shell :=
  mkShell (environ s) (own_pid s) (pgrp s) (disp_int s) v (diag s) (calls s) (words s)
    (bg_flag s) (ppgid s) (SIGTSTP_default s) (SIGTSTP_action s) (SIGINT_default s) (SIGINT_action s).
Definition set_diag (v : list string) (s : shell) : shell :=
  mkShell (environ s) (own_pid s) (pgrp s) (disp_int s) (disp_tstp s) v (calls s) (words s)
    (bg_flag s) (ppgid s) (SIGTSTP_default s) (SIGTSTP_action s) (SIGINT_default s) (SIGINT_action s).
Definition set_calls (v : list syscall) (s : shell) : shell :=
  mkShell (environ s) (own_pid s) (pgrp s) (disp_int s) (disp_tstp s) (diag s) v (words s)
    (bg_flag s) (ppgid s) (SIGTSTP_default s) (SIGTSTP_action s) (SIGINT_default s) (SIGINT_action s).
Definition set_words (v : list (option string)) (s : shell) : shell :=
  mkShell (environ s) (own_pid s) (pgrp s) (disp_int s) (disp_tstp s) (diag s) (calls s) v
    (bg_flag s) (ppgid s) (SIGTSTP_default s) (SIGTSTP_action s) (SIGINT_default s) (SIGINT_action s).
Definition set_bg_flag (v : Z) (s : shell) : shell :=
  mkShell (environ s) (own_pid s) (pgrp s) (disp_int s) (disp_tstp s) (diag s) (calls s) (words s)
    v (ppgid s) (SIGTSTP_default s) (SIGTSTP_action s) (SIGINT_default s) (SIGINT_action s).
Definition set_ppgid (v : Z) (s : shell) : shell :=
  mkShell (environ s) (own_pid s) (pgrp s) (disp_int s) (disp_tstp s) (diag s) (calls s) (words s)
    (bg_flag s) v (SIGTSTP_default s) (SIGTSTP_action s) (SIGINT_default s) (SIGINT_action s).
Definition set_SIGTSTP_default (v : sigaction) (s : shell) : shell :=
  mkShell (environ s) (own_pid s) (pgrp s) (disp_int s) (disp_tstp s) (diag s) (calls s) (words s)
    (bg_flag s) (ppgid s) v (SIGTSTP_action s) (SIGINT_default s) (SIGINT_action s).
Definition set_SIGTSTP_action (v : sigaction) (s : shell) : shell :=
  mkShell (environ s) (own_pid s) (pgrp s) (disp_int s) (disp_tstp s) (diag s) (calls s) (words s)
    (bg_flag s) (ppgid s) (SIGTSTP_default s) v (SIGINT_default s) (SIGINT_action s).
Definition set_SIGINT_default (v : sigaction) (s : shell) : shell :=
  mkShell (environ s) (own_pid s) (pgrp s) (disp_int s) (disp_tstp s) (diag s) (calls s) (words s)
    (bg_flag s) (ppgid s) (SIGTSTP_default s) (SIGTSTP_action s) v (SIGINT_action s).
Definition set_SIGINT_action (v : sigaction) (s : shell) : shell :=
  mkShell (environ s) (own_pid s) (pgrp s) (disp_int s) (disp_tstp s) (diag s) (calls s) (words s)
    (bg_flag s) (ppgid s) (SIGTSTP_default s) (SIGTSTP_action s) (SIGINT_default s) v.

(** What [execv]/[execvp] was asked to run. *)
Record exec_request := {
  x_prog : string;
  x_search_path : bool;
  x_argv : list (option (option string))
}.

(** How a run of a function ends. *)
Inductive outcome (A : Type) :=
| Returns (a : A) (s : shell)
| Exits (status : Z) (s : shell)
| Execs (x : exec_request) (s : shell)
| Crashes (f : fault).
Arguments Returns {A} a s.
Arguments Exits {A} status s.
Arguments Execs {A} x s.
Arguments Crashes {A} f.

Definition M (A : Type) : Type := shell -> outcome A.

Definition ret {A} (a : A) : M A := fun s => Returns a s.

Definition bind {A B} (m : M A) (k : A -> M B) : M B :=
  fun s =>
    match m s with
    | Returns a s' => k a s'
    | Exits st s' => Exits st s'
    | Execs x s' => Execs x s'
    | Crashes f => Crashes f
    end.

Notation "'let!' x ':=' m 'in' k" := (bind m (fun x => k))
  (at level 10, x pattern, m at level 100, k at level 200).

Definition gets {A} (f : shell -> A) : M A := fun s => Returns (f s) s.
Definition modify (f : shell -> shell) : M unit := fun s => Returns tt (f s).
Definition exit_ {A} (status : Z) : M A := fun s => Exits status s.
Definition lift {A} (r : res A) : M A :=
  fun s => match r with Ok a => Returns a s | Fault f => Crashes f end.

(** [setenv(name, value, 1)] *)
Definition setenv (name value : string) : M unit :=
  modify (fun s => set_environ (<[name := value]> (environ s)) s).

(** [fprintf(stderr, ...)], [perror], the message part of [err]/[errx]. *)
Definition eprint (msg : string) : M unit :=
  modify (fun s => set_diag (diag s ++ [msg]) s).

Definition sys (c : syscall) : M unit :=
  modify (fun s => set_calls (calls s ++ [c]) s).

(** [err(1, msg)] *)
Definition err1 {A} (msg : string) : M A := let! _ := eprint msg in exit_ 1.

(** [sigaction(sig, act, &old)]: installs [act] unless NULL, yields the
    disposition that was in force. *)
Definition sys_sigaction (sig : signal) (act : option sigaction) : M sigaction :=
  fun s =>
    match sig with
    | SIGINT => Returns (disp_int s) (match act with Some a => set_disp_int a s | None => s end)
    | SIGTSTP => Returns (disp_tstp s) (match act with Some a => set_disp_tstp a s | None => s end)
    end.

(** ** Signal Controller *)

Definition SIGTSTP_setup : M unit :=
  let! old := sys_sigaction SIGTSTP None in
  let! _ := modify (set_SIGTSTP_default old) in
  let! _ := modify (set_SIGTSTP_action {| sa_handler := SIG_IGN; sa_mask_full := true |}) in
  let! act := gets SIGTSTP_action in
  let! old := sys_sigaction SIGTSTP (Some act) in
  modify (set_SIGTSTP_default old).

Definition SIGINT_setup : M unit :=
  let! old := sys_sigaction SIGINT None in
  let! _ := modify (set_SIGINT_default old) in
  let! _ := modify (set_SIGINT_action {| sa_handler := SIGINT_handler; sa_mask_full := true |}) in
  let! act := gets SIGINT_action in
  let! old := sys_sigaction SIGINT (Some act) in
  modify (set_SIGINT_default old).

(** [SIGINT_action.sa_handler = SIG_IGN; sigaction(SIGINT, &SIGINT_action, NULL);] *)
Definition ignore_SIGINT : M unit :=
  let! _ := modify (fun s => set_SIGINT_action
            {| sa_handler := SIG_IGN; sa_mask_full := sa_mask_full (SIGINT_action s) |} s) in
  let! act := gets SIGINT_action in
  let! _ := sys_sigaction SIGINT (Some act) in
  ret tt.

Definition print_prompt : M unit :=
  let! ps1 := gets (fun s => getenv (environ s) "PS1") in
  eprint (default "" ps1).

(** ** Built-in commands *)

(** [strtol(s, &endptr, 0)]: value and [endptr], the latter as the text it
    points at.  White space is skipped, a sign is taken, a leading [0x]
    followed by a hexadecimal digit selects base 16, another leading [0]
    base 8; without any digit the value is 0 and [endptr] is [s]; the value
    is clamped to the range of [long]. *)
Definition digit_value (c : ascii) : option Z :=
  let n := Z.of_nat (nat_of_ascii c) in
  if (48 <=? n) && (n <=? 57) then Some (n - 48)
  else if (97 <=? n) && (n <=? 122) then Some (n - 87)
  else if (65 <=? n) && (n <=? 90) then Some (n - 55)
  else None.

Definition is_digit_of (base : Z) (c : ascii) : bool :=
  match digit_value c with
  | Some d => d <? base
  | None => false
  end.

Fixpoint strtol_digits (base : Z) (s : string) (acc : Z) (any : bool) : Z * string * bool :=
  match s with
  | String c t =>
      match digit_value c with
      | Some d => if d <? base then strtol_digits base t (acc * base + d) true
                  else (acc, s, any)
      | None => (acc, s, any)
      end
  | EmptyString => (acc, s, any)
  end.

Fixpoint skip_blanks (s : string) : string :=
  match s with
  | String c t => if isspace c then skip_blanks t else s
  | EmptyString => s
  end.

Definition LONG_MAX : Z := 2 ^ 63 - 1.
Definition LONG_MIN : Z := - 2 ^ 63.

Definition strtol (s : string) : Z * string :=
  let s1 := skip_blanks s in
  let '(neg, s2) := match s1 with
                    | String "-" t => (true, t)
                    | String "+" t => (false, t)
                    | _ => (false, s1)
                    end in
  let '(base, s3) := match s2 with
                     | String "0" (String x (String h t)) =>
                         if ((x =? "x") || (x =? "X"))%char && is_digit_of 16 h
                         then (16, String h t) else (8, s2)
                     | String "0" _ => (8, s2)
                     | _ => (10, s2)
                     end in
  let '(v, rest, any) := strtol_digits base s3 0 false in
  if any then (Z.max LONG_MIN (Z.min LONG_MAX (if neg then - v else v)), rest)
  else (0, s).

(** The conversion of a [long] to [int] in [int exit_code = strtol(...)]. *)
Definition int_of_long (v : Z) : Z := (v + 2 ^ 31) mod 2 ^ 32 - 2 ^ 31.

(** What the operating system answers to the calls of one command. *)
Record os_answers := {
  fork_ret : Z;
  wait_ret : Z;
  wait_status : option Z;       (* [None]: [waitpid] left [status] unwritten *)
  kill_ret : Z;
  chdir_ret : string -> Z;
  open_ok : string -> bool;
  dup2_ok : bool;
  exec_ok : bool
}.

(** The answers of a system in which every call fails. *)
Definition no_answers : os_answers :=
  {| fork_ret := -1; wait_ret := -1; wait_status := None; kill_ret := -1;
     chdir_ret := fun _ => -1; open_ok := fun _ => false; dup2_ok := false;
     exec_ok := false |}.

(** [argv[i]] as a string argument. *)
Definition arg_at (argv : list (option (option string))) (i : Z) : M (option string) :=
  lift (let* c := arr_get argv i in cell_val c).

Definition builtin_cd (os : os_answers) (argv : list (option (option string))) (argc : Z)
  : M unit :=
  if argc =? 1 then
    let! home := gets (fun s => getenv (environ s) "HOME") in
    match home with
    | Some h => sys (Sys_chdir h)
    | None =>
        let! _ := eprint "smallsh: cd: HOME not set" in
        setenv "?" "1"
    end
  else if argc >? 2 then
    let! _ := eprint "smallsh: cd: too many arguments" in
    setenv "?" "1"
  else
    let! p := arg_at argv 1 in
    let! dir := lift (str_of p) in
    let! _ := sys (Sys_chdir dir) in
    if negb (chdir_ret os dir =? 0) then
      let! _ := eprint "smalssh: chdir failed" in
      setenv "?" "1"
    else ret tt.

Definition builtin_exit (argv : list (option (option string))) (argc : Z) : M unit :=
  let! _ := (if argc >? 2 then
               let! _ := eprint "smallsh: exit: too many arguments" in
               setenv "?" "1"
             else ret tt) in
  if argc =? 2 then
    let! p := arg_at argv 1 in
    let! a := lift (str_of p) in
    let '(v, endptr) := strtol a in
    let exit_code := int_of_long v in
    let! _ := (if negb (streq endptr "") then
                 let! _ := eprint ("smallsh: exit: " ++ a ++ ": integer argument required") in
                 setenv "?" "1"
               else ret tt) in
    exit_ exit_code
  else
    let! status := gets (fun s => getenv (environ s) "?") in
    let exit_code := match status with
                     | None => 0
                     | Some st => int_of_long (fst (strtol st))
                     end in
    exit_ exit_code.

(** ** Job Executor *)

(** The status word of [waitpid] and its macros (Linux, glibc). *)
Definition WTERMSIG (status : Z) : Z := Z.land status 127.
Definition WEXITSTATUS (status : Z) : Z := Z.shiftr (Z.land status 65280) 8.
Definition WIFEXITED (status : Z) : bool := WTERMSIG status =? 0.
Definition WIFSIGNALED (status : Z) : bool :=
  let t := Z.land status 127 + 1 in
  let signed_char := if t >=? 128 then t - 256 else t in
  Z.shiftr signed_char 1 >? 0.
Definition WIFSTOPPED (status : Z) : bool := Z.land status 255 =? 127.

(** The status words the kernel builds. *)
Definition W_EXITCODE (code sig : Z) : Z := Z.lor (Z.shiftl code 8) sig.
Definition W_STOPCODE (sig : Z) : Z := Z.lor (Z.shiftl sig 8) 127.

(** The status word of a child killed by signal [S], with or without a
    core dump. *)
Definition W_TERMSIG_CODE (S : Z) (core : bool) : Z :=
  Z.lor (W_EXITCODE 0 S) (if core then 128 else 0).

(** One redirection inside the child: [words[i + 1]] is the target. *)
Definition redirect (os : os_answers) (i : Z) (mode : open_mode) (open_msg : string)
  : M unit :=
  let! target := (fun s => lift (arr_get (words s) (i + 1)) s) in
  match target with
  | None => err1 "no file for redirection output"
  | Some path =>
      let! _ := sys (Sys_open path mode) in
      if open_ok os path then
        let! _ := sys (Sys_dup2 (match mode with O_read => false | _ => true end)) in
        if dup2_ok os then sys Sys_close else err1 "dup2"
      else err1 open_msg
  end.

(** [for (int i = 0; words[i] != NULL; i++) { ... }] in the child. *)
Fixpoint redirect_loop (fuel : nat) (os : os_answers) (i : Z) : M unit :=
  match fuel with
  | O => fun _ => Crashes OutOfFuel
  | S fuel' =>
      let! w := (fun s => lift (arr_get (words s) i) s) in
      match w with
      | None => ret tt
      | Some t =>
          let! _ := (if streq t ">" then redirect os i O_trunc "open file for redirection output"
                     else if streq t "<" then redirect os i O_read "open file for redirection input"
                     else if streq t ">>" then redirect os i O_append "open file for redirection output append"
                     else ret tt) in
          redirect_loop fuel' os (i + 1)
      end
  end.

(** [case 0:] of the [switch] on [fork]'s result: the child. *)
Definition child_branch (os : os_answers) (words_argv : list (option (option string)))
  : M unit :=
  let! d := gets SIGINT_default in
  let! _ := sys_sigaction SIGINT (Some d) in
  let! d := gets SIGTSTP_default in
  let! _ := sys_sigaction SIGTSTP (Some d) in
  let! _ := redirect_loop (S (S MAX_WORDS)) os 0 in
  let! p := arg_at words_argv 0 in
  let! prog := lift (str_of p) in
  match strchr prog "/" with
  | Some _ =>
      if exec_ok os
      then fun s => Execs {| x_prog := prog; x_search_path := false; x_argv := words_argv |} s
      else let! _ := eprint "execv" in exit_ 1
  | None =>
      if exec_ok os
      then fun s => Execs {| x_prog := prog; x_search_path := true; x_argv := words_argv |} s
      else let! _ := eprint "execvp" in exit_ 1
  end.

(** [default:] of the [switch]: the parent, [pid] being the child. *)
Definition parent_branch (os : os_answers) (pid : Z) : M unit :=
  let! bg := gets bg_flag in
  if negb (bg =? 0) then
    let! _ := sys (Sys_waitpid pid true true) in
    setenv "!" (sprintf_d pid)
  else
    let! _ := sys (Sys_waitpid pid false true) in
    let pid := wait_ret os in
    let! status := lift (match wait_status os with
                         | Some st => Ok st
                         | None => Fault UninitialisedRead
                         end) in
    if WIFSIGNALED status then
      let status := 128 + WTERMSIG status in
      setenv "?" (sprintf_d status)
    else if WIFSTOPPED status then
      let! _ := eprint ("Child process " ++ sprintf_d pid ++ " stopped. Continuing.") in
      let! _ := sys (Sys_kill_cont pid) in
      if kill_ret os <? 0 then
        let! _ := eprint "kill" in exit_ 1
      else setenv "!" (sprintf_d pid)
    else if WIFEXITED status then
      let status := WEXITSTATUS status in
      setenv "?" (sprintf_d status)
    else ret tt.

Definition execute_nonbuiltin_cmds (os : os_answers) (words_argv : list (option (option string)))
  : M unit :=
  let pid := fork_ret os in
  let! _ := sys (Sys_fork pid) in
  if pid =? -1 then
    let! p := arg_at words_argv 0 in
    let! _ := eprint ("Fork: " ++ default "(null)" p) in
    exit_ 1
  else if pid =? 0 then child_branch os words_argv
  else parent_branch os pid.

Definition execute_cmds (os : os_answers) (words_argv : list (option (option string)))
    (words_argc : Z) : M unit :=
  let! p := arg_at words_argv 0 in
  let! a0 := lift (str_of p) in
  if streq a0 "cd" then builtin_cd os words_argv words_argc
  else
    let! w := (fun s => lift (arr_get (words s) 0) s) in
    let! w0 := lift (str_of w) in
    if streq w0 "exit" then builtin_exit words_argv words_argc
    else execute_nonbuiltin_cmds os words_argv.

(** ** Background Reaper *)

(** One answer of [waitpid(-1, &status, WNOHANG | WUNTRACED)] and, should
    the child then be continued, the answer of [kill]. *)
Record reaped := {
  r_pid : Z;
  r_status : Z;
  r_kill : Z
}.

(** What the sweep does with one reaped child, inside the guard. *)
Definition report_child (r : reaped) : M unit :=
  let pid := r_pid r in
  let status := r_status r in
  if WIFEXITED status then
    eprint ("Child process " ++ sprintf_d pid ++ " done. Exit status "
            ++ sprintf_d (WEXITSTATUS status) ++ ".")
  else if WIFSIGNALED status then
    eprint ("Child process " ++ sprintf_d pid ++ " done. Signaled "
            ++ sprintf_d (WTERMSIG status) ++ ".")
  else if WIFSTOPPED status then
    let! _ := sys (Sys_kill_cont pid) in
    if r_kill r <? 0 then
      let! _ := eprint "kill" in exit_ 1
    else eprint ("Child process " ++ sprintf_d pid ++ " stopped. Continuing.")
  else ret tt.

(** [bg_handler()]: the answers of [waitpid] are consumed in order; the
    loop ends at the first answer that is not positive, or when no child is
    left to answer for.  [getpgrp()] reads the process group and changes
    nothing. *)
Fixpoint bg_handler (answers : list reaped) : M Z :=
  let! _ := sys (Sys_waitpid (-1) true true) in
  match answers with
  | [] => ret 0
  | r :: rest =>
      if r_pid r >? 0 then
        let! pgid := gets pgrp in
        let! saved := gets ppgid in
        let! _ := (if pgid =? saved then report_child r else ret tt) in
        bg_handler rest
      else ret 0
  end.

(** The sweep as the specification describes it: every reaped child is
    reported or continued, without a process-group test. *)
Fixpoint bg_handler_unconditional (answers : list reaped) : M Z :=
  let! _ := sys (Sys_waitpid (-1) true true) in
  match answers with
  | [] => ret 0
  | r :: rest =>
      if r_pid r >? 0 then
        let! _ := report_child r in
        bg_handler_unconditional rest
      else ret 0
  end.

(** ** The interpreter loop: [main] *)

(** What [getline] yields. *)
Inductive read_result :=
| Line (text : string)
| Eof
| Eintr
| ReadFailure.

(** The inputs of one pass through the loop: the reaper's answers, the
    line read, and the answers to the command's system calls. *)
Record iteration := {
  it_reaped : list reaped;
  it_read : read_result;
  it_os : os_answers
}.

(** The three places the control flow of [main] re-enters: the label
    [smallsh], the head of [for (;;)], and the label [prompt]. *)
Inductive entry := At_smallsh | At_for | At_prompt.

(** [for (i = 0; i < nwords; ++i) { exp_word = expand(words[i]); words[i] = exp_word; }]
    Every call of [expand] leaves the statics of [param_scan] and
    [build_str] at NULL again, which is how the next call finds them. *)
Fixpoint expand_words (fuel : nat) (i nwords : Z) : M unit :=
  match fuel with
  | O => fun _ => Crashes OutOfFuel
  | S fuel' =>
      if i <? nwords then
        let! w := (fun s => lift (arr_get (words s) i) s) in
        let! word := lift (str_of w) in
        let! env := gets environ in
        let! r := lift (expand env (None, None) word) in
        let! ws := (fun s => lift (arr_set (words s) i (fst r)) s) in
        let! _ := modify (set_words ws) in
        expand_words fuel' (size_wrap (i + 1)) nwords
      else ret tt
  end.

(** [for (i = 0; i < nwords; ++i) words[i] = 0;] *)
Fixpoint clear_words (fuel : nat) (i nwords : Z) : M unit :=
  match fuel with
  | O => fun _ => Crashes OutOfFuel
  | S fuel' =>
      if i <? nwords then
        let! ws := (fun s => lift (arr_set (words s) i None) s) in
        let! _ := modify (set_words ws) in
        clear_words fuel' (size_wrap (i + 1)) nwords
      else ret tt
  end.

Section Main.

(** The sweep called at the label [prompt]. *)
Variable sweep : list reaped -> M Z.

(** [argc] of [main] and whether [fopen] of the script succeeds. *)
Variable argc : Z.
Variable fopen_ok : bool.

(** From the label [smallsh] to the loop. *)
Definition startup : M unit :=
  let! _ := (if argc =? 2 then (if fopen_ok then ret tt else err1 "fopen")
             else if argc >? 2 then err1 "too many arguments"
             else ret tt) in
  let! g := gets pgrp in
  let! _ := modify (set_ppgid g) in
  let! pid := gets own_pid in
  let! _ := setenv "$" (sprintf_d pid) in
  let! _ := setenv "?" "0" in
  setenv "!" "".

(** One pass through the loop, in front of the sweep: what the entry
    point still has to run. *)
Definition before_sweep (e : entry) : M unit :=
  let! _ := (match e with At_smallsh => startup | _ => ret tt end) in
  match e with
  | At_prompt => ret tt
  | _ => let! _ := SIGTSTP_setup in SIGINT_setup
  end.

(** The pass behind the sweep, [b] being what [bg_handler()] returned:
    prompt, [getline], and the line's way through the pipeline. *)
Definition after_sweep (it : iteration) (b : Z) : M entry :=
  let! _ := (if negb (b =? 0) then err1 "bg_handler" else ret tt) in
  let! _ := (if argc =? 2 then ret tt else print_prompt) in
  match it_read it with
  | Eof => exit_ 0
  | Eintr => ret At_smallsh
  | ReadFailure => err1 "getline"
  | Line line =>
      let! _ := ignore_SIGINT in
      let! ws := gets words in
      let! r := lift (wordsplit line ws) in
      let! _ := modify (set_words (snd r)) in
      let nwords := Z.of_nat (fst r) in
      if nwords =? 0 then ret At_prompt
      else
        let! _ := expand_words (S MAX_WORDS) 0 nwords in
        let! ws := gets words in
        let! p := lift (parse_command ws nwords (fresh_argv nwords)) in
        let '(words_argv, words_argc, bg) := p in
        let! _ := modify (set_bg_flag bg) in
        let! _ := execute_cmds (it_os it) words_argv words_argc in
        let! _ := clear_words (S MAX_WORDS) 0 nwords in
        ret At_for
  end.

(** One pass: from the given entry point to the next jump. *)
Definition pass (e : entry) (it : iteration) : M entry :=
  let! _ := before_sweep e in
  let! b := sweep (it_reaped it) in
  after_sweep it b.

(** The run of [main] over the given passes; when they are used up the
    input is at its end. *)
Fixpoint main_from (e : entry) (its : list iteration) : M unit :=
  match its with
  | [] =>
      let! _ := pass e {| it_reaped := []; it_read := Eof; it_os := no_answers |} in
      ret tt
  | it :: rest =>
      let! e' := pass e it in
      main_from e' rest
  end.

End Main.

Definition main (argc : Z) (fopen_ok : bool) (its : list iteration) : M unit :=
  main_from bg_handler argc fopen_ok At_smallsh its.

(** A process as [exec] hands it to [main]: nothing written yet. *)
Definition fresh_shell (env : gmap string string) (pid pg : Z) (i t : sigaction) : shell :=
  {| environ := env; own_pid := pid; pgrp := pg; disp_int := i; disp_tstp := t;
     diag := []; calls := []; words := no_words; bg_flag := 0; ppgid := 0;
     SIGTSTP_default := sigaction_zero; SIGTSTP_action := sigaction_zero;
     SIGINT_default := sigaction_zero; SIGINT_action := sigaction_zero |}.

(** * Vocabulary of the statements *)

(** ** Words of the tokenizer's grammar *)

(** A word as the tokenizer's grammar builds it: a run of characters, each
    either standing for itself or written behind a backslash. *)
Inductive item :=
| Plain (c : ascii)
| Escaped (c : ascii).

(** A character can stand for itself unless it is white space, a
    backslash or the terminator; any character but the terminator can be
    escaped. *)
Definition item_ok (it : item) : bool :=
  match it with
  | Plain c => negb (is_nul c) && negb (isspace c) && negb (c =? "\")%char
  | Escaped c => negb (is_nul c)
  end.

(** The text of a word on the input line, and the characters it stands for. *)
Fixpoint encode (its : list item) : string :=
  match its with
  | [] => ""
  | Plain c :: r => String c (encode r)
  | Escaped c :: r => String "\" (String c (encode r))
  end.

Fixpoint decode (its : list item) : string :=
  match its with
  | [] => ""
  | Plain c :: r => String c (decode r)
  | Escaped c :: r => String c (decode r)
  end.

(** A word does not open with an unescaped [#] (that opens a comment). *)
Definition opens_comment (its : list item) : bool :=
  match its with
  | Plain c :: _ => (c =? "#")%char
  | _ => false
  end.

(** A run of unescaped white space. *)
Fixpoint all_space (s : string) : bool :=
  match s with
  | EmptyString => true
  | String c t => isspace c && all_space t
  end.

(** Where a scan for the end of a run of white space, or of a word, stops:
    at the terminator or at a character of the other kind. *)
Definition stops_space (rest : string) : Prop :=
  match rest with
  | EmptyString => True
  | String c _ => isspace c = false
  end.

Definition stops_word (rest : string) : Prop :=
  match rest with
  | EmptyString => True
  | String c _ => isspace c = true
  end.

(** The characters a read pointer still has in front of it, the
    terminator included. *)
Definition room (c : cptr) : nat :=
  match c with
  | At s => S (String.length s)
  | Past => 0
  end.

(** A result of the model that is either a value with the property [P] or
    the fault of the program itself, never an exhausted budget. *)
Definition within_budget {A} (r : res A) (P : A -> Prop) : Prop :=
  match r with
  | Ok a => P a
  | Fault f => f = ReadPastTerminator
  end.

(** ** The expansion of a word *)

(** The first parameter reference at or behind [s], reading from the left:
    its kind, where it starts and where the text behind it starts. *)
Fixpoint first_ref (s : string) : ascii * option string * option string :=
  match s with
  | EmptyString => (NUL, None, None)
  | String x t =>
      if (x =? "$")%char then
        let d := char1 s in
        if is_special d then (d, Some s, Some (str_drop 2 s))
        else if (d =? "{")%char then
          match strchr (str_drop 2 s) "}" with
          | Some e => (d, Some s, Some (str_drop 1 e))
          | None => first_ref t
          end
        else first_ref t
      else first_ref t
  end.

(** The text a reference of kind [c] from [start] to [end_] stands for. *)
Definition ref_value (env : gmap string string) (c : ascii) (start end_ : string) : string :=
  if (c =? "$")%char then default "" (getenv env "$")
  else if (c =? "!")%char then default "" (getenv env "!")
  else if (c =? "?")%char then default "0" (getenv env "?")
  else if (c =? "{")%char
       then default "" (getenv env (str_take (ptr_diff end_ start - 3) (str_drop 2 start)))
  else "".

(** The expansion of a word, reference by reference: the text in front of
    the first reference, its value, and the expansion of what follows. *)
Inductive expands (env : gmap string string) : string -> string -> Prop :=
| expands_plain (w : string) :
    first_ref w = (NUL, None, None) ->
    expands env w w
| expands_ref (w : string) (c : ascii) (st e r : string) :
    first_ref w = (c, Some st, Some e) ->
    expands env e r ->
    expands env w (str_take (ptr_diff st w) w ++ ref_value env c st e ++ r).

(** Whether the last character of a text is [$]. *)
Fixpoint ends_with_dollar (s : string) : bool :=
  match s with
  | EmptyString => false
  | String x EmptyString => (x =? "$")%char
  | String _ t => ends_with_dollar t
  end.

(** The text between the pointer [w] and the start [st] of the next
    reference, or all of [w] when there is none: what
    [build_str(pos, start)] appends. *)
Definition literal_before (w : string) (st : option string) : string :=
  match st with
  | Some s => str_take (ptr_diff s w) w
  | None => w
  end.

(** ** Argument vectors *)

(** The tokens that remain when, reading from the left, each redirection
    operator is left out together with the token that follows it. *)
Fixpoint strip_redirects (ts : list string) : list string :=
  match ts with
  | [] => []
  | t :: r =>
      if is_redirect t
      then match r with
           | [] => []
           | _ :: r' => strip_redirects r'
           end
      else t :: strip_redirects r
  end.

(** Whether the last remaining argument is the background marker. *)
Definition marked_background (args : list string) : bool :=
  match last args with
  | Some a => streq a "&"
  | None => false
  end.

(** The argument vector the specification describes: the remaining
    arguments, without a final [&]. *)
Definition final_args (args : list string) : list string :=
  if marked_background args then removelast args else args.

(** An argument vector laid out in the cells of [words_argv]: the
    arguments, the terminating NULL, then cells never written. *)
Definition argv_layout (args : list string) (unwritten : nat) : list (option (option string)) :=
  ((fun a => Some (Some a)) <$> args) ++ Some None :: replicate unwritten None.

(** The cells of [words_argv] while it is being filled: the arguments
    copied so far, then cells not yet written. *)
Definition filled (args : list string) (free : nat) : list (option (option string)) :=
  ((fun a => Some (Some a)) <$> args) ++ replicate free None.

(** ** Frames *)

(** The fields of the process that a command leaves alone when it only
    touches the environment and the record of system calls. *)
Definition same_but_environ_calls (s s' : shell) : Prop :=
  own_pid s' = own_pid s /\ pgrp s' = pgrp s
  /\ disp_int s' = disp_int s /\ disp_tstp s' = disp_tstp s
  /\ diag s' = diag s /\ words s' = words s
  /\ bg_flag s' = bg_flag s /\ ppgid s' = ppgid s
  /\ SIGTSTP_default s' = SIGTSTP_default s /\ SIGTSTP_action s' = SIGTSTP_action s
  /\ SIGINT_default s' = SIGINT_default s /\ SIGINT_action s' = SIGINT_action s.

(** A computation keeps the process group, and the copy of it saved at
    start, when every state it returns in has both as they were. *)
Definition keeps_group {A} (m : M A) : Prop :=
  forall s, match m s with
            | Returns _ s' => pgrp s' = pgrp s /\ ppgid s' = ppgid s
            | _ => True
            end.

(** The two numbers the guard of the sweep compares are equal. *)
Definition group_unchanged (s : shell) : Prop := pgrp s = ppgid s.

(** ** Sample processes and answers *)

(** A shell started with both signals at their default disposition. *)
Definition sample_shell : shell :=
  fresh_shell demo_env 4242 4242 sigaction_zero sigaction_zero.

(** The answers for a command that runs as child [pid]; [status] is what
    a blocking wait reports. *)
Definition answers_for (pid : Z) (status : option Z) : os_answers :=
  {| fork_ret := pid; wait_ret := pid; wait_status := status; kill_ret := 0;
     chdir_ret := fun _ => 0; open_ok := fun _ => true; dup2_ok := true;
     exec_ok := true |}.

(** One pass that reads [text] and runs it with the given answers, no
    background child having changed state. *)
Definition reads (text : string) (os : os_answers) : iteration :=
  {| it_reaped := []; it_read := Line text; it_os := os |}.

Definition nl : string := String "010"%char "".

(** The disposition the interpreter installs for itself once a line is read. *)
Definition ignored : sigaction := {| sa_handler := SIG_IGN; sa_mask_full := true |}.

(** * Further vocabulary: frames of the stateful functions *)

(** A computation preserves a view [f] of the process when every state it
    returns in shows the same [f] as the state it started from. *)
Definition preserves {A B} (f : shell -> B) (m : M A) : Prop :=
  forall s, match m s with
            | Returns _ s' => f s' = f s
            | _ => True
            end.

(** Everything of the process but what was written to stderr and the
    record of system calls. *)
Definition but_diag_calls (s : shell) :=
  (environ s, own_pid s, pgrp s, disp_int s, disp_tstp s, words s, bg_flag s, ppgid s,
   SIGTSTP_default s, SIGTSTP_action s, SIGINT_default s, SIGINT_action s).

(** Everything but the environment, stderr and the record of system calls. *)
Definition but_environ_diag_calls (s : shell) :=
  (own_pid s, pgrp s, disp_int s, disp_tstp s, words s, bg_flag s, ppgid s,
   SIGTSTP_default s, SIGTSTP_action s, SIGINT_default s, SIGINT_action s).

(** The signal dispositions in force and the four [struct sigaction] globals. *)
Definition signal_state (s : shell) :=
  (disp_int s, disp_tstp s, SIGTSTP_default s, SIGTSTP_action s,
   SIGINT_default s, SIGINT_action s).

(** A computation that never comes back to its caller: it ends the
    process, replaces its image, or faults. *)
Definition never_returns {A} (m : M A) : Prop :=
  forall s a s', m s <> Returns a s'.

(** What the sweep writes for one reaped child, and the signal it sends. *)
Definition reap_lines (r : reaped) : list string :=
  if WIFEXITED (r_status r) then
    ["Child process " ++ sprintf_d (r_pid r) ++ " done. Exit status "
     ++ sprintf_d (WEXITSTATUS (r_status r)) ++ "."]
  else if WIFSIGNALED (r_status r) then
    ["Child process " ++ sprintf_d (r_pid r) ++ " done. Signaled "
     ++ sprintf_d (WTERMSIG (r_status r)) ++ "."]
  else if WIFSTOPPED (r_status r) then
    ["Child process " ++ sprintf_d (r_pid r) ++ " stopped. Continuing."]
  else [].

Definition reap_calls (r : reaped) : list syscall :=
  if WIFEXITED (r_status r) then []
  else if WIFSIGNALED (r_status r) then []
  else if WIFSTOPPED (r_status r) then [Sys_kill_cont (r_pid r)]
  else [].

(** The answers the sweep acts on: those in front of the first one that
    is not a positive process id. *)
Fixpoint reaped_children (answers : list reaped) : list reaped :=
  match answers with
  | [] => []
  | r :: rest => if r_pid r >? 0 then r :: reaped_children rest else []
  end.

(** Whether [kill] succeeds for every stopped child among the answers. *)
Definition kill_succeeds (r : reaped) : bool :=
  WIFEXITED (r_status r) || WIFSIGNALED (r_status r) || negb (WIFSTOPPED (r_status r))
  || negb (r_kill r <? 0).

(** ** Lines of words *)

(** The text of a line given as its words, each with the white space
    that follows it, and what follows the last of them. *)
Fixpoint line_text (ws : list (list item * string)) (tail : string) : string :=
  match ws with
  | [] => tail
  | (w, sep) :: r => encode w ++ sep ++ line_text r tail
  end.

(** Each word is a word of the grammar and is separated from what follows
    by white space; only a last word that ends the line has none. *)
Fixpoint well_spaced (ws : list (list item * string)) (tail : string) : bool :=
  match ws with
  | [] => true
  | (w, sep) :: r =>
      negb (bool_decide (w = [])) && forallb item_ok w && negb (opens_comment w)
      && all_space sep
      && (negb (bool_decide (sep = "")) || (bool_decide (r = []) && bool_decide (tail = "")))
      && well_spaced r tail
  end.

(** What may follow the words: the end of the line, or a comment. *)
Definition comment_or_end (tail : string) : bool :=
  match tail with
  | EmptyString => true
  | String c _ => (c =? "#")%char
  end.

(** The characters the words stand for. *)
Definition decoded (ws : list (list item * string)) : list string :=
  map (fun p => decode (fst p)) ws.

(** [words[wind] = w0; words[wind + 1] = w1; ...] *)
Fixpoint store_words (wind : nat) (ws : list string) (arr : list (option string))
  : list (option string) :=
  match ws with
  | [] => arr
  | w :: r => store_words (S wind) r (<[wind := Some w]> arr)
  end.

(** The read pointer is at the terminator or at a character that is not
    white space. *)
Definition at_word_or_end (c : cptr) : Prop :=
  forall x, deref c = Ok x -> is_nul x = true \/ isspace x = false.

(** ** One line through the pipeline *)

(** The words of a line and their expansions in an environment. *)
Definition expansions (env : gmap string string) (ts rs : list string) : Prop :=
  Forall2 (fun t r => expanded env t = Ok (Some r)) ts rs.

(** The process after the prompt, when [main] reads from stdin. *)
Definition prompted (argc : Z) (s : shell) : shell :=
  if argc =? 2 then s
  else set_diag (diag s ++ [default "" (getenv (environ s) "PS1")]) s.

(** The process once the line is read: SIGINT ignored. *)
Definition sigint_ignored (s : shell) : shell :=
  let act := {| sa_handler := SIG_IGN; sa_mask_full := sa_mask_full (SIGINT_action s) |} in
  set_disp_int act (set_SIGINT_action act s).

(** The process in which the command of a line is executed: the expanded
    words in [words], [bg_flag] as the parser set it. *)
Definition command_state (argc : Z) (rs : list string) (bg : Z) (s : shell) : shell :=
  set_bg_flag bg (set_words (words_holding rs) (sigint_ignored (prompted argc s))).

(** The mode a redirection operator opens its target with. *)
Definition redirect_mode (t : string) : option open_mode :=
  if streq t ">" then Some O_trunc
  else if streq t "<" then Some O_read
  else if streq t ">>" then Some O_append
  else None.

(** The system calls of the child's redirections for the words of a
    line, read from the left: every operator takes the word behind it. *)
Fixpoint redirections (rs : list string) : list syscall :=
  match rs with
  | [] => []
  | t :: r =>
      match redirect_mode t, r with
      | Some mode, f :: _ =>
          [Sys_open f mode; Sys_dup2 (match mode with O_read => false | _ => true end);
           Sys_close]
      | _, _ => []
      end ++ redirections r
  end.

(** Every operator has a word behind it, which can be opened, and [dup2]
    succeeds. *)
Fixpoint redirects_ok (os : os_answers) (rs : list string) : bool :=
  match rs with
  | [] => true
  | t :: r =>
      match redirect_mode t with
      | Some _ => match r with
                  | f :: _ => open_ok os f && dup2_ok os
                  | [] => false
                  end
      | None => true
      end && redirects_ok os r
  end.

(** The message of a failed [open], by operator. *)
Definition open_message (mode : open_mode) : string :=
  match mode with
  | O_trunc => "open file for redirection output"
  | O_read => "open file for redirection input"
  | O_append => "open file for redirection output append"
  end.

(** The process of the child when it calls [exec]: forked from the
    process [s], the saved dispositions back in force, the redirections
    of the words [rs] done. *)
Definition child_at_exec (rs : list string) (s : shell) : shell :=
  set_calls (calls s ++ Sys_fork 0 :: redirections rs)
    (set_disp_tstp (SIGTSTP_default s) (set_disp_int (SIGINT_default s) s)).

(** [execv] for a name with a slash, [execvp] otherwise. *)
Definition exec_of (prog : string) (argv : list (option (option string))) : exec_request :=
  {| x_prog := prog;
     x_search_path := match strchr prog "/" with Some _ => false | None => true end;
     x_argv := argv |}.

(** How the redirection of an operator with mode [mode] fails, [rest]
    being the words behind the operator: the system calls made before it
    gives up, and the message. *)
Definition redirect_failure (os : os_answers) (mode : open_mode) (rest : list string)
  : option (list syscall * string) :=
  match rest with
  | [] => Some ([], "no file for redirection output")
  | f :: _ =>
      if open_ok os f then
        if dup2_ok os then None
        else Some ([Sys_open f mode;
                    Sys_dup2 (match mode with O_read => false | _ => true end)], "dup2")
      else Some ([Sys_open f mode], open_message mode)
  end.

(** No word is a redirection operator. *)
Definition no_redirects (rs : list string) : bool :=
  forallb (fun t => negb (is_redirect t)) rs.

(** ** The [words] array between two lines *)

(** The cells of [words] from [n] on, and how many cells there are. *)
Definition tail_view (n : nat) (s : shell) : nat * list (option string) :=
  (length (words s), drop n (words s)).

(** ** Signal dispositions of the children *)

(** A computation leaves the view [f] alone when it returns, and when it
    ends in [exec] the process at that moment stands in the relation [Q]
    to the one it started from. *)
Definition frames {A B} (f : shell -> B) (Q : shell -> shell -> Prop) (m : M A) : Prop :=
  forall s, match m s with
            | Returns _ s' => f s' = f s
            | Execs _ s' => Q s s'
            | _ => True
            end.

(** The dispositions saved by [SIGINT_setup] and [SIGTSTP_setup]. *)
Definition saved_defaults (s : shell) : sigaction * sigaction :=
  (SIGINT_default s, SIGTSTP_default s).

(** The dispositions in force and the saved ones. *)
Definition dispositions (s : shell) : sigaction * sigaction * (sigaction * sigaction) :=
  (disp_int s, disp_tstp s, saved_defaults s).

(** The process [s'] runs with the dispositions that [s] has saved. *)
Definition runs_with_saved (s s' : shell) : Prop :=
  disp_int s' = SIGINT_default s /\ disp_tstp s' = SIGTSTP_default s.

(** The process [s'] runs with the dispositions in force in [s]. *)
Definition runs_with_current (s s' : shell) : Prop :=
  disp_int s' = disp_int s /\ disp_tstp s' = disp_tstp s.

(** * Checked properties *)

(** ** Sample runs *)

Example wordsplit_two : tokens_of (wordsplit "echo  hi
" no_words) = Ok [Some "echo"; Some "hi"].
Proof. vm_compute. reflexivity. Qed.

Example wordsplit_esc : tokens_of (wordsplit "a\ b c" no_words) = Ok [Some "a b"; Some "c"].
Proof. vm_compute. reflexivity. Qed.

Example wordsplit_comment : tokens_of (wordsplit "a #b c" no_words) = Ok [Some "a"].
Proof. vm_compute. reflexivity. Qed.

Example wordsplit_trailing_backslash : wordsplit "a\" no_words = Fault ReadPastTerminator.
Proof. vm_compute. reflexivity. Qed.

Example expand_home : expanded demo_env "${HOME}/x" = Ok (Some "/home/u/x").
Proof. vm_compute. reflexivity. Qed.

Example expand_mixed : expanded demo_env "a$$b$?c${NOPE}d$" = Ok (Some "a4242b0cd$").
Proof. vm_compute. reflexivity. Qed.

Example expand_unterminated : expanded demo_env "x${HOME" = Ok (Some "x${HOME").
Proof. vm_compute. reflexivity. Qed.

Example expand_statics_reset : expand demo_env (Some "old", Some "junk") "$$" = Ok (Some "4242", (None, None)).
Proof. vm_compute. reflexivity. Qed.

Example parse_plain : parse_tokens ["ls"; "-l"] =
  Ok ([Some (Some "ls"); Some (Some "-l"); Some None], 2, 0).
Proof. vm_compute. reflexivity. Qed.

Example parse_redirect_bg : parse_tokens ["sort"; "<"; "in"; ">"; "out"; "&"] =
  Ok ([Some (Some "sort"); Some None; None; None; None; None; None], 1, 1).
Proof. vm_compute. reflexivity. Qed.

Example parse_only_redirect : parse_tokens ["<"; "file"] = Fault IndexOutOfBounds.
Proof. vm_compute. reflexivity. Qed.

Example parse_only_amp : parse_tokens ["&"] = Ok ([Some None; None], 0, 1).
Proof. vm_compute. reflexivity. Qed.

Example redirect_scenario_child :
  exists x s,
    main 1 true [reads ("echo ${HOME}/x > /tmp/out.txt" ++ nl) (answers_for 0 None)]
      sample_shell = Execs x s
    /\ x = {| x_prog := "echo"; x_search_path := true;
              x_argv := [Some (Some "echo"); Some (Some "/home/u/x"); Some None; None; None] |}
    /\ calls s = [Sys_waitpid (-1) true true; Sys_fork 0;
                  Sys_open "/tmp/out.txt" O_trunc; Sys_dup2 true; Sys_close].
Proof. eexists _, _. split; [vm_compute; reflexivity|]. split; reflexivity. Qed.

Example redirect_scenario_parent :
  exists s,
    main 1 true [reads ("echo ${HOME}/x > /tmp/out.txt" ++ nl)
                   (answers_for 5000 (Some (W_EXITCODE 0 0)))] sample_shell = Exits 0 s
    /\ environ s !! "?" = Some "0"
    /\ words s = no_words.
Proof. eexists. split; [vm_compute; reflexivity|]. split; reflexivity. Qed.

Example false_then_exit :
  exists s,
    main 1 true [reads ("false" ++ nl) (answers_for 5000 (Some (W_EXITCODE 1 0)));
                 reads ("exit" ++ nl) no_answers] sample_shell = Exits 1 s.
Proof. eexists. vm_compute. reflexivity. Qed.

Example blank_and_comment_lines :
  wordsplit ("   " ++ nl) no_words = Ok (0%nat, no_words)
  /\ wordsplit ("  # a comment" ++ nl) no_words = Ok (0%nat, no_words).
Proof. split; vm_compute; reflexivity. Qed.

(** ** Text: appending, dropping and taking characters *)

Lemma app_cons (c : ascii) (s t : string) : String c s ++ t = String c (s ++ t).
Proof. reflexivity. Qed.

Lemma app_empty_l (t : string) : "" ++ t = t.
Proof. reflexivity. Qed.

Lemma app_empty_r (s : string) : s ++ "" = s.
Proof. induction s as [|c s IH]; [reflexivity|]. rewrite app_cons, IH. reflexivity. Qed.

Lemma app_assoc_s (a b c : string) : (a ++ b) ++ c = a ++ (b ++ c).
Proof. induction a as [|x a IH]; [reflexivity|]. rewrite !app_cons, IH. reflexivity. Qed.

Lemma app_length_s (a b : string) :
  String.length (a ++ b) = (String.length a + String.length b)%nat.
Proof. induction a as [|x a IH]; [reflexivity|]. rewrite app_cons. simpl. rewrite IH. reflexivity. Qed.

Lemma str_take_all (s : string) : str_take (String.length s) s = s.
Proof. induction s as [|c s IH]; [reflexivity|]. simpl. rewrite IH. reflexivity. Qed.

Lemma str_take_app (a b : string) : str_take (String.length a) (a ++ b) = a.
Proof. induction a as [|c a IH]; [destruct b; reflexivity|]. rewrite app_cons. simpl. rewrite IH. reflexivity. Qed.

Lemma str_drop_app (a b : string) : str_drop (String.length a) (a ++ b) = b.
Proof. induction a as [|c a IH]; [reflexivity|]. rewrite app_cons. simpl. exact IH. Qed.

Lemma str_take_app_le (n : nat) (a b : string) :
  (n <= String.length a)%nat -> str_take n (a ++ b) = str_take n a.
Proof.
  revert a. induction n as [|n IH]; intros a H.
  - destruct a, b; reflexivity.
  - destruct a as [|x a]; [simpl in H; lia|].
    rewrite app_cons. simpl. rewrite IH by (simpl in H; lia). reflexivity.
Qed.

Lemma str_drop_app_le (n : nat) (a b : string) :
  (n <= String.length a)%nat -> str_drop n (a ++ b) = str_drop n a ++ b.
Proof.
  revert a. induction n as [|n IH]; intros a H; [reflexivity|].
  destruct a as [|x a]; [simpl in H; lia|].
  rewrite app_cons. simpl. apply IH. simpl in H. lia.
Qed.

Lemma str_take_app_more (a b : string) (n : nat) :
  str_take (String.length a + n) (a ++ b) = a ++ str_take n b.
Proof.
  induction a as [|x a IH]; [reflexivity|].
  rewrite !app_cons. simpl. rewrite IH. reflexivity.
Qed.

(** ** Tokenizer *)

Lemma isspace_not_nul (c : ascii) : isspace c = true -> is_nul c = false.
Proof.
  unfold is_nul, NUL. destruct (Ascii.eqb_spec c "000"%char) as [->|]; [|reflexivity].
  vm_compute. discriminate.
Qed.

Lemma skip_space_run (l rest : string) (fuel : nat) :
  all_space l = true -> stops_space rest ->
  (String.length l < fuel)%nat ->
  skip_space fuel (At (l ++ rest)) = Ok (At rest).
Proof.
  revert fuel. induction l as [|c l IH]; intros fuel Hl Hrest Hfuel.
  - rewrite app_empty_l. destruct fuel as [|fuel]; [simpl in Hfuel; lia|].
    destruct rest as [|c t]; simpl; [reflexivity|].
    simpl in Hrest. rewrite Hrest, andb_false_r. reflexivity.
  - simpl in Hl. apply andb_prop in Hl as [Hc Hl].
    destruct fuel as [|fuel]; [simpl in Hfuel; lia|].
    rewrite app_cons. simpl. rewrite Hc, (isspace_not_nul c Hc). simpl.
    apply IH; [assumption|assumption|simpl in Hfuel; lia].
Qed.

Lemma read_word_items (its : list item) (rest w : string) (fuel wind : nat)
    (ws : list (option string)) :
  forallb item_ok its = true -> stops_word rest ->
  (length its < fuel)%nat ->
  read_word fuel (At (encode its ++ rest)) wind w ws
  = Ok (At rest, match its with
                 | [] => ws
                 | _ :: _ => <[wind := Some (w ++ decode its)]> ws
                 end).
Proof.
  revert w fuel ws. induction its as [|it its IH]; intros w fuel ws Hits Hrest Hfuel.
  - simpl encode. rewrite app_empty_l.
    destruct fuel as [|fuel]; [simpl in Hfuel; lia|].
    destruct rest as [|c t]; simpl; [reflexivity|].
    simpl in Hrest. rewrite Hrest. simpl. rewrite andb_false_r. reflexivity.
  - simpl in Hits. apply andb_prop in Hits as [Hit Hits].
    destruct fuel as [|fuel]; [simpl in Hfuel; lia|].
    assert (Hf : (length its < fuel)%nat) by (simpl in Hfuel; lia).
    assert (Hfin : forall y,
               match its with
               | [] => <[wind := Some (w ++ String y "")]> ws
               | _ :: _ => <[wind := Some ((w ++ String y "") ++ decode its)]>
                             (<[wind := Some (w ++ String y "")]> ws)
               end = <[wind := Some (w ++ String y (decode its))]> ws).
    { intros y. destruct its as [|i0 its0].
      - reflexivity.
      - rewrite list_insert_insert_eq, app_assoc_s. reflexivity. }
    destruct it as [c|c]; simpl in Hit.
    + apply andb_prop in Hit as [Hit Hbs]. apply andb_prop in Hit as [Hn Hs].
      apply negb_true_iff in Hn, Hs, Hbs.
      simpl encode. rewrite app_cons. simpl. rewrite Hn, Hs, Hbs. simpl. rewrite Hn.
      rewrite (IH _ fuel _ Hits Hrest Hf). rewrite Hfin. reflexivity.
    + apply negb_true_iff in Hit.
      simpl encode. rewrite !app_cons. simpl. rewrite Hit.
      rewrite (IH _ fuel _ Hits Hrest Hf). rewrite Hfin. reflexivity.
Qed.

Lemma encode_length (its : list item) : (length its <= String.length (encode its))%nat.
Proof. induction its as [|[c|c] its IH]; simpl; lia. Qed.

(** A line holding one word, possibly between runs of white space, splits
    into exactly that word with its escapes resolved. *)
Lemma wordsplit_one_word (its : list item) (lead trail : string) (ws : list (option string)) :
  its <> [] -> forallb item_ok its = true -> opens_comment its = false ->
  all_space lead = true -> all_space trail = true ->
  wordsplit (lead ++ encode its ++ trail) ws = Ok (1%nat, <[0%nat := Some (decode its)]> ws).
Proof.
  intros Hne Hok Hcom Hlead Htrail.
  assert (Hstop : stops_word trail).
  { destruct trail as [|c t]; simpl; [exact I|].
    simpl in Htrail. apply andb_prop in Htrail as [H _]. exact H. }
  assert (Hlen : (String.length lead + length its + String.length trail
                  <= String.length (lead ++ encode its ++ trail))%nat).
  { rewrite !app_length_s. pose proof (encode_length its). lia. }
  unfold wordsplit, line_fuel.
  set (n := String.length (lead ++ encode its ++ trail)) in *.
  rewrite skip_space_run; [|assumption| |lia].
  2:{ destruct its as [|[c|c] its]; [contradiction| |]; simpl encode; rewrite ?app_cons; simpl.
      - simpl in Hok. apply andb_prop in Hok as [Hc _].
        apply andb_prop in Hc as [Hc _]. apply andb_prop in Hc as [_ Hc].
        apply negb_true_iff in Hc. exact Hc.
      - reflexivity. }
  cbn [res_bind].
  assert (Hhead : exists x t, encode its ++ trail = String x t /\ is_nul x = false
                              /\ (x =? "#")%char = false).
  { destruct its as [|[c|c] its]; [contradiction| |]; simpl encode; rewrite ?app_cons.
    - exists c, (encode its ++ trail). split; [reflexivity|].
      simpl in Hok, Hcom. apply andb_prop in Hok as [Hc _].
      apply andb_prop in Hc as [Hc _]. apply andb_prop in Hc as [Hc _].
      apply negb_true_iff in Hc. auto.
    - eexists _, _. split; [reflexivity|]. split; reflexivity. }
  destruct Hhead as (x & t & Heq & Hnul & Hhash).
  cbn [wordsplit_loop]. rewrite Heq at 1. cbn [deref res_bind]. rewrite Hnul, Hhash.
  cbn [Nat.eqb MAX_WORDS].
  rewrite (read_word_items its trail "" _ _ _ Hok Hstop) by lia.
  cbn [res_bind]. destruct its as [|it0 its0] eqn:Eits; [contradiction|]. rewrite <- Eits.
  rewrite app_empty_l.
  rewrite <- (app_empty_r trail) at 1.
  rewrite skip_space_run; [|assumption|exact I|lia].
  cbn [res_bind]. cbn [wordsplit_loop deref res_bind]. reflexivity.
Qed.

(** C7: an input line that holds a single word in which a white-space
    character is written behind a backslash is split into exactly one
    token; the token holds that white-space character itself and the
    backslash is gone.  The word is given by its grammar: [before] and
    [after] are the items around the escaped character [sp]; the line may
    carry white space around the word (the newline that ends it). *)
Theorem wordsplit_escaped_space_one_token
    (before after : list item) (sp : ascii) (lead trail : string) :
  isspace sp = true ->
  forallb item_ok before = true -> forallb item_ok after = true ->
  opens_comment (before ++ [Escaped sp]) = false ->
  all_space lead = true -> all_space trail = true ->
  wordsplit (lead ++ encode (before ++ Escaped sp :: after) ++ trail) no_words
  = Ok (1%nat, <[0%nat := Some (decode before ++ String sp (decode after))]> no_words)
  /\ encode (before ++ Escaped sp :: after)
     = encode before ++ String "\" (String sp (encode after)).
Proof.
  intros Hsp Hb Ha Hcom Hlead Htrail.
  assert (Hdec : forall a b, decode (a ++ b) = decode a ++ decode b).
  { induction a as [|[c|c] a IH]; intros b; simpl; rewrite ?app_cons, ?IH; reflexivity. }
  assert (Henc : forall a b, encode (a ++ b) = encode a ++ encode b).
  { induction a as [|[c|c] a IH]; intros b; simpl; rewrite ?app_cons, ?IH; reflexivity. }
  split.
  - rewrite wordsplit_one_word; try assumption.
    + rewrite Hdec. reflexivity.
    + destruct before; discriminate.
    + rewrite forallb_app. rewrite Hb. simpl. rewrite Ha, (isspace_not_nul sp Hsp). reflexivity.
    + destruct before as [|[c|c] before]; simpl in *; auto.
  - rewrite Henc. reflexivity.
Qed.

Lemma wordsplit_escaped_space_one_token_witness :
  wordsplit "my\ file
" no_words = Ok (1%nat, <[0%nat := Some "my file"]> no_words).
Proof.
  exact (proj1 (wordsplit_escaped_space_one_token
                  [Plain "m"; Plain "y"] [Plain "f"; Plain "i"; Plain "l"; Plain "e"]
                  " "%char "" (String "010"%char "")
                  eq_refl eq_refl eq_refl eq_refl eq_refl eq_refl)).
Defined.

Lemma read_word_trailing_backslash (its : list item) (w : string) (fuel wind : nat)
    (ws : list (option string)) :
  forallb item_ok its = true ->
  (S (length its) < fuel)%nat ->
  read_word fuel (At (encode its ++ "\")) wind w ws = Fault ReadPastTerminator.
Proof.
  revert w fuel ws. induction its as [|it its IH]; intros w fuel ws Hits Hfuel.
  - destruct fuel as [|[|fuel]]; [simpl in Hfuel; lia|simpl in Hfuel; lia|].
    reflexivity.
  - simpl in Hits. apply andb_prop in Hits as [Hit Hits].
    destruct fuel as [|fuel]; [simpl in Hfuel; lia|].
    assert (Hf : (S (length its) < fuel)%nat) by (simpl in Hfuel; lia).
    destruct it as [c|c]; simpl in Hit.
    + apply andb_prop in Hit as [Hit Hbs]. apply andb_prop in Hit as [Hn Hs].
      apply negb_true_iff in Hn, Hs, Hbs.
      simpl encode. rewrite app_cons. simpl. rewrite Hn, Hs, Hbs. simpl. rewrite Hn.
      apply IH; assumption.
    + apply negb_true_iff in Hit.
      simpl encode. rewrite !app_cons. simpl. rewrite Hit.
      apply IH; assumption.
Qed.

(** C10 (fails on the code): when the last character of the line is a
    backslash that is not itself escaped, [wordsplit] steps over the
    terminating NUL and reads the position behind it.  [before] is the
    part of the last word in front of that backslash, [lead] the white
    space in front of the word. *)
Theorem wordsplit_final_backslash_reads_past_terminator
    (before : list item) (lead : string) (ws : list (option string)) :
  forallb item_ok before = true -> opens_comment before = false ->
  all_space lead = true ->
  wordsplit (lead ++ encode before ++ "\") ws = Fault ReadPastTerminator.
Proof.
  intros Hok Hcom Hlead.
  assert (Hlen : (String.length lead + length before + 1
                  <= String.length (lead ++ encode before ++ "\"))%nat).
  { rewrite !app_length_s. pose proof (encode_length before). simpl. lia. }
  unfold wordsplit, line_fuel.
  set (n := String.length (lead ++ encode before ++ "\")) in *.
  assert (Hhead : exists x t, encode before ++ "\" = String x t /\ is_nul x = false
                              /\ isspace x = false /\ (x =? "#")%char = false).
  { destruct before as [|[c|c] its]; simpl encode; rewrite ?app_cons.
    - exists "\"%char, "". repeat split; reflexivity.
    - exists c, (encode its ++ "\"). split; [reflexivity|].
      simpl in Hok, Hcom. apply andb_prop in Hok as [Hc _].
      apply andb_prop in Hc as [Hc _]. apply andb_prop in Hc as [Hc Hs].
      apply negb_true_iff in Hc, Hs. auto.
    - eexists _, _. split; [reflexivity|]. repeat split; reflexivity. }
  destruct Hhead as (x & t & Heq & Hnul & Hsp & Hhash).
  rewrite skip_space_run; [|assumption| |lia].
  2:{ rewrite Heq. exact Hsp. }
  cbn [res_bind wordsplit_loop]. rewrite Heq at 1. cbn [deref res_bind].
  rewrite Hnul, Hhash. cbn [Nat.eqb MAX_WORDS].
  rewrite read_word_trailing_backslash by (assumption || lia).
  reflexivity.
Qed.

Lemma wordsplit_final_backslash_reads_past_terminator_witness :
  wordsplit " ls\" no_words = Fault ReadPastTerminator.
Proof.
  exact (wordsplit_final_backslash_reads_past_terminator
           [Plain "l"; Plain "s"] " " no_words eq_refl eq_refl eq_refl).
Defined.

(** *** The iteration budgets of the tokenizer are never used up *)

Lemma incr_room (c : cptr) : (room (incr c) <= room c - 1)%nat.
Proof.
  destruct c as [[|x t]|]; simpl; try lia. destruct (is_nul x); simpl; lia.
Qed.

Lemma deref_room (c : cptr) (x : ascii) : deref c = Ok x -> (1 <= room c)%nat.
Proof. destruct c as [s|]; simpl; [lia|discriminate]. Qed.

Lemma skip_space_budget (fuel : nat) (c : cptr) :
  (room c < fuel)%nat ->
  within_budget (skip_space fuel c)
    (fun c' => (room c' <= room c)%nat
               /\ forall x, deref c = Ok x -> is_nul x = false -> isspace x = true ->
                            (room c' < room c)%nat).
Proof.
  revert c. induction fuel as [|fuel IH]; intros c Hroom; [lia|].
  cbn [skip_space]. destruct (deref c) as [x|f] eqn:Hd.
  - cbn [res_bind]. pose proof (deref_room c x Hd) as H1. pose proof (incr_room c) as H2.
    destruct (negb (is_nul x) && isspace x)%bool eqn:Hc.
    + specialize (IH (incr c) ltac:(lia)).
      destruct (skip_space fuel (incr c)) as [c'|f]; simpl in *; [|exact IH].
      destruct IH as [IH _]. split; [lia|]. intros; lia.
    + simpl. split; [lia|]. intros x' Hx' Hn Hs. inversion Hx'; subst.
      rewrite Hn, Hs in Hc. discriminate Hc.
  - destruct c as [[|? ?]|]; simpl in Hd; inversion Hd. reflexivity.
Qed.

Lemma read_word_budget (fuel : nat) (c : cptr) (wind : nat) (w : string)
    (ws : list (option string)) :
  (room c < fuel)%nat ->
  within_budget (read_word fuel c wind w ws)
    (fun r => (room (fst r) <= room c)%nat
              /\ forall x, deref c = Ok x -> is_nul x = false ->
                           if isspace x then fst r = c else (room (fst r) < room c)%nat).
Proof.
  revert c w ws. induction fuel as [|fuel IH]; intros c w ws Hroom; [lia|].
  cbn [read_word]. destruct (deref c) as [x|f] eqn:Hd.
  - cbn [res_bind]. pose proof (deref_room c x Hd) as H1. pose proof (incr_room c) as H2.
    destruct (negb (is_nul x) && negb (isspace x))%bool eqn:Hc.
    + set (c1 := if (x =? "\")%char then incr c else c).
      assert (Hc1 : (room c1 <= room c)%nat) by (unfold c1; destruct (x =? "\")%char; lia).
      destruct (deref c1) as [y|f] eqn:Hd1.
      * cbn [res_bind]. pose proof (deref_room c1 y Hd1) as H3.
        pose proof (incr_room c1) as H4.
        specialize (IH (incr c1) (w ++ String y "")
                      (<[wind := Some (w ++ String y "")]> ws) ltac:(lia)).
        destruct (read_word fuel (incr c1) wind (w ++ String y "") _) as [r|f];
          simpl in *; [|exact IH].
        destruct IH as [IH _]. split; [lia|]. intros x' Hx' Hn. inversion Hx'; subst x'.
        apply andb_prop in Hc as [_ Hs]. apply negb_true_iff in Hs. rewrite Hs. lia.
      * destruct c1 as [[|? ?]|]; simpl in Hd1; inversion Hd1. reflexivity.
    + simpl. split; [lia|]. intros x' Hx' Hn. inversion Hx'; subst.
      rewrite Hn in Hc. simpl in Hc. apply negb_false_iff in Hc. rewrite Hc. reflexivity.
  - destruct c as [[|? ?]|]; simpl in Hd; inversion Hd. reflexivity.
Qed.

Lemma wordsplit_loop_budget (fuel : nat) (c : cptr) (wind : nat) (ws : list (option string)) :
  (room c < fuel)%nat ->
  within_budget (wordsplit_loop fuel c wind ws) (fun _ => True).
Proof.
  revert c wind ws. induction fuel as [|fuel IH]; intros c wind ws Hroom; [lia|].
  cbn [wordsplit_loop]. destruct (deref c) as [x|f] eqn:Hd.
  - cbn [res_bind]. destruct (is_nul x) eqn:Hn; [exact I|].
    destruct (Nat.eqb wind MAX_WORDS); [exact I|].
    destruct (x =? "#")%char; [exact I|].
    pose proof (read_word_budget (S fuel) c wind "" ws Hroom) as Hw.
    destruct (read_word (S fuel) c wind "" ws) as [[c1 w]|f]; simpl in Hw; [|exact Hw].
    destruct Hw as [Hle Hlt]. cbn [res_bind]. specialize (Hlt x Hd Hn).
    pose proof (skip_space_budget (S fuel) c1 ltac:(lia)) as Hs.
    destruct (skip_space (S fuel) c1) as [c2|f]; simpl in Hs; [|exact Hs].
    destruct Hs as [Hle2 Hlt2]. cbn [res_bind].
    apply IH.
    destruct (isspace x) eqn:Hsp.
    + subst c1. specialize (Hlt2 x Hd Hn Hsp). lia.
    + lia.
  - destruct c as [[|? ?]|]; simpl in Hd; inversion Hd. reflexivity.
Qed.

(** [wordsplit] ends on every line: with the words, or by reading behind
    the terminator; the budget of its loops is never what stops it. *)
Lemma wordsplit_budget (line : string) (ws : list (option string)) :
  wordsplit line ws <> Fault OutOfFuel.
Proof.
  unfold wordsplit, line_fuel.
  pose proof (skip_space_budget (S (S (String.length line))) (At line) ltac:(simpl; lia)) as Hs.
  destruct (skip_space (S (S (String.length line))) (At line)) as [c|f]; simpl in Hs.
  - cbn [res_bind]. destruct Hs as [Hle _]. simpl in Hle.
    pose proof (wordsplit_loop_budget (S (S (String.length line))) c 0 ws ltac:(lia)) as Hl.
    destruct (wordsplit_loop _ c 0 ws); simpl in Hl; [discriminate|].
    subst. discriminate.
  - subst. discriminate.
Qed.

(** ** Command Parser *)

Lemma size_wrap_small (x : Z) : 0 <= x < size_max -> size_wrap x = x.
Proof. intros H. unfold size_wrap. apply Z.mod_small. exact H. Qed.

Lemma MAX_WORDS_small : Z.of_nat MAX_WORDS + 2 < size_max.
Proof. vm_compute. reflexivity. Qed.

Lemma words_holding_length (ts : list string) :
  (length ts <= MAX_WORDS)%nat -> length (words_holding ts) = MAX_WORDS.
Proof.
  intros H. unfold words_holding.
  rewrite length_app, length_fmap, length_replicate. lia.
Qed.

Lemma words_holding_lookup (ts : list string) (i : nat) (t : string) :
  ts !! i = Some t -> words_holding ts !! i = Some (Some t).
Proof.
  intros H. unfold words_holding.
  rewrite lookup_app_l by (rewrite length_fmap; eapply lookup_lt_Some; exact H).
  rewrite list_lookup_fmap, H. reflexivity.
Qed.

Lemma arr_get_words (ts : list string) (i : nat) (t : string) :
  (length ts <= MAX_WORDS)%nat -> ts !! i = Some t ->
  arr_get (words_holding ts) (Z.of_nat i) = Ok (Some t).
Proof.
  intros Hlen H. unfold arr_get.
  pose proof (lookup_lt_Some _ _ _ H) as Hi.
  rewrite words_holding_length by assumption.
  replace (0 <=? Z.of_nat i) with true by (symmetry; apply Z.leb_le; lia).
  replace (Z.of_nat i <? Z.of_nat MAX_WORDS) with true by (symmetry; apply Z.ltb_lt; lia).
  simpl. rewrite Nat2Z.id, (words_holding_lookup _ _ _ H). reflexivity.
Qed.

Lemma strip_redirects_drop (ts : list string) (i : nat) (t : string) :
  ts !! i = Some t ->
  strip_redirects (drop i ts) =
  if is_redirect t then strip_redirects (drop (S (S i)) ts)
  else t :: strip_redirects (drop (S i) ts).
Proof.
  intros H. rewrite (drop_S _ _ _ H). simpl.
  destruct (is_redirect t); [|reflexivity].
  destruct (drop (S i) ts) as [|u r] eqn:E.
  - assert (Hd : drop (S (S i)) ts = []).
    { apply drop_ge. apply (f_equal length) in E. rewrite length_drop in E.
      simpl in E. lia. }
    rewrite Hd. reflexivity.
  - assert (Hu : ts !! S i = Some u).
    { rewrite <- (Nat.add_0_r (S i)), <- lookup_drop, E. reflexivity. }
    rewrite (drop_S _ _ _ Hu) in E. congruence.
Qed.

Lemma arr_set_filled (acc : list string) (free : nat) (p : option string) :
  arr_set (filled acc (S free)) (Z.of_nat (length acc)) (Some p)
  = Ok ((((fun a => Some (Some a)) <$> acc) ++ Some p :: replicate free None)%list).
Proof.
  unfold arr_set, filled.
  rewrite length_app, length_fmap, length_replicate.
  replace (0 <=? Z.of_nat (length acc)) with true by (symmetry; apply Z.leb_le; lia).
  replace (Z.of_nat (length acc) <? Z.of_nat (length acc + S free)) with true
    by (symmetry; apply Z.ltb_lt; lia).
  simpl. rewrite Nat2Z.id.
  rewrite insert_app_r_alt by (rewrite length_fmap; lia).
  rewrite length_fmap, Nat.sub_diag. reflexivity.
Qed.

Lemma filled_snoc (acc : list string) (t : string) (free : nat) :
  (((fun a => Some (Some a)) <$> acc) ++ Some (Some t) :: replicate free None)%list
  = filled (acc ++ [t])%list free.
Proof. unfold filled. rewrite fmap_app, <- app_assoc. reflexivity. Qed.

(** The copying loop, started at token [i] with [acc] already copied,
    appends the tokens that [strip_redirects] keeps of the rest. *)
Lemma parse_loop_spec (ts : list string) (fuel i : nat) (acc : list string) (free : nat) :
  (length ts <= MAX_WORDS)%nat ->
  (length ts - i < fuel)%nat -> (i <= S (length ts))%nat ->
  (length acc <= i)%nat ->
  (length (strip_redirects (drop i ts)) <= free)%nat ->
  parse_loop fuel (words_holding ts) (Z.of_nat (length ts)) (Z.of_nat i)
    (filled acc free) (Z.of_nat (length acc))
  = Ok (filled (acc ++ strip_redirects (drop i ts))%list
               (free - length (strip_redirects (drop i ts))),
        Z.of_nat (length (acc ++ strip_redirects (drop i ts))%list)).
Proof.
  intros Hmax. revert i acc free.
  induction fuel as [|fuel IH]; intros i acc free Hfuel Hi Hacc Hfree; [lia|].
  pose proof MAX_WORDS_small as Hsmall. unfold MAX_WORDS in *.
  cbn [parse_loop].
  destruct (Z.ltb_spec (Z.of_nat i) (Z.of_nat (length ts))) as [Hlt|Hge].
  - destruct (lookup_lt_is_Some_2 ts i ltac:(lia)) as [t Ht].
    rewrite (arr_get_words ts i t Hmax Ht). cbn [res_bind str_of].
    rewrite (strip_redirects_drop ts i t Ht) in *.
    destruct (is_redirect t) eqn:Hred.
    + rewrite (size_wrap_small (Z.of_nat i + 1)) by lia.
      rewrite size_wrap_small by lia.
      replace (Z.of_nat i + 1 + 1) with (Z.of_nat (S (S i))) by lia.
      apply IH; [lia|lia|lia|assumption].
    + simpl in Hfree. destruct free as [|free]; [lia|].
      rewrite arr_set_filled. cbn [res_bind]. rewrite filled_snoc.
      rewrite (size_wrap_small (Z.of_nat i + 1)) by lia.
      rewrite size_wrap_small by lia.
      replace (Z.of_nat i + 1) with (Z.of_nat (S i)) by lia.
      replace (Z.of_nat (length acc) + 1) with (Z.of_nat (length (acc ++ [t])%list))
        by (rewrite length_app; simpl; lia).
      rewrite IH by (rewrite ?length_app; simpl; lia).
      rewrite <- app_assoc. simpl. reflexivity.
  - rewrite drop_ge by lia. simpl. rewrite app_nil_r, Nat.sub_0_r. reflexivity.
Qed.

Lemma strip_redirects_length_aux (n : nat) :
  forall ts, (length ts <= n)%nat -> (length (strip_redirects ts) <= length ts)%nat.
Proof.
  induction n as [|n IH]; intros [|t [|u r]] H; simpl in *; try lia.
  - destruct (is_redirect t); simpl; lia.
  - destruct (is_redirect t).
    + specialize (IH r ltac:(lia)). lia.
    + specialize (IH (u :: r) ltac:(simpl; lia)). simpl in *. lia.
Qed.

Lemma strip_redirects_length (ts : list string) :
  (length (strip_redirects ts) <= length ts)%nat.
Proof. apply (strip_redirects_length_aux (length ts)). lia. Qed.

(** The copying pass as [main] starts it. *)
Lemma parse_loop_tokens (ts : list string) :
  (length ts <= MAX_WORDS)%nat ->
  parse_loop (S (Z.to_nat (Z.of_nat (length ts)))) (words_holding ts) (Z.of_nat (length ts)) 0
    (fresh_argv (Z.of_nat (length ts))) 0
  = Ok (filled (strip_redirects ts) (S (length ts) - length (strip_redirects ts)),
        Z.of_nat (length (strip_redirects ts))).
Proof.
  intros Hmax.
  pose proof (strip_redirects_length ts) as Hlen.
  pose proof (parse_loop_spec ts (S (length ts)) 0 [] (S (length ts)) Hmax) as H.
  rewrite drop_0 in H. simpl app in H.
  rewrite Nat2Z.id.
  replace (fresh_argv (Z.of_nat (length ts))) with (filled [] (S (length ts))).
  2:{ unfold fresh_argv, filled.
      replace (Z.to_nat (Z.of_nat (length ts) + 1)) with (S (length ts)) by lia.
      reflexivity. }
  apply H; simpl; lia.
Qed.

Lemma filled_length (args : list string) (free : nat) :
  length (filled args free) = (length args + free)%nat.
Proof. unfold filled. rewrite length_app, length_fmap, length_replicate. reflexivity. Qed.

Lemma arr_get_filled_last (init : list string) (a : string) (free : nat) :
  arr_get (filled (init ++ [a])%list free) (Z.of_nat (length init)) = Ok (Some (Some a)).
Proof.
  unfold arr_get. rewrite filled_length, length_app. simpl.
  replace (0 <=? Z.of_nat (length init)) with true by (symmetry; apply Z.leb_le; lia).
  replace (Z.of_nat (length init) <? Z.of_nat (length init + 1 + free)) with true
    by (symmetry; apply Z.ltb_lt; lia).
  simpl. rewrite Nat2Z.id. unfold filled.
  rewrite fmap_app, <- app_assoc.
  rewrite lookup_app_r by (rewrite length_fmap; lia).
  rewrite length_fmap, Nat.sub_diag. reflexivity.
Qed.

Lemma last_snoc_s (init : list string) (a : string) : last (init ++ [a]) = Some a.
Proof. apply last_snoc. Qed.

(** What [parse_command] does on every tokenised line: with no argument
    left after the copying pass it indexes [words_argv] at [-1]; otherwise
    it yields the vector, count and flag the specification describes. *)
Lemma parse_tokens_spec (ts : list string) :
  (length ts <= MAX_WORDS)%nat ->
  parse_tokens ts =
  match strip_redirects ts with
  | [] => Fault IndexOutOfBounds
  | _ :: _ =>
      let args := final_args (strip_redirects ts) in
      Ok (argv_layout args (length ts - length args),
          Z.of_nat (length args),
          if marked_background (strip_redirects ts) then 1 else 0)
  end.
Proof.
  intros Hmax. unfold parse_tokens, parse_command.
  rewrite (parse_loop_tokens ts Hmax). cbn [res_bind].
  pose proof (strip_redirects_length ts) as Hlen.
  pose proof MAX_WORDS_small as Hsmall. unfold MAX_WORDS in *.
  destruct (strip_redirects ts) as [|a0 l0] eqn:E.
  - (* nothing left: words_argc - 1 wraps around *)
    unfold arr_get. rewrite filled_length. simpl length.
    replace (size_wrap (Z.of_nat 0 - 1)) with (size_max - 1) by reflexivity.
    replace (size_max - 1 <? Z.of_nat (0 + (S (length ts) - 0))) with false.
    2:{ symmetry. apply Z.ltb_ge. lia. }
    rewrite andb_false_r. reflexivity.
  - destruct (exists_last (l := a0 :: l0) ltac:(discriminate)) as (init & a & Hsplit).
    rewrite Hsplit in *. clear Hsplit E a0 l0.
    rewrite length_app in *. simpl length in *.
    rewrite size_wrap_small by lia.
    replace (Z.of_nat (length init + 1) - 1) with (Z.of_nat (length init)) by lia.
    rewrite arr_get_filled_last. cbn [res_bind cell_val str_of].
    assert (Hshape : exists x l, (init ++ [a])%list = x :: l).
    { destruct init; simpl; eauto. }
    destruct Hshape as (x & l & Hshape). rewrite Hshape. rewrite <- Hshape. clear Hshape x l.
    unfold final_args, marked_background. rewrite last_snoc_s.
    destruct (streq a "&") eqn:Hamp.
    + rewrite removelast_last.
      unfold arr_set. rewrite filled_length, length_app. simpl length.
      replace (0 <=? Z.of_nat (length init)) with true by (symmetry; apply Z.leb_le; lia).
      replace (Z.of_nat (length init) <? _) with true by (symmetry; apply Z.ltb_lt; lia).
      cbn [andb res_bind]. rewrite Nat2Z.id. unfold filled, argv_layout.
      rewrite fmap_app, <- app_assoc.
      rewrite insert_app_r_alt by (rewrite length_fmap; lia).
      rewrite length_fmap, Nat.sub_diag. simpl.
      replace (S (length ts) - (length init + 1))%nat with (length ts - length init)%nat by lia.
      reflexivity.
    + rewrite length_app. simpl length.
      replace (S (length ts) - (length init + 1))%nat
        with (S (length ts - (length init + 1)))%nat by lia.
      replace (Z.of_nat (length init + 1)) with (Z.of_nat (length (init ++ [a])%list))
        by (rewrite length_app; simpl; lia).
      rewrite arr_set_filled. cbn [res_bind]. unfold argv_layout.
      rewrite length_app. simpl length. reflexivity.
Qed.

(** C5 (holds except where the code faults): for a tokenised line,
    [parse_command] leaves out every redirection operator with the token
    after it; when an argument remains, the flag is 1 exactly when the last
    remaining argument is [&], which is then removed, the flag is 0
    otherwise, and the vector ends in NULL.  When no argument remains the
    function reads [words_argv[words_argc - 1]] with [words_argc = 0],
    outside the array, instead of clearing the flag and terminating the
    empty vector. *)
Theorem parse_command_vector_or_fault (ts : list string) :
  (length ts <= MAX_WORDS)%nat ->
  (strip_redirects ts <> [] ->
   parse_tokens ts =
   Ok (argv_layout (final_args (strip_redirects ts))
         (length ts - length (final_args (strip_redirects ts))),
       Z.of_nat (length (final_args (strip_redirects ts))),
       if marked_background (strip_redirects ts) then 1 else 0))
  /\ (strip_redirects ts = [] -> parse_tokens ts = Fault IndexOutOfBounds).
Proof.
  intros Hmax. rewrite (parse_tokens_spec ts Hmax).
  destruct (strip_redirects ts) as [|a l]; split; intros H; congruence.
Qed.

Lemma parse_command_vector_or_fault_witness :
  parse_tokens ["sort"; "<"; "in"; "-r"; "&"]
  = Ok ([Some (Some "sort"); Some (Some "-r"); Some None; None; None; None], 2, 1)
  /\ parse_tokens ["<"; "file"] = Fault IndexOutOfBounds.
Proof.
  split.
  - apply (parse_command_vector_or_fault ["sort"; "<"; "in"; "-r"; "&"]).
    + unfold MAX_WORDS. simpl. lia.
    + discriminate.
  - apply (parse_command_vector_or_fault ["<"; "file"]).
    + unfold MAX_WORDS. simpl. lia.
    + reflexivity.
Defined.

Lemma execute_cmds_null_command (os : os_answers) (unwritten : nat) (argc : Z) (s : shell) :
  execute_cmds os (argv_layout [] unwritten) argc s = Crashes NullDereference.
Proof. reflexivity. Qed.

(** C9 (fails on the code): a line whose tokens are all redirection
    operators and their targets leaves the argument vector empty, and
    [parse_command] then tests the cell in front of the vector for the
    background marker; a line that leaves only [&] makes the vector empty
    after the marker is removed, and the dispatch in [execute_cmds] hands
    the NULL in [words_argv[0]] to [strcmp]. *)
Theorem empty_argument_vector_unsafe (ts : list string) (os : os_answers) (s : shell) :
  (length ts <= MAX_WORDS)%nat ->
  (strip_redirects ts = [] -> parse_tokens ts = Fault IndexOutOfBounds)
  /\ (strip_redirects ts = ["&"] ->
      exists words_argv,
        parse_tokens ts = Ok (words_argv, 0, 1)
        /\ execute_cmds os words_argv 0 s = Crashes NullDereference).
Proof.
  intros Hmax. rewrite (parse_tokens_spec ts Hmax). split; intros H; rewrite H.
  - reflexivity.
  - eexists. split; [reflexivity|]. apply execute_cmds_null_command.
Qed.

Lemma empty_argument_vector_unsafe_witness :
  parse_tokens ["<"; "file"] = Fault IndexOutOfBounds
  /\ exists words_argv,
       parse_tokens [">"; "log"; "&"] = Ok (words_argv, 0, 1)
       /\ execute_cmds no_answers words_argv 0 sample_shell = Crashes NullDereference.
Proof.
  split.
  - apply (empty_argument_vector_unsafe ["<"; "file"] no_answers sample_shell).
    + unfold MAX_WORDS. simpl. lia.
    + reflexivity.
  - apply (empty_argument_vector_unsafe [">"; "log"; "&"] no_answers sample_shell).
    + unfold MAX_WORDS. simpl. lia.
    + reflexivity.
Defined.

(** ** Job Executor *)

(** A property of status words checked on every value of a range. *)
Lemma check_range (P : Z -> bool) (n : Z) :
  forallb P (seqZ 0 n) = true -> forall z, 0 <= z < n -> P z = true.
Proof.
  intros H z Hz. rewrite forallb_forall in H. apply H.
  apply list_elem_of_In, elem_of_seqZ. lia.
Qed.

Lemma exit_status_decoded (N : Z) :
  0 <= N <= 255 ->
  WIFSIGNALED (W_EXITCODE N 0) = false /\ WIFSTOPPED (W_EXITCODE N 0) = false
  /\ WIFEXITED (W_EXITCODE N 0) = true /\ WEXITSTATUS (W_EXITCODE N 0) = N.
Proof.
  intros H.
  pose proof (check_range
    (fun n => negb (WIFSIGNALED (W_EXITCODE n 0)) && negb (WIFSTOPPED (W_EXITCODE n 0))
              && WIFEXITED (W_EXITCODE n 0) && (WEXITSTATUS (W_EXITCODE n 0) =? n))
    256 ltac:(vm_compute; reflexivity) N ltac:(lia)) as Hc.
  simpl in Hc.
  apply andb_prop in Hc as [Hc H4]. apply andb_prop in Hc as [Hc H3].
  apply andb_prop in Hc as [H1 H2].
  apply negb_true_iff in H1, H2. apply Z.eqb_eq in H4. auto.
Qed.

Lemma term_status_decoded (S : Z) (core : bool) :
  1 <= S < 127 ->
  WIFSIGNALED (W_TERMSIG_CODE S core) = true /\ WTERMSIG (W_TERMSIG_CODE S core) = S.
Proof.
  intros H.
  pose proof (check_range
    (fun n => (n =? 0) || (WIFSIGNALED (W_TERMSIG_CODE n core)
                            && (WTERMSIG (W_TERMSIG_CODE n core) =? n)))
    127 ltac:(destruct core; vm_compute; reflexivity) S ltac:(lia)) as Hc.
  simpl in Hc. apply orb_prop in Hc as [Hc|Hc].
  - apply Z.eqb_eq in Hc. lia.
  - apply andb_prop in Hc as [H1 H2]. apply Z.eqb_eq in H2. auto.
Qed.

Lemma expand_status_parameter (env : gmap string string) (v : string) :
  env !! "?" = Some v -> expanded env "$?" = Ok (Some v).
Proof.
  intros H. unfold expanded, expand, param_scan. simpl.
  unfold getenv. rewrite H. simpl. rewrite str_take_all, app_empty_r. reflexivity.
Qed.

(** With a positive answer of [fork] the caller is the parent. *)
Lemma execute_in_parent (os : os_answers) (words_argv : list (option (option string)))
    (s : shell) :
  0 < fork_ret os ->
  execute_nonbuiltin_cmds os words_argv s
  = parent_branch os (fork_ret os) (set_calls (calls s ++ [Sys_fork (fork_ret os)]) s).
Proof.
  intros Hpid. unfold execute_nonbuiltin_cmds. cbv zeta. unfold bind at 1.
  cbn [sys modify].
  replace (fork_ret os =? -1) with false by (symmetry; apply Z.eqb_neq; lia).
  replace (fork_ret os =? 0) with false by (symmetry; apply Z.eqb_neq; lia).
  reflexivity.
Qed.

(** C3: a foreground command (background flag clear) whose wait reports a
    normal exit with code [N], [0 <= N <= 255], leaves the decimal string
    of [N] in the parameter [?]; one whose wait reports death by signal
    [S] leaves the decimal string of [128 + S]; a later [$?] expands to
    that string. *)
Theorem foreground_status_recorded
    (os : os_answers) (words_argv : list (option (option string))) (s : shell) :
  bg_flag s = 0 -> 0 < fork_ret os ->
  (forall N, 0 <= N <= 255 -> wait_status os = Some (W_EXITCODE N 0) ->
     exists s', execute_nonbuiltin_cmds os words_argv s = Returns tt s'
                /\ environ s' = <["?" := sprintf_d N]> (environ s)
                /\ expanded (environ s') "$?" = Ok (Some (sprintf_d N)))
  /\ (forall S core, 1 <= S < 127 -> wait_status os = Some (W_TERMSIG_CODE S core) ->
     exists s', execute_nonbuiltin_cmds os words_argv s = Returns tt s'
                /\ environ s' = <["?" := sprintf_d (128 + S)]> (environ s)
                /\ expanded (environ s') "$?" = Ok (Some (sprintf_d (128 + S)))).
Proof.
  intros Hbg Hpid.
  split.
  - intros N HN Hst.
    destruct (exit_status_decoded N HN) as (Hsig & Hstop & Hex & Hcode).
    eexists. split; [|split].
    + rewrite (execute_in_parent os words_argv s Hpid).
      unfold parent_branch, bind, sys, modify, gets, lift, setenv. simpl.
      rewrite Hbg. simpl. rewrite Hst. simpl.
      rewrite Hsig, Hstop, Hex, Hcode. reflexivity.
    + reflexivity.
    + apply expand_status_parameter. simpl. apply lookup_insert_eq.
  - intros S core HS Hst.
    destruct (term_status_decoded S core HS) as (Hsig & Hterm).
    eexists. split; [|split].
    + rewrite (execute_in_parent os words_argv s Hpid).
      unfold parent_branch, bind, sys, modify, gets, lift, setenv. simpl.
      rewrite Hbg. simpl. rewrite Hst. simpl.
      rewrite Hsig, Hterm. reflexivity.
    + reflexivity.
    + apply expand_status_parameter. simpl. apply lookup_insert_eq.
Qed.

(** C4: for a command launched with the background flag set, the parent
    makes one status check, with [WNOHANG], records the child's process id
    in the parameter [!], and changes nothing else: in particular [?] keeps
    its value and no blocking wait is made. *)
Theorem background_launch_effects
    (os : os_answers) (words_argv : list (option (option string))) (s : shell) :
  bg_flag s <> 0 -> 0 < fork_ret os ->
  exists s',
    execute_nonbuiltin_cmds os words_argv s = Returns tt s'
    /\ calls s' = (calls s ++ [Sys_fork (fork_ret os); Sys_waitpid (fork_ret os) true true])%list
    /\ environ s' = <["!" := sprintf_d (fork_ret os)]> (environ s)
    /\ environ s' !! "?" = environ s !! "?"
    /\ same_but_environ_calls s s'.
Proof.
  intros Hbg Hpid.
  assert (Hb : (bg_flag s =? 0) = false) by (apply Z.eqb_neq; assumption).
  eexists. split; [|split; [|split; [|split]]].
  - rewrite (execute_in_parent os words_argv s Hpid).
    unfold parent_branch, bind, sys, modify, gets, setenv. simpl.
    rewrite Hb. simpl. reflexivity.
  - simpl. rewrite <- app_assoc. reflexivity.
  - reflexivity.
  - simpl. apply lookup_insert_ne. discriminate.
  - repeat split.
Qed.

Lemma foreground_status_recorded_witness :
  exists s',
    execute_nonbuiltin_cmds (answers_for 5000 (Some (W_EXITCODE 7 0))) [] sample_shell
    = Returns tt s'
    /\ environ s' = <["?" := "7"]> (environ sample_shell)
    /\ expanded (environ s') "$?" = Ok (Some "7").
Proof.
  exact (proj1 (foreground_status_recorded
                  (answers_for 5000 (Some (W_EXITCODE 7 0))) [] sample_shell
                  eq_refl eq_refl)
               7 ltac:(lia) eq_refl).
Defined.

Lemma background_launch_effects_witness :
  exists s',
    execute_nonbuiltin_cmds (answers_for 5000 None) [] (set_bg_flag 1 sample_shell)
    = Returns tt s'
    /\ calls s' = [Sys_fork 5000; Sys_waitpid 5000 true true]
    /\ environ s' = <["!" := "5000"]> (environ sample_shell)
    /\ environ s' !! "?" = Some "0"
    /\ same_but_environ_calls (set_bg_flag 1 sample_shell) s'.
Proof.
  exact (background_launch_effects (answers_for 5000 None) [] (set_bg_flag 1 sample_shell)
           ltac:(discriminate) eq_refl).
Defined.

(** ** Built-in [exit] *)

(** Every path through [builtin_exit] ends in [exit()]: the function does
    not return to the interpreter loop. *)
Lemma builtin_exit_never_returns (argv : list (option (option string))) (argc : Z) (s : shell) :
  forall a s', builtin_exit argv argc s <> Returns a s'.
Proof.
  intros a s'. unfold builtin_exit, bind, arg_at, lift, gets, exit_, setenv, eprint, modify, ret.
  destruct (argc >? 2); simpl.
  - destruct (argc =? 2); simpl.
    + destruct (arr_get argv 1) as [[p|]|]; simpl; try discriminate.
      destruct (str_of p) as [t|]; simpl; try discriminate.
      destruct (strtol t) as [v e]. destruct (negb (streq e "")); discriminate.
    + discriminate.
  - destruct (argc =? 2); simpl.
    + destruct (arr_get argv 1) as [[p|]|]; simpl; try discriminate.
      destruct (str_of p) as [t|]; simpl; try discriminate.
      destruct (strtol t) as [v e]. destruct (negb (streq e "")); discriminate.
    + discriminate.
Qed.

(** C1 (fails on the code): called with more than one argument, or with
    one argument that is not an integer, [builtin_exit] reports the error
    and sets [?] to 1, and then ends the interpreter all the same: with
    status 1 in the first case, with the value of the leading digits of
    the argument in the second. *)
Theorem builtin_exit_error_still_exits
    (argv : list (option (option string))) (argc : Z) (s : shell) :
  (2 < argc ->
   exists s', builtin_exit argv argc s = Exits 1 s'
              /\ diag s' = (diag s ++ ["smallsh: exit: too many arguments"])%list
              /\ environ s' = <["?" := "1"]> (environ s))
  /\ (forall a, argc = 2 -> arr_get argv 1 = Ok (Some (Some a)) -> snd (strtol a) <> "" ->
      exists s', builtin_exit argv argc s = Exits (int_of_long (fst (strtol a))) s'
                 /\ diag s' = (diag s ++ [("smallsh: exit: " ++ a ++ ": integer argument required")%string])%list
                 /\ environ s' = <["?" := "1"]> (environ s)).
Proof.
  split.
  - intros H.
    assert (H2 : (argc >? 2) = true) by (apply Z.gtb_lt; lia).
    assert (H3 : (argc =? 2) = false) by (apply Z.eqb_neq; lia).
    eexists. split; [|split].
    + unfold builtin_exit, bind, gets, exit_, setenv, eprint, modify, ret.
      rewrite H2, H3. simpl. unfold getenv. rewrite lookup_insert_eq. reflexivity.
    + reflexivity.
    + reflexivity.
  - intros a -> Harg Hend.
    assert (Hne : negb (streq (snd (strtol a)) "") = true).
    { apply negb_true_iff. apply String.eqb_neq. exact Hend. }
    eexists. split; [|split].
    + unfold builtin_exit, bind, arg_at, lift, gets, exit_, setenv, eprint, modify, ret.
      simpl. rewrite Harg. simpl.
      destruct (strtol a) as [v e]. simpl in *. rewrite Hne. reflexivity.
    + reflexivity.
    + reflexivity.
Qed.

Lemma builtin_exit_error_still_exits_witness :
  (exists s', builtin_exit [Some (Some "exit"); Some (Some "1"); Some (Some "2"); Some None] 3
                sample_shell = Exits 1 s'
              /\ diag s' = ["smallsh: exit: too many arguments"]
              /\ environ s' = <["?" := "1"]> (environ sample_shell))
  /\ (exists s', builtin_exit [Some (Some "exit"); Some (Some "12abc"); Some None] 2
                   sample_shell = Exits 12 s'
                 /\ diag s' = ["smallsh: exit: 12abc: integer argument required"]
                 /\ environ s' = <["?" := "1"]> (environ sample_shell)).
Proof.
  split.
  - exact (proj1 (builtin_exit_error_still_exits
                    [Some (Some "exit"); Some (Some "1"); Some (Some "2"); Some None] 3
                    sample_shell) eq_refl).
  - exact (proj2 (builtin_exit_error_still_exits
                    [Some (Some "exit"); Some (Some "12abc"); Some None] 2 sample_shell)
                 "12abc" eq_refl eq_refl ltac:(discriminate)).
Defined.

(** The interpreter on the two failing lines: it ends at [exit], and the
    line that follows is never run. *)
Example exit_too_many_arguments_ends_interpreter :
  exists s, main 1 true [reads ("exit 1 2" ++ nl) no_answers;
                         reads ("echo next" ++ nl) (answers_for 5000 (Some 0))] sample_shell
            = Exits 1 s
            /\ calls s = [Sys_waitpid (-1) true true].
Proof. eexists. split; vm_compute; reflexivity. Qed.

Example exit_non_integer_ends_interpreter :
  exists s, main 1 true [reads ("exit abc" ++ nl) no_answers;
                         reads ("echo next" ++ nl) (answers_for 5000 (Some 0))] sample_shell
            = Exits 0 s
            /\ environ s !! "?" = Some "1".
Proof. eexists. split; vm_compute; reflexivity. Qed.

(** The sibling built-in returns to the loop after the same kind of error. *)
Example cd_too_many_arguments_continues :
  exists s, main 1 true [reads ("cd a b" ++ nl) no_answers;
                         reads ("exit" ++ nl) no_answers] sample_shell
            = Exits 1 s
            /\ diag s = [""; "smallsh: cd: too many arguments"; ""].
Proof. eexists. split; vm_compute; reflexivity. Qed.

(** ** Signal Controller *)

(** In the first pass through the loop the child gets back the
    dispositions the interpreter was started with. *)
Lemma first_pass_child_restores_dispositions (i t : sigaction) :
  exists x s,
    main 1 true [reads ("sleep 5" ++ nl) (answers_for 0 None)]
      (fresh_shell demo_env 4242 4242 i t) = Execs x s
    /\ disp_int s = i /\ disp_tstp s = t.
Proof. eexists _, _. split; [vm_compute; reflexivity|]. split; reflexivity. Qed.

(** C2 (fails on the code): from the second pass through the loop on, the
    child does not get back the dispositions the interpreter was started
    with.  [SIGTSTP_setup] and [SIGINT_setup] run again at the head of
    every pass and store in [SIGTSTP_default] and [SIGINT_default] the
    dispositions then in force, which are the interpreter's own "ignore";
    the child installs those.  Whatever the dispositions [i] and [t] at
    start, the child of the second command runs with both signals
    ignored. *)
Theorem second_pass_child_keeps_signals_ignored (i t : sigaction) :
  exists x s,
    main 1 true [reads ("true" ++ nl) (answers_for 5000 (Some (W_EXITCODE 0 0)));
                 reads ("sleep 5" ++ nl) (answers_for 0 None)]
      (fresh_shell demo_env 4242 4242 i t) = Execs x s
    /\ x_prog x = "sleep"
    /\ disp_int s = ignored /\ disp_tstp s = ignored
    /\ SIGINT_default s = ignored /\ SIGTSTP_default s = ignored.
Proof. eexists _, _. split; [vm_compute; reflexivity|]. repeat split; reflexivity. Qed.

(** ** Background Reaper *)

Lemma keeps_ret {A} (a : A) : keeps_group (ret a).
Proof. intros s. simpl. auto. Qed.

Lemma keeps_bind {A B} (m : M A) (k : A -> M B) :
  keeps_group m -> (forall a, keeps_group (k a)) -> keeps_group (bind m k).
Proof.
  intros Hm Hk s. unfold bind. specialize (Hm s).
  destruct (m s) as [a s1| | |]; try exact I.
  specialize (Hk a s1). destruct (k a s1); try exact I.
  destruct Hm as [E1 E2], Hk as [E3 E4]. split; congruence.
Qed.

Lemma keeps_gets {A} (f : shell -> A) : keeps_group (gets f).
Proof. intros s. simpl. auto. Qed.

Lemma keeps_exit {A} (st : Z) : keeps_group (@exit_ A st).
Proof. intros s. exact I. Qed.

Lemma keeps_lift {A} (r : res A) : keeps_group (lift r).
Proof. intros s. unfold lift. destruct r; simpl; auto. Qed.

Lemma keeps_read {A} (f : shell -> res A) : keeps_group (fun s => lift (f s) s).
Proof. intros s. unfold lift. destruct (f s); simpl; auto. Qed.

Lemma keeps_crash {A} (f : fault) : keeps_group (fun _ => @Crashes A f).
Proof. intros s. exact I. Qed.

Lemma keeps_execs {A} (x : exec_request) : keeps_group (fun s => @Execs A x s).
Proof. intros s. exact I. Qed.

Lemma keeps_modify (f : shell -> shell) :
  (forall s, pgrp (f s) = pgrp s /\ ppgid (f s) = ppgid s) -> keeps_group (modify f).
Proof. intros H s. simpl. apply H. Qed.

Lemma keeps_setenv (n v : string) : keeps_group (setenv n v).
Proof. apply keeps_modify. intros s. split; reflexivity. Qed.

Lemma keeps_eprint (msg : string) : keeps_group (eprint msg).
Proof. apply keeps_modify. intros s. split; reflexivity. Qed.

Lemma keeps_sys (c : syscall) : keeps_group (sys c).
Proof. apply keeps_modify. intros s. split; reflexivity. Qed.

Lemma keeps_sigaction (sig : signal) (act : option sigaction) :
  keeps_group (sys_sigaction sig act).
Proof. intros s. destruct sig, act; simpl; auto. Qed.

Create HintDb keeps.
#[local] Hint Resolve keeps_ret keeps_gets keeps_exit keeps_lift keeps_read keeps_crash
  keeps_execs keeps_setenv keeps_eprint keeps_sys keeps_sigaction : keeps.

(** Splits a computation along its binds, conditionals and matches. *)
Ltac keeps_split :=
  repeat first
    [ progress auto with keeps
    | apply keeps_bind; [|intros ?]
    | apply keeps_modify; intros ?; split; reflexivity
    | match goal with
      | |- keeps_group (if ?b then _ else _) => destruct b
      | |- keeps_group (match ?x with _ => _ end) => destruct x
      | |- keeps_group (let '(_, _) := ?x in _) => destruct x
      end ].

Lemma keeps_err1 {A} (msg : string) : keeps_group (@err1 A msg).
Proof. unfold err1. keeps_split. Qed.
#[local] Hint Resolve keeps_err1 : keeps.

Lemma keeps_SIGTSTP_setup : keeps_group SIGTSTP_setup.
Proof. unfold SIGTSTP_setup. keeps_split. Qed.

Lemma keeps_SIGINT_setup : keeps_group SIGINT_setup.
Proof. unfold SIGINT_setup. keeps_split. Qed.

Lemma keeps_ignore_SIGINT : keeps_group ignore_SIGINT.
Proof. unfold ignore_SIGINT. keeps_split. Qed.

Lemma keeps_print_prompt : keeps_group print_prompt.
Proof. unfold print_prompt. keeps_split. Qed.

Lemma keeps_arg_at argv i : keeps_group (arg_at argv i).
Proof. unfold arg_at. keeps_split. Qed.
#[local] Hint Resolve keeps_SIGTSTP_setup keeps_SIGINT_setup keeps_ignore_SIGINT
  keeps_print_prompt keeps_arg_at : keeps.

Lemma keeps_builtin_cd os argv argc : keeps_group (builtin_cd os argv argc).
Proof. unfold builtin_cd. keeps_split. Qed.

Lemma keeps_builtin_exit argv argc : keeps_group (builtin_exit argv argc).
Proof. unfold builtin_exit. keeps_split. Qed.

Lemma keeps_redirect os i mode msg : keeps_group (redirect os i mode msg).
Proof. unfold redirect. keeps_split. Qed.
#[local] Hint Resolve keeps_builtin_cd keeps_builtin_exit keeps_redirect : keeps.

Lemma keeps_redirect_loop fuel os i : keeps_group (redirect_loop fuel os i).
Proof.
  revert i. induction fuel as [|fuel IH]; intros i; simpl; [auto with keeps|].
  keeps_split; try apply IH.
Qed.
#[local] Hint Resolve keeps_redirect_loop : keeps.

Lemma keeps_child_branch os argv : keeps_group (child_branch os argv).
Proof. unfold child_branch. keeps_split. Qed.

Lemma keeps_parent_branch os pid : keeps_group (parent_branch os pid).
Proof. unfold parent_branch. keeps_split. Qed.
#[local] Hint Resolve keeps_child_branch keeps_parent_branch : keeps.

Lemma keeps_execute_nonbuiltin_cmds os argv : keeps_group (execute_nonbuiltin_cmds os argv).
Proof. unfold execute_nonbuiltin_cmds. keeps_split. Qed.
#[local] Hint Resolve keeps_execute_nonbuiltin_cmds : keeps.

Lemma keeps_execute_cmds os argv argc : keeps_group (execute_cmds os argv argc).
Proof. unfold execute_cmds. keeps_split. Qed.

Lemma keeps_expand_words fuel i n : keeps_group (expand_words fuel i n).
Proof.
  revert i. induction fuel as [|fuel IH]; intros i; simpl; [auto with keeps|].
  keeps_split; try apply IH.
Qed.

Lemma keeps_clear_words fuel i n : keeps_group (clear_words fuel i n).
Proof.
  revert i. induction fuel as [|fuel IH]; intros i; simpl; [auto with keeps|].
  keeps_split; try apply IH.
Qed.

Lemma keeps_report_child r : keeps_group (report_child r).
Proof. unfold report_child. keeps_split. Qed.
#[local] Hint Resolve keeps_execute_cmds keeps_expand_words keeps_clear_words
  keeps_report_child : keeps.

Lemma keeps_group_unchanged {A} (m : M A) (s : shell) (a : A) (s' : shell) :
  keeps_group m -> group_unchanged s -> m s = Returns a s' -> group_unchanged s'.
Proof.
  intros Hm Hs E. specialize (Hm s). rewrite E in Hm.
  destruct Hm as [E1 E2]. unfold group_unchanged in *. congruence.
Qed.

(** Under that invariant the sweep as written and the unconditional sweep
    are the same computation. *)
Lemma bg_handler_unconditional_eq (answers : list reaped) (s : shell) :
  group_unchanged s -> bg_handler answers s = bg_handler_unconditional answers s.
Proof.
  revert s. induction answers as [|r rest IH]; intros s Hs; [reflexivity|].
  cbn [bg_handler bg_handler_unconditional]. cbv [bind gets sys modify]. simpl.
  destruct (r_pid r >? 0); [|reflexivity].
  cbn [pgrp ppgid set_calls].
  replace (pgrp s =? ppgid s) with true by (symmetry; apply Z.eqb_eq; exact Hs).
  destruct (report_child r (set_calls (calls s ++ [Sys_waitpid (-1) true true]) s))
    as [a s1| | |] eqn:E; try reflexivity.
  apply IH.
  eapply (keeps_group_unchanged (report_child r)); [apply keeps_report_child| |exact E].
  exact Hs.
Qed.

Lemma keeps_bg_handler answers : keeps_group (bg_handler answers).
Proof.
  induction answers as [|r rest IH]; simpl; keeps_split; try apply IH.
Qed.

Section Passes.

Variable argc : Z.
Variable fopen_ok : bool.

(** [startup] stores the process group in [ppgid]. *)
Lemma startup_group_unchanged (s s' : shell) (a : unit) :
  startup argc fopen_ok s = Returns a s' -> group_unchanged s'.
Proof.
  unfold startup, bind, err1, bind, eprint, exit_, gets, setenv, modify, ret.
  destruct (argc =? 2); [destruct fopen_ok|destruct (argc >? 2)]; simpl;
    intros E; try discriminate; inversion E; reflexivity.
Qed.

Lemma keeps_after_sweep it b : keeps_group (after_sweep argc it b).
Proof.
  unfold after_sweep. keeps_split.
Qed.

Lemma before_sweep_group_unchanged (e : entry) (s s' : shell) (a : unit) :
  e = At_smallsh \/ group_unchanged s ->
  before_sweep argc fopen_ok e s = Returns a s' -> group_unchanged s'.
Proof.
  intros He. unfold before_sweep.
  assert (Hsetup : keeps_group (let! _ := SIGTSTP_setup in SIGINT_setup)) by keeps_split.
  destruct e.
  - unfold bind at 1.
    destruct (startup argc fopen_ok s) as [u s1| | |] eqn:E; try discriminate.
    intros E2. eapply (keeps_group_unchanged _ s1); [exact Hsetup| |exact E2].
    eapply startup_group_unchanged. exact E.
  - destruct He as [He|He]; [discriminate|].
    unfold bind at 1. simpl.
    intros E2. eapply (keeps_group_unchanged _ s); [exact Hsetup|exact He|exact E2].
  - destruct He as [He|He]; [discriminate|].
    unfold bind, ret. intros E. inversion E. subst. exact He.
Qed.

(** One pass with either sweep: the same outcome, and the invariant
    holds again when the pass returns. *)
Lemma pass_unconditional_eq (e : entry) (it : iteration) (s : shell) :
  e = At_smallsh \/ group_unchanged s ->
  pass bg_handler argc fopen_ok e it s
  = pass bg_handler_unconditional argc fopen_ok e it s
  /\ forall e' s', pass bg_handler argc fopen_ok e it s = Returns e' s' ->
                   group_unchanged s'.
Proof.
  intros He. unfold pass. unfold bind at 1 3 5.
  destruct (before_sweep argc fopen_ok e s) as [u s1| | |] eqn:E;
    try (split; [reflexivity|intros; discriminate]).
  pose proof (before_sweep_group_unchanged e s s1 u He E) as H1.
  unfold bind. rewrite <- (bg_handler_unconditional_eq _ s1 H1).
  split; [reflexivity|].
  destruct (bg_handler (it_reaped it) s1) as [b s2| | |] eqn:E2; try discriminate.
  intros e' s' E3.
  eapply (keeps_group_unchanged (after_sweep argc it b) s2); [apply keeps_after_sweep| |exact E3].
  eapply (keeps_group_unchanged (bg_handler (it_reaped it)) s1);
    [apply keeps_bg_handler|exact H1|exact E2].
Qed.

Lemma main_from_unconditional_eq (its : list iteration) (e : entry) (s : shell) :
  e = At_smallsh \/ group_unchanged s ->
  main_from bg_handler argc fopen_ok e its s
  = main_from bg_handler_unconditional argc fopen_ok e its s.
Proof.
  revert e s. induction its as [|it rest IH]; intros e s He.
  - simpl. unfold bind.
    destruct (pass_unconditional_eq e
                {| it_reaped := []; it_read := Eof; it_os := no_answers |} s He) as [<- _].
    reflexivity.
  - simpl. unfold bind.
    destruct (pass_unconditional_eq e it s He) as [<- Hinv].
    destruct (pass bg_handler argc fopen_ok e it s) as [e' s'| | |] eqn:E; try reflexivity.
    apply IH. right. eapply Hinv. reflexivity.
Qed.

End Passes.

(** C8: the process group of the interpreter is never reassigned, so at
    every sweep the guard [pgid == ppgid] compares equal numbers, and the
    interpreter with the sweep as written behaves, on every input and from
    every starting state, exactly as the interpreter whose sweep reports
    exits and signals and continues stopped children without the guard. *)
Theorem guarded_sweep_equals_unconditional
    (argc : Z) (fopen_ok : bool) (its : list iteration) (s : shell) :
  main argc fopen_ok its s
  = main_from bg_handler_unconditional argc fopen_ok At_smallsh its s.
Proof.
  unfold main. apply main_from_unconditional_eq. left. reflexivity.
Qed.

(** The guard is not idle in the code: were the saved number to differ,
    the sweep as written would reap in silence. *)
Example guard_decides_report :
  let s := set_ppgid 1 sample_shell in
  let r := {| r_pid := 5000; r_status := W_EXITCODE 3 0; r_kill := 0 |} in
  (exists s', bg_handler [r] s = Returns 0 s' /\ diag s' = [])
  /\ (exists s', bg_handler_unconditional [r] s = Returns 0 s'
                 /\ diag s' = ["Child process 5000 done. Exit status 3."]).
Proof. split; eexists; split; vm_compute; reflexivity. Qed.

Example sweep_reports_and_continues :
  exists s',
    main 1 true
      [{| it_reaped := [{| r_pid := 5000; r_status := W_EXITCODE 3 0; r_kill := 0 |};
                        {| r_pid := 5001; r_status := W_TERMSIG_CODE 9 false; r_kill := 0 |};
                        {| r_pid := 5002; r_status := W_STOPCODE 20; r_kill := 0 |}];
          it_read := Eof; it_os := no_answers |}] sample_shell = Exits 0 s'
    /\ diag s' = ["Child process 5000 done. Exit status 3.";
                  "Child process 5001 done. Signaled 9.";
                  "Child process 5002 stopped. Continuing."; ""]
    /\ calls s' = [Sys_waitpid (-1) true true; Sys_waitpid (-1) true true;
                   Sys_waitpid (-1) true true; Sys_kill_cont 5002;
                   Sys_waitpid (-1) true true].
Proof. eexists. split; [|split]; vm_compute; reflexivity. Qed.

(** ** Expander *)

Lemma strchr_first (s : string) (ch : ascii) (s1 : string) :
  strchr s ch = Some s1 ->
  exists u t, s = u ++ s1 /\ s1 = String ch t /\ strchr u ch = None.
Proof.
  induction s as [|x s IH]; simpl; [discriminate|].
  destruct (Ascii.eqb_spec x ch) as [->|Hne]; intros H.
  - inversion H; subst. exists "", s. auto.
  - destruct (IH H) as (u & t & -> & -> & Hu).
    exists (String x u), t. repeat split. simpl.
    destruct (Ascii.eqb_spec x ch); [contradiction|exact Hu].
Qed.

Lemma strchr_app (a b : string) (ch : ascii) :
  strchr (a ++ b) ch =
  match strchr a ch with
  | Some s => Some (s ++ b)
  | None => strchr b ch
  end.
Proof.
  induction a as [|x a IH]; [reflexivity|].
  rewrite app_cons. simpl. destruct (x =? ch)%char; [reflexivity|exact IH].
Qed.

(** [param_scan]'s loop, given fuel for the length of the text, returns
    the first reference. *)
Lemma param_scan_loop_first_ref (s : string) :
  forall fuel, (String.length s < fuel)%nat -> param_scan_loop fuel s = Ok (first_ref s).
Proof.
  induction s as [|x t IH]; intros fuel Hfuel.
  - destruct fuel; [simpl in Hfuel; lia|reflexivity].
  - destruct fuel as [|fuel]; [simpl in Hfuel; lia|].
    simpl in Hfuel.
    cbn [param_scan_loop first_ref strchr].
    destruct (x =? "$")%char eqn:Hx.
    + destruct (is_special (char1 (String x t))); [reflexivity|].
      destruct (char1 (String x t) =? "{")%char.
      * destruct (strchr (str_drop 2 (String x t)) "}"); [reflexivity|].
        apply IH. lia.
      * apply IH. lia.
    + rewrite <- (IH (S fuel)) by lia.
      destruct t as [|y t']; [reflexivity|].
      cbn [param_scan_loop]. reflexivity.
Qed.

Lemma param_scan_first_ref (prev : option string) (w : string) :
  param_scan prev (Some w) =
  Ok (first_ref w, snd (first_ref w)).
Proof.
  unfold param_scan. rewrite param_scan_loop_first_ref by lia.
  destruct (first_ref w) as [[c st] e]. reflexivity.
Qed.

(** A reference starts inside the text scanned and spans at least two
    characters. *)
Lemma first_ref_shape (w : string) (c : ascii) (st e : option string) :
  first_ref w = (c, st, e) ->
  (c = NUL /\ st = None /\ e = None)
  \/ (is_nul c = false /\
      exists u v st' e', st = Some st' /\ e = Some e' /\ w = u ++ st' /\ st' = v ++ e'
                         /\ (2 <= String.length v)%nat).
Proof.
  induction w as [|x t IH]; simpl.
  - intros H. inversion H. auto.
  - assert (Hrec : first_ref t = (c, st, e) ->
                   (c = NUL /\ st = None /\ e = None)
                   \/ (is_nul c = false /\
                       exists u v st' e', st = Some st' /\ e = Some e'
                         /\ String x t = u ++ st' /\ st' = v ++ e'
                         /\ (2 <= String.length v)%nat)).
    { intros H. destruct (IH H) as [?|(Hc & u & v & st' & e' & -> & -> & -> & -> & Hv)];
        [left; assumption|right].
      split; [assumption|]. exists (String x u), v, (v ++ e'), e'. auto. }
    destruct (x =? "$")%char; [|exact Hrec].
    destruct t as [|d t']; [exact Hrec|]. cbn [char1].
    destruct (is_special d) eqn:Hsp.
    + intros H. inversion H; subst. right. split.
      * unfold is_special in Hsp. unfold is_nul, NUL.
        destruct (Ascii.eqb_spec c "000"%char) as [->|]; [discriminate Hsp|reflexivity].
      * exists "", (String x (String c "")), (String x (String c t')), t'. auto.
    + destruct (d =? "{")%char eqn:Hd; [|exact Hrec].
      cbn [str_drop].
      destruct (strchr t' "}") as [e0|] eqn:He; [|exact Hrec].
      intros H. inversion H; subst. right. split.
      * apply Ascii.eqb_eq in Hd. subst. reflexivity.
      * destruct (strchr_first _ _ _ He) as (name & t2 & -> & -> & Hname).
        exists "", (String x (String c (name ++ String "}" ""))),
          (String x (String c (name ++ String "}" t2))), t2.
        repeat split.
        -- rewrite !app_cons, app_assoc_s. reflexivity.
        -- simpl. lia.
Qed.

Lemma first_ref_found (w : string) (c : ascii) (st e : string) :
  first_ref w = (c, Some st, Some e) ->
  is_nul c = false /\ exists u v, w = u ++ st /\ st = v ++ e /\ (2 <= String.length v)%nat.
Proof.
  intros H.
  destruct (first_ref_shape _ _ _ _ H)
    as [(_ & Hst & _)|(Hc & u & v & st' & e' & E1 & E2 & Ew & Est & Hv)]; [discriminate|].
  inversion E1; inversion E2; subst. split; [exact Hc|]. exists u, v. auto.
Qed.

Lemma build_str_whole (b v : string) :
  build_str (Some b) (Some v) None = (Some (b ++ v), Some (b ++ v)).
Proof. unfold build_str. simpl. rewrite str_take_all. reflexivity. Qed.

Lemma build_str_literal (b w : string) (st : option string) :
  snd (build_str (Some b) (Some w) st) = Some (b ++ literal_before w st).
Proof.
  unfold build_str, literal_before. destruct st as [s|]; simpl; [reflexivity|].
  rewrite str_take_all. reflexivity.
Qed.

Lemma build_str_literal_null (w : string) (st : option string) :
  snd (build_str None (Some w) st) = Some ("" ++ literal_before w st).
Proof.
  unfold build_str, literal_before. destruct st as [s|]; simpl; [reflexivity|].
  rewrite str_take_all. reflexivity.
Qed.

Lemma expand_case_value (env : gmap string string) (c : ascii) (st e b : string) :
  expand_case env c (Some st) (Some e) (Some b) = Ok (Some (b ++ ref_value env c st e)).
Proof.
  unfold expand_case, ref_value.
  destruct (c =? "$")%char; [rewrite build_str_whole; reflexivity|].
  destruct (c =? "!")%char; [rewrite build_str_whole; reflexivity|].
  destruct (c =? "?")%char; [rewrite build_str_whole; reflexivity|].
  destruct (c =? "{")%char.
  - destruct (getenv env _) as [v|]; cbn [default id].
    + rewrite build_str_whole. reflexivity.
    + rewrite app_empty_r. reflexivity.
  - rewrite app_empty_r. reflexivity.
Qed.

(** The loop of [expand] computes the expansion that [expands] describes. *)
Lemma expand_loop_expands (env : gmap string string) (w r : string) :
  expands env w r ->
  forall fuel b c st e,
    first_ref w = (c, st, e) -> (String.length w < fuel)%nat ->
    expand_loop fuel env c st e e (Some (b ++ literal_before w st))
    = Ok (Some (b ++ r), (None, None)).
Proof.
  induction 1 as [w Hw|w c0 st0 e0 r Hw Hexp IH]; intros fuel b c st e Hfirst Hfuel.
  - rewrite Hw in Hfirst. inversion Hfirst; subst.
    destruct fuel; [lia|]. reflexivity.
  - rewrite Hw in Hfirst. inversion Hfirst; subst. clear Hfirst.
    destruct (first_ref_found _ _ _ _ Hw) as (Hc & u & v & Ew & Est & Hv).
    destruct fuel as [|fuel]; [lia|].
    cbn [expand_loop]. rewrite Hc.
    rewrite expand_case_value. cbn [res_bind].
    rewrite param_scan_first_ref. cbn [res_bind].
    destruct (first_ref e0) as [[c' st'] e'] eqn:Hfe. cbn [snd].
    rewrite build_str_literal.
    rewrite (IH fuel _ c' st' e' eq_refl).
    + cbn [literal_before]. rewrite !app_assoc_s. reflexivity.
    + subst w st0. rewrite !app_length_s in Hfuel. lia.
Qed.

Lemma expanded_expands (env : gmap string string) (w r : string) :
  expands env w r -> expanded env w = Ok (Some r).
Proof.
  intros H. unfold expanded, expand.
  rewrite param_scan_first_ref. cbn [res_bind].
  destruct (first_ref w) as [[c st] e] eqn:Hf. cbn [snd].
  change (snd (build_str None None None)) with (@None string).
  rewrite build_str_literal_null.
  rewrite (expand_loop_expands env w r H _ "" c st e Hf) by lia.
  reflexivity.
Qed.

(** Every word has an expansion. *)
Lemma expands_total (env : gmap string string) (w : string) : exists r, expands env w r.
Proof.
  remember (String.length w) as n eqn:Hn. revert w Hn.
  induction n as [n IH] using lt_wf_ind. intros w Hn.
  destruct (first_ref w) as [[c st] e] eqn:Hf.
  destruct (first_ref_shape _ _ _ _ Hf) as [(-> & -> & ->)|(Hc & u & v & st' & e' & -> & -> & Ew & Est & Hv)].
  - exists w. apply expands_plain. exact Hf.
  - destruct (IH (String.length e')) with (w := e') as [r Hr]; [|reflexivity|].
    + subst. rewrite !app_length_s. lia.
    + eexists. eapply expands_ref; eassumption.
Qed.

(** [expand] returns a string for every word, whatever the statics hold,
    and leaves the statics reset. *)
Lemma expand_total (env : gmap string string) (w : string) :
  exists r, expanded env w = Ok (Some r).
Proof.
  destruct (expands_total env w) as [r Hr]. exists r. apply expanded_expands. exact Hr.
Qed.

Lemma ends_with_dollar_app (a b : string) :
  ends_with_dollar (a ++ b) = false -> ends_with_dollar b = false.
Proof.
  induction a as [|x a IH]; [auto|].
  rewrite app_cons. intros H. apply IH.
  destruct (a ++ b) as [|y t] eqn:E; [reflexivity|exact H].
Qed.

(** Text without [}] appended behind a word leaves its first reference
    where it is. *)
Lemma first_ref_app_match (w Y : string) (c : ascii) (st e : string) :
  first_ref w = (c, Some st, Some e) -> strchr Y "}" = None ->
  first_ref (w ++ Y) = (c, Some (st ++ Y), Some (e ++ Y)).
Proof.
  intros Hw HY. induction w as [|x t IH]; [discriminate|].
  rewrite app_cons. cbn [first_ref] in *.
  destruct (x =? "$")%char; [|exact (IH Hw)].
  destruct t as [|d t']; [discriminate|].
  rewrite app_cons. cbn [char1 str_drop] in *.
  destruct (is_special d).
  - inversion Hw; subst. rewrite !app_cons. reflexivity.
  - destruct (d =? "{")%char; [|rewrite <- app_cons; exact (IH Hw)].
    rewrite strchr_app.
    destruct (strchr t' "}") as [e0|] eqn:He.
    + inversion Hw; subst. rewrite !app_cons.
      destruct (strchr_first _ _ _ He) as (name & t2 & _ & -> & _).
      reflexivity.
    + rewrite HY. rewrite <- app_cons. exact (IH Hw).
Qed.

(** Behind a word without reference that does not end in [$], an
    unterminated [${] is skipped by the scan. *)
Lemma first_ref_app_unterminated (w rest : string) :
  first_ref w = (NUL, None, None) -> ends_with_dollar w = false ->
  strchr rest "}" = None ->
  first_ref (w ++ "${" ++ rest) = first_ref rest.
Proof.
  intros Hw Hend Hrest. induction w as [|x t IH].
  - rewrite app_empty_l, !app_cons, app_empty_l. cbn [first_ref char1 str_drop].
    simpl. rewrite Hrest. reflexivity.
  - assert (Ht : ends_with_dollar t = false).
    { destruct t as [|y t']; [reflexivity|exact Hend]. }
    rewrite app_cons. cbn [first_ref] in *.
    destruct (x =? "$")%char eqn:Hx; [|exact (IH Hw Ht)].
    destruct t as [|d t'].
    + simpl in Hend. congruence.
    + rewrite app_cons. cbn [char1 str_drop] in *.
      destruct (is_special d); [discriminate|].
      destruct (d =? "{")%char; [|rewrite <- app_cons; exact (IH Hw Ht)].
      rewrite strchr_app.
      destruct (strchr t' "}") as [e0|]; [discriminate|].
      replace (strchr ("${" ++ rest) "}") with (strchr rest "}") by reflexivity.
      rewrite Hrest. rewrite <- app_cons. exact (IH Hw Ht).
Qed.

Lemma ref_value_app (env : gmap string string) (c : ascii) (v e Y : string) :
  (2 <= String.length v)%nat ->
  ref_value env c ((v ++ e) ++ Y) (e ++ Y) = ref_value env c (v ++ e) e.
Proof.
  intros Hv. unfold ref_value.
  destruct (c =? "$")%char; [reflexivity|].
  destruct (c =? "!")%char; [reflexivity|].
  destruct (c =? "?")%char; [reflexivity|].
  destruct (c =? "{")%char; [|reflexivity].
  unfold ptr_diff. rewrite !app_length_s.
  rewrite str_drop_app_le by (rewrite app_length_s; lia).
  rewrite str_take_app_le; [do 3 f_equal; lia|].
  assert (Hd : forall n s, String.length (str_drop n s) = (String.length s - n)%nat).
  { induction n as [|n IHn]; intros [|y s]; simpl; auto. }
  rewrite Hd, app_length_s. lia.
Qed.

(** The expansion of a word that carries an unterminated [${]. *)
Lemma expands_unterminated (env : gmap string string) (pre p : string) :
  expands env pre p ->
  forall rest r,
    ends_with_dollar pre = false -> strchr rest "}" = None -> expands env rest r ->
    expands env (pre ++ "${" ++ rest) (p ++ "${" ++ r).
Proof.
  induction 1 as [w Hw|w c st e r0 Hw Hexp IH]; intros rest r Hend Hrest Hr.
  - pose proof (first_ref_app_unterminated w rest Hw Hend Hrest) as Hf.
    inversion Hr as [w' Hw'|w' c st e r' Hw' Hexp']; subst.
    + apply expands_plain. rewrite Hf. exact Hw'.
    + destruct (first_ref_found _ _ _ _ Hw') as (Hc & u & v & Ew & Est & Hv).
      rewrite Hw' in Hf.
      pose proof (expands_ref env _ _ _ _ _ Hf Hexp') as H.
      replace (str_take (ptr_diff st (w ++ "${" ++ rest)) (w ++ "${" ++ rest))
        with (w ++ "${" ++ str_take (ptr_diff st rest) rest) in H.
      * rewrite !app_assoc_s in H. exact H.
      * subst rest. unfold ptr_diff.
        replace (w ++ "${" ++ u ++ st) with ((w ++ "${" ++ u) ++ st)
          by (rewrite !app_assoc_s; reflexivity).
        rewrite (app_length_s (w ++ "${" ++ u) st), (app_length_s u st).
        replace (String.length (w ++ "${" ++ u) + String.length st - String.length st)%nat
          with (String.length (w ++ "${" ++ u)) by lia.
        replace (String.length u + String.length st - String.length st)%nat
          with (String.length u) by lia.
        rewrite !str_take_app. reflexivity.
  - destruct (first_ref_found _ _ _ _ Hw) as (Hc & u & v & Ew & Est & Hv).
    assert (HY : strchr ("${" ++ rest) "}" = None) by exact Hrest.
    pose proof (first_ref_app_match w ("${" ++ rest) c st e Hw HY) as Hf.
    assert (Hend' : ends_with_dollar e = false).
    { subst w st. apply ends_with_dollar_app in Hend. apply ends_with_dollar_app in Hend.
      exact Hend. }
    pose proof (expands_ref env _ _ _ _ _ Hf (IH rest r Hend' Hrest Hr)) as H.
    replace (str_take (ptr_diff (st ++ "${" ++ rest) (w ++ "${" ++ rest)) (w ++ "${" ++ rest))
      with (str_take (ptr_diff st w) w) in H.
    + subst st. rewrite ref_value_app in H by exact Hv.
      rewrite !app_assoc_s in *. exact H.
    + unfold ptr_diff. rewrite !app_length_s.
      rewrite str_take_app_le by lia. f_equal. lia.
Qed.

(** Text that the scan passes over without finding a reference in it
    stays as it is in front of the expansion of the rest. *)
Lemma expands_behind_literal (env : gmap string string) (P rest r : string) :
  first_ref (P ++ rest) = first_ref rest -> expands env rest r ->
  expands env (P ++ rest) (P ++ r).
Proof.
  intros Hf Hr. inversion Hr as [w' Hw'|w' c st e r' Hw' Hexp']; subst.
  - apply expands_plain. rewrite Hf. exact Hw'.
  - destruct (first_ref_found _ _ _ _ Hw') as (Hc & u & v & Ew & Est & Hv).
    rewrite Hw' in Hf.
    pose proof (expands_ref env _ _ _ _ _ Hf Hexp') as H.
    replace (str_take (ptr_diff st (P ++ rest)) (P ++ rest))
      with (P ++ str_take (ptr_diff st rest) rest) in H.
    + rewrite !app_assoc_s in H. exact H.
    + subst rest. unfold ptr_diff.
      replace (P ++ u ++ st) with ((P ++ u) ++ st) by (rewrite !app_assoc_s; reflexivity).
      rewrite (app_length_s (P ++ u) st), (app_length_s u st).
      replace (String.length (P ++ u) + String.length st - String.length st)%nat
        with (String.length (P ++ u)) by lia.
      replace (String.length u + String.length st - String.length st)%nat
        with (String.length u) by lia.
      rewrite !str_take_app. reflexivity.
Qed.

Lemma first_ref_skips_brace (x : ascii) (rest : string) :
  (x =? "$")%char = false -> first_ref (String x rest) = first_ref rest.
Proof. intros H. cbn [first_ref]. rewrite H. reflexivity. Qed.

(** The scan of a word that ends in [$], against the scan of the same
    word with an unterminated [{...] behind that [$]. *)
Lemma first_ref_dollar_none (w rest : string) :
  first_ref (w ++ "$") = (NUL, None, None) -> strchr rest "}" = None ->
  first_ref (w ++ "${" ++ rest) = first_ref rest.
Proof.
  intros Hw Hrest. induction w as [|x t IH].
  - rewrite app_empty_l, !app_cons, app_empty_l. cbn [first_ref char1 str_drop].
    simpl. rewrite Hrest. reflexivity.
  - rewrite app_cons in *. cbn [first_ref] in *.
    destruct (x =? "$")%char eqn:Hx; [|exact (IH Hw)].
    destruct t as [|d t'].
    + rewrite app_empty_l in Hw. discriminate Hw.
    + rewrite app_cons in *. cbn [char1 str_drop] in *.
      destruct (is_special d); [discriminate|].
      destruct (d =? "{")%char; [|rewrite <- app_cons in *; exact (IH Hw)].
      rewrite strchr_app in *.
      destruct (strchr t' "}") as [e0|]; [discriminate|].
      replace (strchr ("${" ++ rest) "}") with (strchr rest "}") by reflexivity.
      rewrite Hrest. replace (strchr "$" "}") with (@None string) in Hw by reflexivity.
      rewrite <- app_cons in *. exact (IH Hw).
Qed.

Lemma first_ref_dollar_found (w rest : string) (c : ascii) (st e : string) :
  first_ref (w ++ "$") = (c, Some st, Some e) -> strchr rest "}" = None ->
  (exists st' e' v,
      st = st' ++ "$" /\ e = e' ++ "$" /\ st' = v ++ e' /\ (2 <= String.length v)%nat
      /\ first_ref (w ++ "${" ++ rest) = (c, Some (st' ++ "${" ++ rest), Some (e' ++ "${" ++ rest)))
  \/ (c = "$"%char /\ st = "$$" /\ e = ""
      /\ first_ref (w ++ "${" ++ rest) = ("$"%char, Some ("$${" ++ rest), Some ("{" ++ rest))).
Proof.
  intros Hw Hrest. induction w as [|x t IH].
  - rewrite app_empty_l in Hw. discriminate Hw.
  - rewrite app_cons in *. cbn [first_ref] in *.
    destruct (Ascii.eqb_spec x "$") as [->|_]; [|exact (IH Hw)].
    destruct t as [|d t'].
    + rewrite app_empty_l in *. simpl in Hw. inversion Hw; subst. right. auto.
    + rewrite app_cons in *. cbn [char1 str_drop] in *.
      destruct (is_special d).
      * inversion Hw; subst. left.
        exists (String "$" (String c t')), t', (String "$" (String c "")).
        repeat split. simpl. lia.
      * destruct (d =? "{")%char eqn:Hd; [|rewrite <- app_cons in *; exact (IH Hw)].
        rewrite strchr_app in *.
        destruct (strchr t' "}") as [e0|] eqn:He.
        -- inversion Hw; subst. left.
           destruct (strchr_first _ _ _ He) as (name & t2 & -> & -> & _).
           exists (String "$" (String c (name ++ String "}" t2))), t2,
             (String "$" (String c (name ++ String "}" ""))).
           repeat split.
           ++ rewrite !app_cons, app_assoc_s. reflexivity.
           ++ simpl. lia.
        -- replace (strchr ("${" ++ rest) "}") with (strchr rest "}") by reflexivity.
           rewrite Hrest. replace (strchr "$" "}") with (@None string) in Hw by reflexivity.
           rewrite <- app_cons in *. exact (IH Hw).
Qed.

Lemma expands_empty (env : gmap string string) (q : string) : expands env "" q -> q = "".
Proof. intros H. inversion H; subst; [reflexivity|discriminate]. Qed.

(** The expansion of any word that carries an unterminated [${]: the
    expansion of the text up to its [$], then [{] and the expansion of
    the text behind. *)
Lemma expands_unterminated_general (env : gmap string string) (X q : string) :
  expands env X q ->
  forall pre rest r,
    X = pre ++ "$" -> strchr rest "}" = None -> expands env rest r ->
    expands env (pre ++ "${" ++ rest) (q ++ "{" ++ r).
Proof.
  induction 1 as [w Hw|w c st e q0 Hw Hexp IH]; intros pre rest r -> Hrest Hr.
  - pose proof (first_ref_dollar_none pre rest Hw Hrest) as Hf.
    replace (pre ++ "${" ++ rest) with ((pre ++ "${") ++ rest) in *
      by (rewrite !app_assoc_s; reflexivity).
    replace ((pre ++ "$") ++ "{" ++ r) with ((pre ++ "${") ++ r)
      by (rewrite !app_assoc_s; reflexivity).
    apply expands_behind_literal; assumption.
  - destruct (first_ref_dollar_found pre rest c st e Hw Hrest)
      as [(st' & e' & v & -> & -> & -> & Hv & Hf)|(-> & -> & -> & Hf)].
    + pose proof (expands_ref env _ _ _ _ _ Hf (IH e' rest r eq_refl Hrest Hr)) as H.
      destruct (first_ref_found _ _ _ _ Hw) as (_ & u & v0 & Ew & _ & _).
      assert (Hlen : (String.length (v ++ e') <= String.length pre)%nat).
      { apply (f_equal String.length) in Ew. rewrite !app_length_s in Ew. simpl in Ew.
        rewrite !app_length_s. lia. }
      replace (str_take (ptr_diff ((v ++ e') ++ "${" ++ rest) (pre ++ "${" ++ rest))
                 (pre ++ "${" ++ rest))
        with (str_take (ptr_diff ((v ++ e') ++ "$") (pre ++ "$")) (pre ++ "$")) in H.
      * rewrite ref_value_app in H by exact Hv.
        rewrite <- (ref_value_app env c v e' "$" Hv) in H.
        rewrite !app_assoc_s in *. exact H.
      * unfold ptr_diff. rewrite !(app_length_s pre), !(app_length_s (v ++ e')).
        rewrite !str_take_app_le by lia. f_equal. lia.
    + apply expands_empty in Hexp. subst q0.
      assert (Hb : expands env ("{" ++ rest) ("{" ++ r)).
      { apply expands_behind_literal; [|exact Hr]. reflexivity. }
      pose proof (expands_ref env _ _ _ _ _ Hf Hb) as H.
      destruct (first_ref_found _ _ _ _ Hw) as (_ & u & v0 & Ew & _ & _).
      assert (Hpre : pre = u ++ "$").
      { clear -Ew. revert u Ew. induction pre as [|x p IHp]; intros [|y u] E.
        - discriminate E.
        - rewrite app_empty_l, app_cons in E. injection E as _ E.
          destruct u; discriminate E.
        - rewrite app_cons, app_empty_l in E. injection E as -> E.
          destruct p as [|z p]; [reflexivity|].
          rewrite app_cons in E. injection E as _ E. destruct p; discriminate E.
        - rewrite !app_cons in E. injection E as -> E. rewrite (IHp u E). reflexivity. }
      subst pre.
      replace (str_take (ptr_diff ("$${" ++ rest) ((u ++ "$") ++ "${" ++ rest))
                 ((u ++ "$") ++ "${" ++ rest)) with u in H.
      * replace (str_take (ptr_diff "$$" ((u ++ "$") ++ "$")) ((u ++ "$") ++ "$")) with u.
        -- rewrite app_empty_r, !app_assoc_s in *. exact H.
        -- unfold ptr_diff. rewrite !app_assoc_s, app_length_s.
           replace (String.length u + String.length ("$" ++ "$") - String.length "$$")%nat
             with (String.length u) by (simpl; lia).
           rewrite str_take_app. reflexivity.
      * unfold ptr_diff. rewrite !app_assoc_s, app_length_s.
        replace (String.length u + String.length ("$" ++ "${" ++ rest)
                 - String.length ("$${" ++ rest))%nat
          with (String.length u) by (simpl; lia).
        rewrite str_take_app. reflexivity.
Qed.

(** A reference of the [${...}] kind runs from [${] to the first [}]
    behind it. *)
Lemma first_ref_brace_closed (w st e : string) :
  first_ref w = ("{"%char, Some st, Some e) ->
  exists name, st = "${" ++ name ++ "}" ++ e /\ strchr name "}" = None.
Proof.
  induction w as [|x t IH]; [discriminate|].
  cbn [first_ref].
  destruct (Ascii.eqb_spec x "$") as [->|_]; [|exact IH].
  destruct t as [|d t']; [exact IH|]. cbn [char1 str_drop].
  destruct (is_special d) eqn:Hsp.
  - intros H. inversion H; subst. discriminate Hsp.
  - destruct (Ascii.eqb_spec d "{") as [->|_]; [|exact IH].
    destruct (strchr t' "}") as [e0|] eqn:He; [|exact IH].
    intros H. inversion H; subst.
    destruct (strchr_first _ _ _ He) as (name & t2 & -> & -> & Hname).
    exists name. split; [reflexivity|exact Hname].
Qed.

(** C6, as the code has it: a [${name}] reference is recognised only
    where the [${] is closed, and then by the first [}] behind it.  A [${]
    with no [}] behind it is never the start of a reference: the word
    expands to the expansion of the text up to and including its [$],
    then [{], then the expansion of the text behind, in which [$$], [$!]
    and [$?] are substituted as anywhere else.  Where the text in front
    does not end in [$], so that the [$] cannot be the second character of
    a [$$], this keeps the two characters [${] as they are, between the
    expansion of the text in front and that of the text behind. *)
Theorem unterminated_brace_kept_literal (env : gmap string string) :
  (forall prev w st e pv,
     param_scan prev (Some w) = Ok ("{"%char, Some st, Some e, pv) ->
     exists name, st = "${" ++ name ++ "}" ++ e /\ strchr name "}" = None)
  /\ (forall pre rest,
        strchr rest "}" = None ->
        exists q r,
          expanded env (pre ++ "$") = Ok (Some q) /\ expanded env rest = Ok (Some r)
          /\ expanded env (pre ++ "${" ++ rest) = Ok (Some (q ++ "{" ++ r)))
  /\ (forall pre rest,
        ends_with_dollar pre = false -> strchr rest "}" = None ->
        exists p r,
          expanded env pre = Ok (Some p) /\ expanded env rest = Ok (Some r)
          /\ expanded env (pre ++ "${" ++ rest) = Ok (Some (p ++ "${" ++ r))).
Proof.
  split; [|split].
  - intros prev w st e pv H. rewrite param_scan_first_ref in H.
    destruct (first_ref w) as [[c st'] e'] eqn:Hf. simpl in H.
    inversion H; subst. eapply first_ref_brace_closed. exact Hf.
  - intros pre rest Hrest.
    destruct (expands_total env (pre ++ "$")) as [q Hq].
    destruct (expands_total env rest) as [r Hr].
    exists q, r. split; [|split].
    + apply expanded_expands. exact Hq.
    + apply expanded_expands. exact Hr.
    + apply expanded_expands.
      apply (expands_unterminated_general env _ q Hq pre rest r eq_refl Hrest Hr).
  - intros pre rest Hend Hrest.
    destruct (expands_total env pre) as [p Hp].
    destruct (expands_total env rest) as [r Hr].
    exists p, r. split; [|split].
    + apply expanded_expands. exact Hp.
    + apply expanded_expands. exact Hr.
    + apply expanded_expands. apply expands_unterminated; assumption.
Qed.

Lemma unterminated_brace_kept_literal_witness :
  (exists name, "${HOME}/x" = "${" ++ name ++ "}" ++ "/x" /\ strchr name "}" = None)
  /\ (exists q r,
        expanded demo_env ("a$" ++ "$") = Ok (Some q) /\ expanded demo_env "x$?" = Ok (Some r)
        /\ expanded demo_env ("a$" ++ "${" ++ "x$?") = Ok (Some (q ++ "{" ++ r)))
  /\ (exists p r,
        expanded demo_env "$$ab" = Ok (Some p) /\ expanded demo_env "HOME/$?" = Ok (Some r)
        /\ expanded demo_env ("$$ab" ++ "${" ++ "HOME/$?") = Ok (Some (p ++ "${" ++ r))).
Proof.
  split; [|split].
  - exact (proj1 (unterminated_brace_kept_literal demo_env)
                 None "a${HOME}/x" "${HOME}/x" "/x" (Some "/x") eq_refl).
  - exact (proj1 (proj2 (unterminated_brace_kept_literal demo_env)) "a$" "x$?" eq_refl).
  - exact (proj2 (proj2 (unterminated_brace_kept_literal demo_env))
                 "$$ab" "HOME/$?" eq_refl eq_refl).
Defined.

Example expand_unterminated_example :
  expanded demo_env "$$ab${HOME/$?" = Ok (Some "4242ab${HOME/0").
Proof. vm_compute. reflexivity. Qed.

(** C6 as stated fails on two kinds of word.  In ["$${x"] the [${] has no
    closing brace, yet its [$] is consumed as the second character of the
    reference [$$] in front of it, and the result holds no [${] at all.
    In ["${a$$"] the text behind the unterminated [${] is still
    substituted. *)
Lemma unterminated_brace_counterexample :
  (strchr "x" "}" = None
   /\ exists out, expanded demo_env ("$" ++ "${" ++ "x") = Ok (Some out)
                  /\ forall p r, out <> p ++ "${" ++ r)
  /\ (strchr "a$$" "}" = None
      /\ expanded demo_env ("${" ++ "a$$") = Ok (Some "${a4242")).
Proof.
  split; split; try reflexivity.
  exists "4242{x". split; [vm_compute; reflexivity|].
  intros p r H.
  repeat (destruct p as [|? p]; rewrite ?app_cons, ?app_empty_l in H;
          [discriminate H|injection H as _ H]).
  destruct p; discriminate H.
Qed.

(** [expand] does not depend on what the statics hold on entry and leaves
    them reset, so [main] may hand each word fresh statics. *)
Lemma expand_statics (env : gmap string string) (statics : option string * option string)
    (w : string) :
  exists r, expand env statics w = Ok (Some r, (None, None)).
Proof.
  destruct statics as [prev base].
  destruct (expands_total env w) as [r Hr]. exists r.
  unfold expand. rewrite param_scan_first_ref. cbn [res_bind].
  destruct (first_ref w) as [[c st] e] eqn:Hf. cbn [snd].
  replace (snd (build_str base None None)) with (@None string) by (destruct base; reflexivity).
  rewrite build_str_literal_null.
  rewrite (expand_loop_expands env w r Hr _ "" c st e Hf) by lia.
  reflexivity.
Qed.

(** A word without [$] is its own expansion. *)
Lemma expand_no_dollar (env : gmap string string) (w : string) :
  strchr w "$" = None -> expanded env w = Ok (Some w).
Proof.
  intros H. apply expanded_expands, expands_plain.
  induction w as [|x t IH]; [reflexivity|].
  simpl in H. cbn [first_ref]. destruct (x =? "$")%char; [discriminate|]. exact (IH H).
Qed.

(** * Further properties of the code *)

(** ** Frames *)

Lemma pres_ret {A B} (f : shell -> B) (a : A) : preserves f (ret a).
Proof. intros s. reflexivity. Qed.

Lemma pres_bind {A B C} (f : shell -> C) (m : M A) (k : A -> M B) :
  preserves f m -> (forall a, preserves f (k a)) -> preserves f (bind m k).
Proof.
  intros Hm Hk s. unfold bind. specialize (Hm s).
  destruct (m s) as [a s1| | |]; try exact I.
  specialize (Hk a s1). destruct (k a s1); try exact I. congruence.
Qed.

Lemma pres_gets {A B} (f : shell -> B) (g : shell -> A) : preserves f (gets g).
Proof. intros s. reflexivity. Qed.

Lemma pres_exit {A B} (f : shell -> B) (st : Z) : preserves f (@exit_ A st).
Proof. intros s. exact I. Qed.

Lemma pres_lift {A B} (f : shell -> B) (r : res A) : preserves f (lift r).
Proof. intros s. unfold lift. destruct r; reflexivity. Qed.

Lemma pres_read {A B} (f : shell -> B) (g : shell -> res A) :
  preserves f (fun s => lift (g s) s).
Proof. intros s. unfold lift. destruct (g s); reflexivity. Qed.

Lemma pres_crash {A B} (f : shell -> B) (x : fault) : preserves f (fun _ => @Crashes A x).
Proof. intros s. exact I. Qed.

Lemma pres_execs {A B} (f : shell -> B) (x : exec_request) :
  preserves f (fun s => @Execs A x s).
Proof. intros s. exact I. Qed.

Lemma pres_returns {A B} (f : shell -> B) (m : M A) (s : shell) (a : A) (s' : shell) :
  preserves f m -> m s = Returns a s' -> f s' = f s.
Proof. intros Hm E. specialize (Hm s). rewrite E in Hm. exact Hm. Qed.

(** Splits a computation along its binds, conditionals and matches; a
    leaf is a primitive that leaves the view alone by computation. *)
Ltac pres_split :=
  repeat first
    [ apply pres_ret | apply pres_gets | apply pres_exit | apply pres_lift
    | apply pres_read | apply pres_crash | apply pres_execs
    | assumption
    | apply pres_bind; [|intros ?]
    | solve [intros ?; reflexivity]
    | solve [intros ?; match goal with
                       | |- context [sys_sigaction ?sig ?act] => destruct sig, act; reflexivity
                       end]
    | match goal with
      | |- preserves _ (if ?b then _ else _) => destruct b
      | |- preserves _ (match ?x with _ => _ end) => destruct x
      end ].

(** ** Background Reaper: what a sweep does and leaves alone *)

Lemma pres_report_child (r : reaped) : preserves but_diag_calls (report_child r).
Proof. unfold report_child. pres_split. Qed.

Lemma pres_bg_handler (answers : list reaped) : preserves but_diag_calls (bg_handler answers).
Proof.
  induction answers as [|r rest IH]; cbn [bg_handler]; pres_split.
  apply pres_report_child.
Qed.

Lemma report_child_outcome (r : reaped) (s : shell) :
  match report_child r s with
  | Returns _ _ => True
  | Exits st _ => st = 1
  | Execs _ _ => False
  | Crashes _ => False
  end.
Proof.
  unfold report_child, bind, eprint, sys, modify, exit_, ret.
  destruct (WIFEXITED _); [exact I|]. destruct (WIFSIGNALED _); [exact I|].
  destruct (WIFSTOPPED _); [|exact I]. simpl. destruct (r_kill r <? 0); simpl; auto.
Qed.

Lemma bg_handler_ends (answers : list reaped) (s : shell) :
  match bg_handler answers s with
  | Returns b _ => b = 0
  | Exits st _ => st = 1
  | Execs _ _ => False
  | Crashes _ => False
  end.
Proof.
  revert s. induction answers as [|r rest IH]; intros s; [reflexivity|].
  cbn [bg_handler]. cbv [bind gets sys modify].
  destruct (r_pid r >? 0); [|reflexivity].
  match goal with
  | |- context [if ?c then report_child r else ret tt] => destruct c
  end.
  - match goal with
    | |- context [report_child r ?s0] =>
        pose proof (report_child_outcome r s0) as Hr; destruct (report_child r s0)
    end; try exact Hr. apply IH.
  - cbn. apply IH.
Qed.

(** X1: a sweep of [bg_handler] never faults and never replaces the
    process image; when it returns it returns 0 and has changed nothing of
    the process but stderr and the record of system calls (in particular
    neither [?] nor [!]); the only other way it ends is [exit(1)] after a
    failed [kill]. *)
Theorem bg_handler_outcome (answers : list reaped) (s : shell) :
  match bg_handler answers s with
  | Returns b s' => b = 0 /\ but_diag_calls s' = but_diag_calls s
  | Exits st _ => st = 1
  | Execs _ _ => False
  | Crashes _ => False
  end.
Proof.
  pose proof (pres_bg_handler answers s) as Hframe.
  pose proof (bg_handler_ends answers s) as Hend.
  destruct (bg_handler answers s); auto.
Qed.

Lemma report_child_effect (r : reaped) (s : shell) :
  kill_succeeds r = true ->
  exists s', report_child r s = Returns tt s'
             /\ diag s' = (diag s ++ reap_lines r)%list
             /\ calls s' = (calls s ++ reap_calls r)%list
             /\ pgrp s' = pgrp s /\ ppgid s' = ppgid s.
Proof.
  unfold kill_succeeds, report_child, reap_lines, reap_calls, bind, eprint, sys, modify, ret, exit_.
  intros Hk.
  destruct (WIFEXITED _); [eexists; repeat split; rewrite ?app_nil_r; reflexivity|].
  destruct (WIFSIGNALED _); [eexists; repeat split; rewrite ?app_nil_r; reflexivity|].
  destruct (WIFSTOPPED _).
  - simpl in Hk. apply negb_true_iff in Hk. simpl. rewrite Hk.
    eexists; repeat split.
  - eexists; repeat split; simpl; rewrite ?app_nil_r; reflexivity.
Qed.

(** X2: with the process group as saved at start and no failing [kill],
    a sweep acts on the answers of [waitpid] in order up to the first that
    is not a positive process id: it writes one line for each child that
    exited, was killed or stopped, sends [SIGCONT] to each stopped one,
    and calls [waitpid] once more than it reaped children. *)
Theorem bg_handler_reports_in_order (answers : list reaped) (s : shell) :
  group_unchanged s -> forallb kill_succeeds (reaped_children answers) = true ->
  exists s',
    bg_handler answers s = Returns 0 s'
    /\ diag s' = (diag s ++ flat_map reap_lines (reaped_children answers))%list
    /\ calls s' = (calls s
                   ++ flat_map (fun r => Sys_waitpid (-1) true true :: reap_calls r)
                        (reaped_children answers)
                   ++ [Sys_waitpid (-1) true true])%list.
Proof.
  revert s. induction answers as [|r rest IH]; intros s Hg Hk.
  - eexists. split; [reflexivity|]. split; simpl; rewrite ?app_nil_r; reflexivity.
  - cbn [bg_handler reaped_children] in *. cbv [bind gets sys modify].
    destruct (r_pid r >? 0).
    + cbn [forallb] in Hk. apply andb_prop in Hk as [Hr Hk].
      cbn [pgrp ppgid set_calls].
      replace (pgrp s =? ppgid s) with true by (symmetry; apply Z.eqb_eq; exact Hg).
      destruct (report_child_effect r (set_calls (calls s ++ [Sys_waitpid (-1) true true]) s) Hr)
        as (s1 & E & Hd & Hc & Hp & Hpp).
      rewrite E. cbn [pgrp ppgid set_calls] in Hp, Hpp.
      destruct (IH s1) as (s2 & E2 & Hd2 & Hc2); [unfold group_unchanged in *; congruence|exact Hk|].
      exists s2. split; [exact E2|]. split.
      * rewrite Hd2, Hd. cbn [flat_map diag set_calls]. rewrite app_assoc. reflexivity.
      * rewrite Hc2, Hc. cbn [flat_map calls set_calls].
        rewrite <- !app_assoc. reflexivity.
    + eexists. split; [reflexivity|]. split; simpl; rewrite ?app_nil_r; reflexivity.
Qed.

Lemma bg_handler_reports_in_order_witness :
  exists s',
    bg_handler [{| r_pid := 5000; r_status := W_EXITCODE 3 0; r_kill := 0 |};
                {| r_pid := 5002; r_status := W_STOPCODE 20; r_kill := 0 |};
                {| r_pid := 0; r_status := 0; r_kill := 0 |};
                {| r_pid := 5003; r_status := W_EXITCODE 0 0; r_kill := 0 |}]
      (set_ppgid 4242 sample_shell) = Returns 0 s'
    /\ diag s' = ["Child process 5000 done. Exit status 3.";
                  "Child process 5002 stopped. Continuing."]
    /\ calls s' = [Sys_waitpid (-1) true true; Sys_waitpid (-1) true true;
                   Sys_kill_cont 5002; Sys_waitpid (-1) true true].
Proof.
  exact (bg_handler_reports_in_order
           [{| r_pid := 5000; r_status := W_EXITCODE 3 0; r_kill := 0 |};
            {| r_pid := 5002; r_status := W_STOPCODE 20; r_kill := 0 |};
            {| r_pid := 0; r_status := 0; r_kill := 0 |};
            {| r_pid := 5003; r_status := W_EXITCODE 0 0; r_kill := 0 |}]
           (set_ppgid 4242 sample_shell) eq_refl eq_refl).
Defined.

(** ** Built-in [cd] *)

(** X3: [builtin_cd] always returns to the loop.  With no argument it
    changes to [HOME] and ignores whether that worked; without [HOME], or
    with more than one argument, it makes no [chdir] call, writes its
    message and sets [?] to 1.  With one argument it sets [?] to 1 exactly
    when [chdir] fails; a successful [cd] leaves the environment, and with
    it the previous value of [?], as it was. *)
Theorem builtin_cd_outcomes (os : os_answers) (argv : list (option (option string)))
    (argc : Z) (s : shell) :
  (argc = 1 ->
   match getenv (environ s) "HOME" with
   | Some h => builtin_cd os argv argc s = Returns tt (set_calls (calls s ++ [Sys_chdir h]) s)
   | None => builtin_cd os argv argc s
             = Returns tt (set_environ (<["?" := "1"]> (environ s))
                             (set_diag (diag s ++ ["smallsh: cd: HOME not set"]) s))
   end)
  /\ (2 < argc ->
      builtin_cd os argv argc s
      = Returns tt (set_environ (<["?" := "1"]> (environ s))
                      (set_diag (diag s ++ ["smallsh: cd: too many arguments"]) s)))
  /\ (forall dir, argc = 2 -> arr_get argv 1 = Ok (Some (Some dir)) ->
      builtin_cd os argv argc s
      = if chdir_ret os dir =? 0
        then Returns tt (set_calls (calls s ++ [Sys_chdir dir]) s)
        else Returns tt (set_environ (<["?" := "1"]> (environ s))
                           (set_diag (diag s ++ ["smalssh: chdir failed"])
                              (set_calls (calls s ++ [Sys_chdir dir]) s)))).
Proof.
  split; [|split].
  - intros ->. unfold builtin_cd, bind, gets, sys, eprint, setenv, modify. simpl.
    destruct (getenv (environ s) "HOME"); reflexivity.
  - intros H. unfold builtin_cd.
    replace (argc =? 1) with false by (symmetry; apply Z.eqb_neq; lia).
    replace (argc >? 2) with true by (symmetry; apply Z.gtb_lt; lia).
    reflexivity.
  - intros dir -> Harg. unfold builtin_cd, bind, arg_at, lift, sys, eprint, setenv, modify, ret.
    simpl. rewrite Harg. simpl. destruct (chdir_ret os dir =? 0); reflexivity.
Qed.

Lemma builtin_cd_outcomes_witness :
  builtin_cd (answers_for 0 None) [Some (Some "cd"); Some None] 1 sample_shell
  = Returns tt (set_calls [Sys_chdir "/home/u"] sample_shell)
  /\ builtin_cd no_answers [Some (Some "cd"); Some (Some "a"); Some (Some "b"); Some None] 3
       sample_shell
     = Returns tt (set_environ (<["?" := "1"]> demo_env)
                     (set_diag ["smallsh: cd: too many arguments"] sample_shell))
  /\ builtin_cd no_answers [Some (Some "cd"); Some (Some "/nowhere"); Some None] 2 sample_shell
     = Returns tt (set_environ (<["?" := "1"]> demo_env)
                     (set_diag ["smalssh: chdir failed"]
                        (set_calls [Sys_chdir "/nowhere"] sample_shell))).
Proof.
  split; [|split].
  - exact (proj1 (builtin_cd_outcomes (answers_for 0 None) [Some (Some "cd"); Some None] 1
                    sample_shell) eq_refl).
  - exact (proj1 (proj2 (builtin_cd_outcomes no_answers
                    [Some (Some "cd"); Some (Some "a"); Some (Some "b"); Some None] 3
                    sample_shell)) eq_refl).
  - exact (proj2 (proj2 (builtin_cd_outcomes no_answers
                    [Some (Some "cd"); Some (Some "/nowhere"); Some None] 2 sample_shell))
                 "/nowhere" eq_refl eq_refl).
Defined.

(** ** Job Executor: the other ways a command ends *)

Lemma stop_status_decoded (sig : Z) :
  0 <= sig <= 255 ->
  WIFSIGNALED (W_STOPCODE sig) = false /\ WIFSTOPPED (W_STOPCODE sig) = true.
Proof.
  intros H.
  pose proof (check_range
    (fun n => negb (WIFSIGNALED (W_STOPCODE n)) && WIFSTOPPED (W_STOPCODE n))
    256 ltac:(vm_compute; reflexivity) sig ltac:(lia)) as Hc.
  simpl in Hc. apply andb_prop in Hc as [H1 H2]. apply negb_true_iff in H1. auto.
Qed.

(** X4: when the wait for a foreground command reports that the child
    was stopped, the parent writes the stop message, sends [SIGCONT] and
    records the process id that [waitpid] returned in [!]; [?] keeps its
    value.  If the [kill] fails the interpreter ends with status 1. *)
Theorem foreground_stop_becomes_background
    (os : os_answers) (words_argv : list (option (option string))) (s : shell) (sig : Z) :
  bg_flag s = 0 -> 0 < fork_ret os -> 0 <= sig <= 255 ->
  wait_status os = Some (W_STOPCODE sig) ->
  exists s',
    execute_nonbuiltin_cmds os words_argv s
    = (if kill_ret os <? 0 then Exits 1 else Returns tt) s'
    /\ calls s' = (calls s ++ [Sys_fork (fork_ret os); Sys_waitpid (fork_ret os) false true;
                               Sys_kill_cont (wait_ret os)])%list
    /\ environ s' !! "?" = environ s !! "?"
    /\ ((kill_ret os <? 0) = false ->
        environ s' = <["!" := sprintf_d (wait_ret os)]> (environ s)
        /\ diag s' = (diag s ++ [("Child process " ++ sprintf_d (wait_ret os)
                                  ++ " stopped. Continuing.")%string])%list).
Proof.
  intros Hbg Hpid Hsig Hst.
  destruct (stop_status_decoded sig Hsig) as [Hns Hstop].
  rewrite (execute_in_parent os words_argv s Hpid).
  unfold parent_branch, bind, sys, eprint, modify, gets, lift, setenv, exit_. simpl.
  rewrite Hbg. simpl. rewrite Hst. simpl. rewrite Hns, Hstop.
  destruct (kill_ret os <? 0); simpl.
  - eexists. split; [reflexivity|]. split; [|split].
    + simpl. rewrite <- !app_assoc. reflexivity.
    + reflexivity.
    + discriminate.
  - eexists. split; [reflexivity|]. split; [|split].
    + simpl. rewrite <- !app_assoc. reflexivity.
    + simpl. apply lookup_insert_ne. discriminate.
    + intros _. split; reflexivity.
Qed.

Lemma foreground_stop_becomes_background_witness :
  exists s',
    execute_nonbuiltin_cmds (answers_for 5000 (Some (W_STOPCODE 20))) [] sample_shell
    = Returns tt s'
    /\ calls s' = [Sys_fork 5000; Sys_waitpid 5000 false true; Sys_kill_cont 5000]
    /\ environ s' !! "?" = Some "0"
    /\ (false = false ->
        environ s' = <["!" := "5000"]> demo_env
        /\ diag s' = ["Child process 5000 stopped. Continuing."]).
Proof.
  exact (foreground_stop_becomes_background
           (answers_for 5000 (Some (W_STOPCODE 20))) [] sample_shell 20
           eq_refl eq_refl ltac:(lia) eq_refl).
Defined.

Lemma never_returns_bind {A B} (m : M A) (k : A -> M B) :
  (forall a, never_returns (k a)) -> never_returns (bind m k).
Proof.
  intros Hk s b s' E. unfold bind in E.
  destruct (m s) as [a s1| | |]; try discriminate. exact (Hk a s1 b s' E).
Qed.

Lemma never_returns_err1 {A} (msg : string) : never_returns (@err1 A msg).
Proof. intros s a s' E. discriminate E. Qed.

(** X5: the child of [fork] never comes back into the interpreter: on
    every path, whatever the redirections and whatever [open], [dup2] and
    [exec] answer, it ends in a successful [exec], in an [exit], or in a
    fault; the same holds when [fork] itself fails. *)
Theorem child_never_returns (os : os_answers) (words_argv : list (option (option string))) :
  never_returns (child_branch os words_argv)
  /\ (fork_ret os = 0 \/ fork_ret os = -1 ->
      never_returns (execute_nonbuiltin_cmds os words_argv)).
Proof.
  assert (Hchild : never_returns (child_branch os words_argv)).
  { unfold child_branch. repeat (apply never_returns_bind; intros ?).
    match goal with
    | |- never_returns (match ?x with _ => _ end) => destruct x
    end; destruct (exec_ok os); intros ? ? ? E; discriminate E. }
  split; [exact Hchild|].
  intros H. unfold execute_nonbuiltin_cmds. cbv zeta.
  apply never_returns_bind. intros _.
  destruct H as [H|H]; rewrite H; simpl.
  - exact Hchild.
  - repeat (apply never_returns_bind; intros ?). intros ? ? ? E. discriminate E.
Qed.

Lemma child_never_returns_witness :
  never_returns (child_branch (answers_for 0 None) [])
  /\ never_returns (execute_nonbuiltin_cmds (answers_for 0 None) []).
Proof.
  split.
  - exact (proj1 (child_never_returns (answers_for 0 None) [])).
  - exact (proj2 (child_never_returns (answers_for 0 None) []) (or_introl eq_refl)).
Defined.

(** ** Tokenizer: every line *)

Lemma skip_space_stops (fuel : nat) (c c' : cptr) :
  skip_space fuel c = Ok c' -> at_word_or_end c'.
Proof.
  revert c. induction fuel as [|fuel IH]; intros c E; [discriminate|].
  cbn [skip_space] in E. destruct (deref c) as [x|] eqn:Hd; [|discriminate].
  cbn [res_bind] in E.
  destruct (negb (is_nul x) && isspace x)%bool eqn:Hc.
  - exact (IH _ E).
  - inversion E; subst. intros y Hy. rewrite Hd in Hy. inversion Hy; subst.
    destruct (is_nul y); [left; reflexivity|right]. exact Hc.
Qed.

Lemma read_word_cell (fuel : nat) (c c1 : cptr) (wind : nat) (w : string)
    (arr arr1 : list (option string)) :
  read_word fuel c wind w arr = Ok (c1, arr1) ->
  (arr1 = arr \/ exists w', arr1 = <[wind := Some w']> arr)
  /\ (forall x, deref c = Ok x -> is_nul x = false -> isspace x = false ->
      exists w', arr1 = <[wind := Some w']> arr).
Proof.
  revert c w arr. induction fuel as [|fuel IH]; intros c w arr E; [discriminate|].
  cbn [read_word] in E. destruct (deref c) as [x|] eqn:Hd; [|discriminate].
  cbn [res_bind] in E.
  destruct (negb (is_nul x) && negb (isspace x))%bool eqn:Hc.
  - destruct (deref (if (x =? "\")%char then incr c else c)) as [y|]; [|discriminate].
    cbn [res_bind] in E. apply IH in E. destruct E as [[E|[w' E]] _].
    + assert (Hw : exists w', arr1 = <[wind := Some w']> arr) by (subst; eauto).
      split; [right; exact Hw|intros; exact Hw].
    + assert (Hw : exists w', arr1 = <[wind := Some w']> arr).
      { exists w'. rewrite E. apply list_insert_insert_eq. }
      split; [right; exact Hw|intros; exact Hw].
  - inversion E; subst. split; [left; reflexivity|].
    intros y Hy Hn Hs. inversion Hy; subst. rewrite Hn, Hs in Hc. discriminate Hc.
Qed.

Lemma wordsplit_loop_cells (fuel : nat) (c : cptr) (wind n : nat)
    (arr arr' : list (option string)) :
  at_word_or_end c -> (wind <= MAX_WORDS)%nat -> length arr = MAX_WORDS ->
  wordsplit_loop fuel c wind arr = Ok (n, arr') ->
  (wind <= n <= MAX_WORDS)%nat /\ length arr' = MAX_WORDS
  /\ (forall i, (wind <= i < n)%nat -> exists w, arr' !! i = Some (Some w))
  /\ (forall i, (i < wind \/ n <= i)%nat -> arr' !! i = arr !! i).
Proof.
  revert c wind arr. induction fuel as [|fuel IH]; intros c wind arr Hc Hw Hlen E; [discriminate|].
  cbn [wordsplit_loop] in E. destruct (deref c) as [x|] eqn:Hd; [|discriminate].
  cbn [res_bind] in E.
  assert (Hdone : Ok (wind, arr) = Ok (n, arr') ->
                  (wind <= n <= MAX_WORDS)%nat /\ length arr' = MAX_WORDS
                  /\ (forall i, (wind <= i < n)%nat -> exists w, arr' !! i = Some (Some w))
                  /\ (forall i, (i < wind \/ n <= i)%nat -> arr' !! i = arr !! i)).
  { intros E0. inversion E0; subst. repeat split; auto; intros; lia. }
  destruct (is_nul x) eqn:Hn; [exact (Hdone E)|].
  destruct (Nat.eqb_spec wind MAX_WORDS) as [|Hne]; [exact (Hdone E)|].
  destruct (x =? "#")%char; [exact (Hdone E)|]. clear Hdone.
  destruct (read_word (S fuel) c wind "" arr) as [[c1 arr1]|] eqn:Er; [|discriminate].
  cbn [res_bind] in E.
  destruct (skip_space (S fuel) c1) as [c2|] eqn:Es; [|discriminate].
  cbn [res_bind] in E.
  destruct (Hc x Hd) as [Hx|Hx]; [congruence|].
  destruct (proj2 (read_word_cell _ _ _ _ _ _ _ Er) x Hd Hn Hx) as [w' ->].
  apply IH in E; [|exact (skip_space_stops _ _ _ Es)|lia|rewrite length_insert; exact Hlen].
  destruct E as (Hn1 & Hl & Hsome & Hsame).
  split; [lia|]. split; [exact Hl|]. split.
  - intros i Hi. destruct (Nat.eq_dec i wind) as [->|Hiw].
    + exists w'. rewrite Hsame by lia. apply list_lookup_insert_eq. lia.
    + apply Hsome. lia.
  - intros i Hi. rewrite Hsame by lia. apply list_lookup_insert_ne. lia.
Qed.

(** X6: on every line, whatever it holds, a [wordsplit] that returns has
    counted at most [MAX_WORDS] words, has put a string into each of the
    first [n] cells of [words], and has left the cells from [n] on as they
    were: later stages never meet a NULL among the first [n] cells. *)
Theorem wordsplit_cells (line : string) (arr arr' : list (option string)) (n : nat) :
  length arr = MAX_WORDS ->
  wordsplit line arr = Ok (n, arr') ->
  (n <= MAX_WORDS)%nat /\ length arr' = MAX_WORDS
  /\ (forall i, (i < n)%nat -> exists w, arr' !! i = Some (Some w))
  /\ (forall i, (n <= i)%nat -> arr' !! i = arr !! i).
Proof.
  intros Hlen E. unfold wordsplit in E.
  destruct (skip_space (line_fuel line) (At line)) as [c|] eqn:Es; [|discriminate].
  cbn [res_bind] in E.
  apply wordsplit_loop_cells in E; [|exact (skip_space_stops _ _ _ Es)|lia|exact Hlen].
  destruct E as (Hn & Hl & Hsome & Hsame).
  split; [lia|]. split; [exact Hl|]. split.
  - intros i Hi. apply Hsome. lia.
  - intros i Hi. apply Hsame. lia.
Qed.

Lemma wordsplit_cells_witness :
  (2 <= MAX_WORDS)%nat /\ length (<[0%nat := Some "a b"]> (<[1%nat := Some "c"]> no_words)) = MAX_WORDS
  /\ (forall i, (i < 2)%nat ->
        exists w, <[0%nat := Some "a b"]> (<[1%nat := Some "c"]> no_words) !! i = Some (Some w))
  /\ (forall i, (2 <= i)%nat ->
        <[0%nat := Some "a b"]> (<[1%nat := Some "c"]> no_words) !! i = no_words !! i).
Proof.
  apply (wordsplit_cells "a\ b c" no_words); [reflexivity|vm_compute; reflexivity].
Defined.

(** ** Tokenizer: lines of words *)

Lemma encode_head (w : list item) (rest : string) :
  w <> [] -> forallb item_ok w = true ->
  exists x t, encode w ++ rest = String x t /\ is_nul x = false /\ isspace x = false
              /\ ((x =? "#")%char = opens_comment w).
Proof.
  intros Hne Hok. destruct w as [|[c|c] w]; [contradiction| |]; simpl encode; rewrite ?app_cons.
  - exists c, (encode w ++ rest). split; [reflexivity|].
    simpl in Hok. apply andb_prop in Hok as [Hc _].
    apply andb_prop in Hc as [Hc _]. apply andb_prop in Hc as [Hc Hs].
    apply negb_true_iff in Hc, Hs. auto.
  - eexists _, _. split; [reflexivity|]. repeat split; reflexivity.
Qed.

Lemma line_text_stops_space (ws : list (list item * string)) (tail : string) :
  well_spaced ws tail = true -> comment_or_end tail = true ->
  stops_space (line_text ws tail).
Proof.
  intros Hws Ht. destruct ws as [|[w sep] r].
  - simpl. destruct tail as [|c t]; [exact I|]. simpl in *.
    apply Ascii.eqb_eq in Ht. subst. reflexivity.
  - cbn [well_spaced line_text] in *.
    repeat (apply andb_prop in Hws as [Hws ?]).
    apply negb_true_iff, bool_decide_eq_false in Hws.
    destruct (encode_head w (sep ++ line_text r tail) Hws ltac:(assumption))
      as (x & t & -> & _ & Hs & _).
    exact Hs.
Qed.

(** The outer loop on a line of words, entered at the first of them. *)
Lemma wordsplit_loop_words (ws : list (list item * string)) (tail : string) :
  forall fuel wind arr,
    well_spaced ws tail = true -> comment_or_end tail = true ->
    (wind <= MAX_WORDS)%nat ->
    (String.length (line_text ws tail) < fuel)%nat ->
    wordsplit_loop fuel (At (line_text ws tail)) wind arr
    = Ok (Nat.min (wind + length ws) MAX_WORDS,
          store_words wind (take (MAX_WORDS - wind) (decoded ws)) arr).
Proof.
  induction ws as [|[w sep] r IH]; intros fuel wind arr Hws Ht Hwind Hfuel.
  - destruct fuel as [|fuel]; [lia|].
    cbn [line_text length decoded map]. rewrite Nat.add_0_r, Nat.min_l by exact Hwind.
    rewrite take_nil. cbn [store_words wordsplit_loop].
    destruct tail as [|c t]; [reflexivity|].
    simpl in Ht. cbn [deref res_bind]. apply Ascii.eqb_eq in Ht. subst c.
    change (is_nul "#") with false. cbv iota.
    destruct (Nat.eqb wind MAX_WORDS); reflexivity.
  - pose proof Hws as Hws0.
    cbn [well_spaced] in Hws. repeat (apply andb_prop in Hws as [Hws ?]).
    apply negb_true_iff, bool_decide_eq_false in Hws.
    match goal with H : negb (opens_comment w) = true |- _ => apply negb_true_iff in H end.
    cbn [line_text] in *.
    destruct (encode_head w (sep ++ line_text r tail) Hws ltac:(assumption))
      as (x & t & Hhead & Hn & Hs & Hhash).
    destruct fuel as [|fuel]; [lia|].
    cbn [wordsplit_loop]. rewrite Hhead at 1. cbn [deref res_bind].
    rewrite Hn.
    destruct (Nat.eqb_spec wind MAX_WORDS) as [->|Hne].
    + rewrite Nat.sub_diag, take_0. cbn [store_words].
      rewrite Nat.min_r by lia. reflexivity.
    + replace (x =? "#")%char with false by congruence.
      assert (Hstopw : stops_word (sep ++ line_text r tail)).
      { destruct sep as [|c0 sep0].
        - match goal with
          | H : (negb (bool_decide ("" = "")) || _)%bool = true |- _ =>
              simpl in H; apply andb_prop in H as [Hr Htl]
          end.
          apply bool_decide_eq_true in Hr, Htl. subst. exact I.
        - rewrite app_cons. simpl.
          match goal with H : all_space (String c0 sep0) = true |- _ =>
            simpl in H; apply andb_prop in H as [H _]; exact H end. }
      assert (Hlenw : (length w <= String.length (encode w))%nat) by apply encode_length.
      assert (Henc : (1 <= String.length (encode w))%nat)
        by (destruct w as [|[?|?] ?]; [contradiction|simpl; lia..]).
      rewrite !app_length_s in Hfuel.
      rewrite (read_word_items w (sep ++ line_text r tail) "" (S fuel) wind arr)
        by (assumption || lia).
      cbn [res_bind].
      destruct w as [|it0 w0] eqn:Ew; [contradiction|]. rewrite <- Ew in *.
      rewrite app_empty_l.
      assert (Hwsr : well_spaced r tail = true) by assumption.
      rewrite (skip_space_run sep (line_text r tail) (S fuel))
        by (assumption || (apply line_text_stops_space; assumption) || lia).
      cbn [res_bind].
      rewrite (IH fuel (S wind) _ Hwsr Ht) by lia.
      cbn [length decoded map fst].
      replace (MAX_WORDS - wind)%nat with (S (MAX_WORDS - S wind)) by lia.
      cbn [take store_words].
      f_equal. f_equal. lia.
Qed.

(** A line of words, split into an array that may hold anything. *)
Lemma wordsplit_store (lead : string) (ws : list (list item * string)) (tail : string)
    (arr : list (option string)) :
  all_space lead = true -> well_spaced ws tail = true -> comment_or_end tail = true ->
  wordsplit (lead ++ line_text ws tail) arr
  = Ok (Nat.min (length ws) MAX_WORDS,
        store_words 0 (take MAX_WORDS (decoded ws)) arr).
Proof.
  intros Hlead Hws Ht. unfold wordsplit, line_fuel.
  rewrite app_length_s.
  rewrite skip_space_run;
    [|exact Hlead|apply line_text_stops_space; assumption|lia].
  cbn [res_bind].
  rewrite (wordsplit_loop_words ws tail _ 0%nat arr Hws Ht) by lia.
  rewrite Nat.sub_0_r. reflexivity.
Qed.

Lemma store_words_holding (p l : list string) :
  (length p + length l <= MAX_WORDS)%nat ->
  store_words (length p) l (words_holding p) = words_holding (p ++ l).
Proof.
  revert p. induction l as [|w l IH]; intros p Hlen.
  - rewrite app_nil_r. reflexivity.
  - cbn [store_words]. simpl in Hlen.
    replace (<[length p := Some w]> (words_holding p)) with (words_holding (p ++ [w])).
    + replace (S (length p)) with (length (p ++ [w])) by (rewrite length_app; simpl; lia).
      rewrite IH by (rewrite length_app; simpl; lia).
      rewrite <- app_assoc. reflexivity.
    + unfold words_holding.
      rewrite insert_app_r_alt by (rewrite length_fmap; lia).
      rewrite length_fmap, Nat.sub_diag, fmap_app, <- app_assoc, length_app. simpl.
      replace (MAX_WORDS - length p)%nat with (S (MAX_WORDS - (length p + 1))) by lia.
      reflexivity.
Qed.

(** A line of at most [MAX_WORDS] words, split from an empty [words]. *)
Lemma wordsplit_words_holding (lead : string) (ws : list (list item * string)) (tail : string) :
  all_space lead = true -> well_spaced ws tail = true -> comment_or_end tail = true ->
  (length ws <= MAX_WORDS)%nat ->
  wordsplit (lead ++ line_text ws tail) no_words
  = Ok (length ws, words_holding (decoded ws)).
Proof.
  intros Hlead Hws Ht Hlen.
  rewrite (wordsplit_store lead ws tail no_words Hlead Hws Ht).
  rewrite Nat.min_l by exact Hlen.
  rewrite take_ge by (unfold decoded; rewrite length_map; exact Hlen).
  f_equal. f_equal.
  apply (store_words_holding [] (decoded ws)).
  unfold decoded. rewrite length_map. simpl. lia.
Qed.

(** X7: a line made of words of the grammar, separated by white space,
    with white space in front and the end of the line or a comment behind,
    is split, from the empty [words] that [main] hands over, into exactly
    these words, escapes resolved, stored from [words[0]] on; what follows
    a [#] that opens a word is not looked at, and of more than
    [MAX_WORDS] words the first [MAX_WORDS] are kept and the rest dropped
    without notice. *)
Theorem wordsplit_words (lead : string) (ws : list (list item * string)) (tail : string) :
  all_space lead = true -> well_spaced ws tail = true -> comment_or_end tail = true ->
  wordsplit (lead ++ line_text ws tail) no_words
  = Ok (Nat.min (length ws) MAX_WORDS, words_holding (take MAX_WORDS (decoded ws))).
Proof.
  intros Hlead Hws Ht.
  rewrite (wordsplit_store lead ws tail no_words Hlead Hws Ht).
  f_equal. f_equal.
  apply (store_words_holding [] (take MAX_WORDS (decoded ws))).
  rewrite length_take. cbn [length Nat.add]. lia.
Qed.

Lemma wordsplit_words_witness :
  wordsplit "  ls -l my\ file  # list it
" no_words
  = Ok (3%nat, words_holding ["ls"; "-l"; "my file"]).
Proof.
  exact (wordsplit_words "  "
           [([Plain "l"; Plain "s"], " ");
            ([Plain "-"; Plain "l"], " ");
            ([Plain "m"; Plain "y"; Escaped " "; Plain "f"; Plain "i"; Plain "l"; Plain "e"], "  ")]
           ("# list it" ++ nl) eq_refl eq_refl eq_refl).
Defined.

(** ** Expander: references in general position *)

Lemma first_ref_behind_literal (P s : string) :
  strchr P "$" = None -> first_ref (P ++ s) = first_ref s.
Proof.
  intros HP. induction P as [|x t IH]; [rewrite app_empty_l; reflexivity|].
  rewrite app_cons. simpl in HP. cbn [first_ref].
  destruct (x =? "$")%char; [discriminate|]. exact (IH HP).
Qed.

Lemma expands_functional (env : gmap string string) (w r : string) :
  expanded env w = Ok (Some r) -> expands env w r.
Proof.
  intros H. destruct (expands_total env w) as [r' Hr'].
  rewrite (expanded_expands env w r' Hr') in H. inversion H; subst. exact Hr'.
Qed.

Lemma str_take_0 (s : string) : str_take 0 s = "".
Proof. destruct s; reflexivity. Qed.

Lemma expands_special (env : gmap string string) (c : ascii) (rest r : string) :
  is_special c = true -> expands env rest r ->
  expands env (String "$" (String c rest)) (ref_value env c (String "$" (String c rest)) rest ++ r).
Proof.
  intros Hc Hr.
  pose proof (expands_ref env (String "$" (String c rest)) c (String "$" (String c rest)) rest r) as H.
  unfold ptr_diff in H. rewrite Nat.sub_diag, str_take_0, app_empty_l in H.
  apply H; [|exact Hr].
  cbn [first_ref char1 str_drop]. simpl. rewrite Hc. reflexivity.
Qed.

Lemma expands_braced (env : gmap string string) (name rest r : string) :
  strchr name "}" = None -> expands env rest r ->
  expands env ("${" ++ name ++ "}" ++ rest) (default "" (getenv env name) ++ r).
Proof.
  intros Hname Hr.
  pose proof (expands_ref env ("${" ++ name ++ "}" ++ rest) "{"
                ("${" ++ name ++ "}" ++ rest) rest r) as H.
  unfold ptr_diff in H at 1. rewrite Nat.sub_diag, str_take_0, app_empty_l in H.
  replace (ref_value env "{" ("${" ++ name ++ "}" ++ rest) rest)
    with (default "" (getenv env name)) in H.
  - apply H; [|exact Hr].
    rewrite !app_cons, !app_empty_l. cbn [first_ref char1 str_drop]. simpl.
    rewrite strchr_app, Hname. simpl. reflexivity.
  - unfold ref_value, ptr_diff. simpl.
    rewrite !app_empty_l, !app_length_s. cbn [String.length].
    replace (S (S (String.length name + (1 + String.length rest))) - String.length rest - 3)%nat
      with (String.length name) by lia.
    rewrite str_take_app. reflexivity.
Qed.

(** X8: a reference in any position.  Behind a literal prefix without [$]
    each of [$$], [$!], [$?] and [${name}] is replaced by its value and the
    text behind it is expanded on its own: the value is [$], [!] or [?] of
    the environment, the empty text when unset, except [0] for an unset
    [?]; for [${name}] it is the variable between the braces, the name
    running to the first [}].  The inserted value is not scanned again. *)
Theorem expand_reference (env : gmap string string) (P rest r : string) :
  strchr P "$" = None -> expanded env rest = Ok (Some r) ->
  expanded env (P ++ "$$" ++ rest) = Ok (Some (P ++ default "" (getenv env "$") ++ r))
  /\ expanded env (P ++ "$!" ++ rest) = Ok (Some (P ++ default "" (getenv env "!") ++ r))
  /\ expanded env (P ++ "$?" ++ rest) = Ok (Some (P ++ default "0" (getenv env "?") ++ r))
  /\ forall name, strchr name "}" = None ->
       expanded env (P ++ "${" ++ name ++ "}" ++ rest)
       = Ok (Some (P ++ default "" (getenv env name) ++ r)).
Proof.
  intros HP Hrest. apply expands_functional in Hrest.
  repeat split; [| | |intros name Hname];
    apply expanded_expands, expands_behind_literal;
    try (apply first_ref_behind_literal; exact HP).
  - exact (expands_special env "$" rest r eq_refl Hrest).
  - exact (expands_special env "!" rest r eq_refl Hrest).
  - exact (expands_special env "?" rest r eq_refl Hrest).
  - exact (expands_braced env name rest r Hname Hrest).
Qed.

Lemma expand_reference_witness :
  expanded demo_env ("--dir=" ++ "${" ++ "HOME" ++ "}" ++ "/bin")
  = Ok (Some ("--dir=" ++ default "" (getenv demo_env "HOME") ++ "/bin")).
Proof.
  exact (proj2 (proj2 (proj2
    (expand_reference demo_env "--dir=" "/bin" "/bin" eq_refl eq_refl))) "HOME" eq_refl).
Defined.


(** X10: [expand] reads nothing of the statics that [param_scan] and
    [build_str] kept from earlier calls, and leaves both at NULL: no call
    sees a trace of the one before. *)
Theorem expand_forgets_statics (env : gmap string string)
    (statics : option string * option string) (w : string) :
  expand env statics w = expand env (None, None) w
  /\ exists r, expand env statics w = Ok (Some r, (None, None)).
Proof.
  destruct (expand_statics env statics w) as [r Hr].
  destruct (expand_statics env (None, None) w) as [r0 Hr0].
  split; [|exists r; exact Hr].
  rewrite Hr, Hr0. repeat f_equal.
  destruct statics as [prev base]. unfold expand in Hr, Hr0.
  rewrite param_scan_first_ref in Hr, Hr0. cbn [res_bind] in Hr, Hr0.
  destruct (first_ref w) as [[c st] e]. cbn [snd] in Hr, Hr0.
  replace (snd (build_str base None None)) with (@None string) in Hr
    by (destruct base; reflexivity).
  cbn [build_str snd] in Hr0. cbn [build_str snd] in Hr.
  rewrite Hr in Hr0. inversion Hr0. reflexivity.
Qed.

(** ** One line through the pipeline *)

Lemma bind_returns {A B} (m : M A) (k : A -> M B) (s s' : shell) (a : A) :
  m s = Returns a s' -> bind m k s = k a s'.
Proof. intros H. unfold bind. rewrite H. reflexivity. Qed.

Lemma set_words_same (s : shell) : set_words (words s) s = s.
Proof. destruct s; reflexivity. Qed.

Lemma words_holding_insert (done rest : list string) (t r : string) :
  (length (done ++ t :: rest) <= MAX_WORDS)%nat ->
  <[length done := Some r]> (words_holding (done ++ t :: rest))
  = words_holding ((done ++ [r]) ++ rest).
Proof.
  intros Hlen. unfold words_holding.
  rewrite !fmap_app, <- !app_assoc. cbn [fmap list_fmap app].
  rewrite insert_app_r_alt by (rewrite length_fmap; lia).
  rewrite length_fmap, Nat.sub_diag. cbn [insert list_insert].
  rewrite !length_app in *. cbn [length] in *.
  replace (length done + 1 + length rest)%nat with (length done + S (length rest))%nat by lia.
  reflexivity.
Qed.

Lemma expand_of_expanded (env : gmap string string) (t r : string) :
  expanded env t = Ok (Some r) -> expand env (None, None) t = Ok (Some r, (None, None)).
Proof.
  intros H. destruct (expand_statics env (None, None) t) as [r' Hr'].
  unfold expanded in H. rewrite Hr' in H. cbn in H. inversion H; subst. exact Hr'.
Qed.

(** The expansion loop over the words of a line. *)
Lemma expand_words_spec (rest : list string) :
  forall (done rs : list string) (fuel : nat) (s : shell),
    (length (done ++ rest) <= MAX_WORDS)%nat ->
    expansions (environ s) rest rs ->
    words s = words_holding (done ++ rest) ->
    (length rest < fuel)%nat ->
    expand_words fuel (Z.of_nat (length done)) (Z.of_nat (length (done ++ rest))) s
    = Returns tt (set_words (words_holding (done ++ rs)) s).
Proof.
  induction rest as [|t rest IH]; intros done rs fuel s Hlen Hexp Hw Hfuel.
  - inversion Hexp; subst. destruct fuel as [|fuel]; [lia|].
    cbn [expand_words]. rewrite app_nil_r, Z.ltb_irrefl.
    rewrite app_nil_r in Hw. rewrite <- Hw, set_words_same. reflexivity.
  - inversion Hexp as [|t0 r0 rest0 rs0 Ht Hrest]; subst.
    destruct fuel as [|fuel]; [simpl in Hfuel; lia|].
    pose proof MAX_WORDS_small as Hsmall.
    assert (Hlt : (length done < length (done ++ t :: rest))%nat)
      by (rewrite length_app; simpl; lia).
    cbn [expand_words].
    replace (Z.of_nat (length done) <? Z.of_nat (length (done ++ t :: rest))) with true
      by (symmetry; apply Z.ltb_lt; lia).
    unfold bind at 1. rewrite Hw.
    rewrite (arr_get_words (done ++ t :: rest) (length done) t Hlen)
      by (rewrite list_lookup_middle; reflexivity).
    cbn [lift]. unfold bind at 1. cbn [str_of lift].
    unfold bind at 1. cbn [gets].
    unfold bind at 1. rewrite (expand_of_expanded _ _ _ Ht). cbn [lift fst].
    unfold bind at 1. rewrite Hw. unfold arr_set.
    rewrite words_holding_length by exact Hlen.
    replace (0 <=? Z.of_nat (length done)) with true by (symmetry; apply Z.leb_le; lia).
    replace (Z.of_nat (length done) <? Z.of_nat MAX_WORDS) with true
      by (symmetry; apply Z.ltb_lt; lia).
    cbn [andb lift]. rewrite Nat2Z.id, (words_holding_insert done rest t r0 Hlen).
    unfold bind at 1. cbn [modify].
    rewrite size_wrap_small by (unfold size_max in *; lia).
    replace (Z.of_nat (length done) + 1) with (Z.of_nat (length (done ++ [r0])))
      by (rewrite length_app; simpl; lia).
    replace (length (done ++ t :: rest)) with (length ((done ++ [r0]) ++ rest))
      by (rewrite !length_app; simpl; lia).
    rewrite (IH (done ++ [r0])%list rs0 fuel).
    + rewrite <- app_assoc. reflexivity.
    + rewrite !length_app in *. simpl in *. lia.
    + exact Hrest.
    + reflexivity.
    + simpl in Hfuel. lia.
Qed.

Lemma expansions_length (env : gmap string string) (ts rs : list string) :
  expansions env ts rs -> length rs = length ts.
Proof. intros H. symmetry. exact (Forall2_length _ _ _ H). Qed.

Lemma decoded_length (ws : list (list item * string)) : length (decoded ws) = length ws.
Proof. unfold decoded. apply length_map. Qed.

(** From the read of a line of words to the call of [execute_cmds]: the
    words are split, expanded and parsed, and the command runs in the
    process these steps leave. *)
Lemma after_sweep_line (argc : Z) (it : iteration) (lead tail : string) (ws : list (list item * string))
    (rs : list string) (words_argv : list (option (option string))) (words_argc bg : Z)
    (s : shell) :
  it_read it = Line (lead ++ line_text ws tail) ->
  all_space lead = true -> well_spaced ws tail = true -> comment_or_end tail = true ->
  ws <> [] -> (length ws <= MAX_WORDS)%nat ->
  words s = no_words ->
  expansions (environ s) (decoded ws) rs ->
  parse_tokens rs = Ok (words_argv, words_argc, bg) ->
  after_sweep argc it 0 s
  = (let! _ := execute_cmds (it_os it) words_argv words_argc in
     let! _ := clear_words (S MAX_WORDS) 0 (Z.of_nat (length ws)) in
     ret At_for) (command_state argc rs bg s).
Proof.
  intros Hread Hlead Hws Htail Hne Hlen Hwords Hexp Hparse.
  unfold after_sweep. rewrite Hread.
  change (negb (0 =? 0)) with false. cbv iota.
  rewrite (bind_returns _ _ s s tt eq_refl).
  rewrite (bind_returns _ _ s (prompted argc s) tt)
    by (unfold prompted; destruct (argc =? 2); reflexivity).
  rewrite (bind_returns ignore_SIGINT _ _ (sigint_ignored (prompted argc s)) tt eq_refl).
  set (s2 := sigint_ignored (prompted argc s)).
  assert (Hw2 : words s2 = no_words)
    by (unfold s2, prompted; destruct (argc =? 2); exact Hwords).
  assert (He2 : environ s2 = environ s)
    by (unfold s2, prompted; destruct (argc =? 2); reflexivity).
  rewrite (bind_returns _ _ s2 s2 no_words) by (unfold gets; rewrite Hw2; reflexivity).
  rewrite (wordsplit_words_holding lead ws tail Hlead Hws Htail Hlen).
  unfold bind at 1. cbn [lift fst snd].
  unfold bind at 1. cbn [modify].
  replace (Z.of_nat (length ws) =? 0) with false
    by (symmetry; apply Z.eqb_neq; destruct ws; [contradiction|simpl; lia]).
  pose proof (expand_words_spec (decoded ws) [] rs (S MAX_WORDS)
                (set_words (words_holding (decoded ws)) s2)) as Hx.
  cbn [app length] in Hx. rewrite decoded_length in Hx.
  rewrite (bind_returns _ _ _ _ tt (Hx Hlen ltac:(rewrite <- He2 in Hexp; exact Hexp)
                                      eq_refl ltac:(lia))).
  unfold bind at 1. cbn [gets].
  assert (Hrs : length rs = length ws)
    by (rewrite (expansions_length _ _ _ Hexp); apply decoded_length).
  unfold parse_tokens in Hparse. rewrite Hrs in Hparse.
  change (words (set_words (words_holding rs) (set_words (words_holding (decoded ws)) s2)))
    with (words_holding rs).
  rewrite Hparse.
  unfold bind at 1. cbn [lift].
  unfold bind at 1. cbn [modify].
  reflexivity.
Qed.

(** ** Job Executor: the child *)

Lemma set_calls_same (s : shell) : set_calls (calls s) s = s.
Proof. destruct s; reflexivity. Qed.

Lemma arr_get_words_end (ts : list string) (i : nat) :
  (length ts <= i)%nat -> (i < MAX_WORDS)%nat ->
  arr_get (words_holding ts) (Z.of_nat i) = Ok None.
Proof.
  intros Hi Hlen. unfold arr_get.
  rewrite words_holding_length by lia.
  replace (0 <=? Z.of_nat i) with true by (symmetry; apply Z.leb_le; lia).
  replace (Z.of_nat i <? Z.of_nat MAX_WORDS) with true by (symmetry; apply Z.ltb_lt; lia).
  cbn [andb]. rewrite Nat2Z.id. unfold words_holding.
  rewrite lookup_app_r by (rewrite length_fmap; exact Hi).
  rewrite lookup_replicate_2 by (rewrite length_fmap; lia).
  reflexivity.
Qed.

Lemma redirect_ok (os : os_answers) (i : Z) (mode : open_mode) (msg f : string) (s : shell) :
  arr_get (words s) (i + 1) = Ok (Some f) ->
  open_ok os f = true -> dup2_ok os = true ->
  redirect os i mode msg s
  = Returns tt (set_calls (calls s ++ [Sys_open f mode;
                                       Sys_dup2 (match mode with O_read => false | _ => true end);
                                       Sys_close]) s).
Proof.
  intros Hget Hopen Hdup. unfold redirect.
  unfold bind at 1. rewrite Hget. cbn [lift].
  unfold bind at 1. unfold sys at 1, modify at 1. rewrite Hopen.
  unfold bind at 1. unfold sys at 1, modify at 1. rewrite Hdup.
  unfold sys, modify.
  cbn [calls set_calls]. rewrite <- !app_assoc. reflexivity.
Qed.

Lemma redirect_mode_plain (t : string) :
  redirect_mode t = None ->
  streq t ">" = false /\ streq t "<" = false /\ streq t ">>" = false.
Proof.
  unfold redirect_mode.
  destruct (streq t ">"); [discriminate|].
  destruct (streq t "<"); [discriminate|].
  destruct (streq t ">>"); [discriminate|]. auto.
Qed.

(** The child's loop over [words] when every redirection succeeds. *)
Lemma redirect_loop_ok (os : os_answers) (rest : list string) :
  forall (done : list string) (fuel : nat) (s : shell),
    (length (done ++ rest) < MAX_WORDS)%nat ->
    words s = words_holding (done ++ rest) ->
    redirects_ok os rest = true ->
    (length rest < fuel)%nat ->
    redirect_loop fuel os (Z.of_nat (length done)) s
    = Returns tt (set_calls (calls s ++ redirections rest) s).
Proof.
  induction rest as [|t rest IH]; intros done fuel s Hlen Hw Hok Hfuel.
  - destruct fuel as [|fuel]; [lia|]. cbn [redirect_loop].
    unfold bind at 1. rewrite Hw, app_nil_r in *.
    rewrite arr_get_words_end by lia. cbn [lift redirections].
    rewrite app_nil_r, set_calls_same. reflexivity.
  - destruct fuel as [|fuel]; [simpl in Hfuel; lia|]. cbn [redirect_loop].
    unfold bind at 1. rewrite Hw.
    rewrite (arr_get_words (done ++ t :: rest) (length done) t)
      by (lia || (rewrite list_lookup_middle; reflexivity)).
    cbn [lift]. cbn [redirects_ok] in Hok. apply andb_prop in Hok as [Hop Hok].
    assert (Hnext : forall s1, words s1 = words s ->
              redirect_loop fuel os (Z.of_nat (length done) + 1) s1
              = Returns tt (set_calls (calls s1 ++ redirections rest) s1)).
    { intros s1 Hs1.
      replace (Z.of_nat (length done) + 1) with (Z.of_nat (length (done ++ [t])))
        by (rewrite length_app; simpl; lia).
      apply IH.
      - rewrite <- app_assoc. exact Hlen.
      - rewrite Hs1, Hw, <- app_assoc. reflexivity.
      - exact Hok.
      - simpl in Hfuel. lia. }
    cbn [redirections].
    destruct (redirect_mode t) as [mode|] eqn:Hmode.
    + destruct rest as [|f rest']; [discriminate Hop|].
      apply andb_prop in Hop as [Hopen Hdup].
      assert (Hget : arr_get (words s) (Z.of_nat (length done) + 1) = Ok (Some f)).
      { rewrite Hw.
        replace (Z.of_nat (length done) + 1) with (Z.of_nat (S (length done))) by lia.
        apply arr_get_words; [lia|].
        replace (S (length done)) with (length (done ++ [t])) by (rewrite length_app; simpl; lia).
        replace (done ++ t :: f :: rest')%list with ((done ++ [t]) ++ f :: rest')%list
          by (rewrite <- app_assoc; reflexivity).
        apply list_lookup_middle. reflexivity. }
      assert (Hred : (if streq t ">" then redirect os (Z.of_nat (length done)) O_trunc
                                            "open file for redirection output"
                      else if streq t "<" then redirect os (Z.of_nat (length done)) O_read
                                            "open file for redirection input"
                      else if streq t ">>" then redirect os (Z.of_nat (length done)) O_append
                                            "open file for redirection output append"
                      else ret tt) s
                     = Returns tt (set_calls (calls s ++ [Sys_open f mode;
                                     Sys_dup2 (match mode with O_read => false | _ => true end);
                                     Sys_close]) s)).
      { unfold redirect_mode in Hmode.
        destruct (streq t ">"); [inversion Hmode; subst; apply redirect_ok; assumption|].
        destruct (streq t "<"); [inversion Hmode; subst; apply redirect_ok; assumption|].
        destruct (streq t ">>"); [inversion Hmode; subst; apply redirect_ok; assumption|].
        discriminate Hmode. }
      rewrite (bind_returns _ _ _ _ _ Hred).
      rewrite Hnext by reflexivity.
      cbn [calls set_calls]. rewrite <- app_assoc. reflexivity.
    + destruct (redirect_mode_plain t Hmode) as (-> & -> & ->).
      rewrite (bind_returns _ _ s s tt eq_refl).
      rewrite Hnext by reflexivity. reflexivity.
Qed.

Lemma bind_execs {A B} (m : M A) (k : A -> M B) (s s' : shell) (x : exec_request) :
  m s = Execs x s' -> bind m k s = Execs x s'.
Proof. intros H. unfold bind. rewrite H. reflexivity. Qed.

Lemma arg_at_first (a0 : string) (args : list string) (k : nat) (s : shell) :
  arg_at (argv_layout (a0 :: args) k) 0 s = Returns (Some a0) s.
Proof. reflexivity. Qed.

Lemma final_args_parse (rs : list string) (a0 : string) (args : list string) :
  (length rs <= MAX_WORDS)%nat ->
  final_args (strip_redirects rs) = a0 :: args ->
  parse_tokens rs
  = Ok (argv_layout (a0 :: args) (length rs - length (a0 :: args)),
        Z.of_nat (length (a0 :: args)),
        if marked_background (strip_redirects rs) then 1 else 0).
Proof.
  intros Hlen Hargs. rewrite parse_tokens_spec by exact Hlen.
  destruct (strip_redirects rs) as [|x l] eqn:E; [discriminate Hargs|].
  cbv zeta. rewrite Hargs. reflexivity.
Qed.

(** The child on the words of a line whose redirections all succeed. *)
Lemma child_branch_execs (os : os_answers) (rs : list string) (a0 : string)
    (args : list string) (k : nat) (s : shell) :
  (length rs < MAX_WORDS)%nat -> words s = words_holding rs ->
  redirects_ok os rs = true -> exec_ok os = true ->
  child_branch os (argv_layout (a0 :: args) k) s
  = Execs (exec_of a0 (argv_layout (a0 :: args) k))
      (set_calls (calls s ++ redirections rs)
         (set_disp_tstp (SIGTSTP_default s) (set_disp_int (SIGINT_default s) s))).
Proof.
  intros Hlen Hw Hok Hexec. unfold child_branch.
  unfold bind at 1. cbn [gets].
  unfold bind at 1. cbn [sys_sigaction].
  unfold bind at 1. cbn [gets].
  unfold bind at 1. cbn [sys_sigaction].
  match goal with
  | |- bind _ _ ?s1 = _ =>
      rewrite (bind_returns _ _ s1 _ tt
                 (redirect_loop_ok os rs [] (S (S MAX_WORDS)) s1 Hlen Hw Hok ltac:(lia)))
  end.
  rewrite (bind_returns _ _ _ _ _ (arg_at_first a0 args k _)).
  unfold bind at 1. cbn [lift str_of].
  rewrite Hexec. unfold exec_of.
  destruct (strchr a0 "/"); reflexivity.
Qed.

(** X11: a command line from the read to [exec].  A line of fewer than
    [MAX_WORDS] words, whose expansions leave a command that is not [cd]
    and whose first word is not [exit], is split, expanded and parsed;
    in the forked child the dispositions of SIGINT and SIGTSTP saved by
    the setup are put back, every redirection operator among the words
    opens the word behind it and is put on stdin or stdout, in order from
    the left, and the command is executed with the parsed argument
    vector, through the search path exactly when its name has no slash.
    The environment is the one the line was read in. *)
Theorem line_reaches_exec (argc : Z) (it : iteration) (lead tail : string)
    (ws : list (list item * string)) (rs : list string) (a0 : string) (args : list string)
    (s : shell) :
  it_read it = Line (lead ++ line_text ws tail) ->
  all_space lead = true -> well_spaced ws tail = true -> comment_or_end tail = true ->
  (length ws < MAX_WORDS)%nat ->
  words s = no_words ->
  expansions (environ s) (decoded ws) rs ->
  final_args (strip_redirects rs) = a0 :: args ->
  streq a0 "cd" = false -> streq (default "" (head rs)) "exit" = false ->
  fork_ret (it_os it) = 0 -> redirects_ok (it_os it) rs = true -> exec_ok (it_os it) = true ->
  after_sweep argc it 0 s
  = Execs (exec_of a0 (argv_layout (a0 :: args) (length rs - length (a0 :: args))))
      (child_at_exec rs
         (command_state argc rs (if marked_background (strip_redirects rs) then 1 else 0) s)).
Proof.
  intros Hread Hlead Hws Htail Hlen Hwords Hexp Hargs Hcd Hexit Hfork Hok Hexec.
  assert (Hrs : length rs = length ws)
    by (rewrite (expansions_length _ _ _ Hexp); apply decoded_length).
  assert (Hne : ws <> []).
  { intros ->. destruct rs; [discriminate Hargs|discriminate Hrs]. }
  rewrite (after_sweep_line argc it lead tail ws rs _ _ _ s Hread Hlead Hws Htail Hne
             ltac:(lia) Hwords Hexp (final_args_parse rs a0 args ltac:(lia) Hargs)).
  set (bg := if marked_background (strip_redirects rs) then 1 else 0).
  set (s0 := command_state argc rs bg s).
  set (k := (length rs - length (a0 :: args))%nat).
  apply bind_execs. unfold execute_cmds.
  rewrite (bind_returns _ _ _ _ _ (arg_at_first a0 args k s0)).
  unfold bind at 1. cbn [lift str_of]. rewrite Hcd.
  destruct rs as [|r0 rs']; [discriminate Hargs|]. change (streq r0 "exit" = false) in Hexit.
  assert (Hw0 : words s0 = words_holding (r0 :: rs')) by reflexivity.
  unfold bind at 1. rewrite Hw0.
  pose proof (arr_get_words (r0 :: rs') 0 r0 ltac:(lia) eq_refl) as Hg.
  change (Z.of_nat 0) with 0 in Hg. rewrite Hg.
  cbn [lift]. unfold bind at 1. cbn [lift str_of]. rewrite Hexit.
  unfold execute_nonbuiltin_cmds. rewrite Hfork.
  unfold bind at 1. unfold sys at 1, modify at 1.
  change (0 =? -1) with false. change (0 =? 0) with true. cbv iota.
  rewrite (child_branch_execs (it_os it) (r0 :: rs') a0 args k
             (set_calls (calls s0 ++ [Sys_fork 0]) s0) ltac:(lia) Hw0 Hok Hexec).
  unfold child_at_exec. cbn [calls set_calls]. rewrite <- app_assoc. reflexivity.
Qed.

Lemma line_reaches_exec_witness :
  after_sweep 2
    {| it_reaped := []; it_read := Line ("  ls  -l ${HOME} >> my\ log &" ++ nl);
       it_os := {| fork_ret := 0; wait_ret := 0; wait_status := None; kill_ret := 0;
                   chdir_ret := fun _ => 0; open_ok := fun _ => true; dup2_ok := true;
                   exec_ok := true |} |}
    0 (fresh_shell demo_env 4242 4242 sigaction_zero sigaction_zero)
  = Execs (exec_of "ls" (argv_layout ["ls"; "-l"; "/home/u"] 3))
      (child_at_exec ["ls"; "-l"; "/home/u"; ">>"; "my log"; "&"]
         (command_state 2 ["ls"; "-l"; "/home/u"; ">>"; "my log"; "&"] 1
            (fresh_shell demo_env 4242 4242 sigaction_zero sigaction_zero))).
Proof.
  refine (line_reaches_exec 2
    {| it_reaped := []; it_read := Line ("  ls  -l ${HOME} >> my\ log &" ++ nl);
       it_os := {| fork_ret := 0; wait_ret := 0; wait_status := None; kill_ret := 0;
                   chdir_ret := fun _ => 0; open_ok := fun _ => true; dup2_ok := true;
                   exec_ok := true |} |} "  " ""
    [([Plain "l"; Plain "s"], "  ");
     ([Plain "-"; Plain "l"], " ");
     ([Plain "$"; Plain "{"; Plain "H"; Plain "O"; Plain "M"; Plain "E"; Plain "}"], " ");
     ([Plain ">"; Plain ">"], " ");
     ([Plain "m"; Plain "y"; Escaped " "; Plain "l"; Plain "o"; Plain "g"], " ");
     ([Plain "&"], nl)]
    ["ls"; "-l"; "/home/u"; ">>"; "my log"; "&"] "ls" ["-l"; "/home/u"]
    (fresh_shell demo_env 4242 4242 sigaction_zero sigaction_zero) eq_refl eq_refl eq_refl eq_refl _ eq_refl _ eq_refl eq_refl eq_refl eq_refl eq_refl eq_refl).
  - unfold MAX_WORDS. simpl. lia.
  - repeat constructor.
Defined.

(** ** Job Executor: redirections that fail *)

Lemma is_redirect_mode (t : string) : is_redirect t = false -> redirect_mode t = None.
Proof.
  unfold is_redirect, redirect_mode.
  destruct (streq t ">"); [discriminate|].
  destruct (streq t "<"); [discriminate|].
  destruct (streq t ">>"); [discriminate|]. reflexivity.
Qed.

(** The loop runs over words that are no operators without doing anything. *)
Lemma redirect_loop_skip (os : os_answers) (pre : list string) :
  forall (done rest : list string) (fuel : nat) (s : shell),
    no_redirects pre = true ->
    (length (done ++ pre ++ rest) <= MAX_WORDS)%nat ->
    words s = words_holding (done ++ pre ++ rest) ->
    redirect_loop (length pre + fuel) os (Z.of_nat (length done)) s
    = redirect_loop fuel os (Z.of_nat (length (done ++ pre))) s.
Proof.
  induction pre as [|t pre IH]; intros done rest fuel s Hpre Hlen Hw.
  - rewrite app_nil_r. reflexivity.
  - cbn [length Nat.add redirect_loop].
    cbn [no_redirects forallb] in Hpre. apply andb_prop in Hpre as [Ht Hpre].
    apply negb_true_iff, is_redirect_mode, redirect_mode_plain in Ht.
    destruct Ht as (H1 & H2 & H3).
    unfold bind at 1. rewrite Hw.
    rewrite (arr_get_words (done ++ (t :: pre) ++ rest) (length done) t Hlen)
      by (cbn [app]; rewrite list_lookup_middle; reflexivity).
    cbn [lift]. rewrite H1, H2, H3. rewrite (bind_returns _ _ s s tt eq_refl).
    replace (Z.of_nat (length done) + 1) with (Z.of_nat (length (done ++ [t])))
      by (rewrite length_app; simpl; lia).
    rewrite (IH (done ++ [t])%list rest fuel s Hpre).
    + rewrite <- app_assoc. reflexivity.
    + rewrite <- app_assoc. exact Hlen.
    + rewrite Hw, <- app_assoc. reflexivity.
Qed.

Lemma redirect_fails (os : os_answers) (i : Z) (mode : open_mode) (rest : list string)
    (cs : list syscall) (msg : string) (s : shell) :
  arr_get (words s) (i + 1) = Ok (head rest) ->
  redirect_failure os mode rest = Some (cs, msg) ->
  redirect os i mode (open_message mode) s
  = Exits 1 (set_diag (diag s ++ [msg]) (set_calls (calls s ++ cs) s)).
Proof.
  intros Hget Hfail. unfold redirect.
  unfold bind at 1. rewrite Hget. cbn [lift].
  destruct rest as [|f rest]; cbn [head redirect_failure] in *.
  - inversion Hfail; subst. rewrite app_nil_r, set_calls_same. reflexivity.
  - unfold bind at 1. unfold sys at 1, modify at 1.
    destruct (open_ok os f).
    + unfold bind at 1. unfold sys at 1, modify at 1.
      destruct (dup2_ok os); [discriminate|]. inversion Hfail; subst.
      unfold err1, bind, eprint, modify, exit_. cbn [calls set_calls diag].
      rewrite <- app_assoc. reflexivity.
    + inversion Hfail; subst. reflexivity.
Qed.

(** X12: the first redirection operator of the line, when its
    redirection fails, ends the child with [exit(1)] before any [exec]:
    with no word behind the operator the message speaks of output
    whatever the operator, with a target that cannot be opened the
    message names the operator's direction, and after a failed [dup2]
    the descriptor is left open.  The argument vector is not looked at. *)
Theorem child_redirection_fails (os : os_answers) (pre rest : list string) (op : string)
    (mode : open_mode) (cs : list syscall) (msg : string)
    (words_argv : list (option (option string))) (s : shell) :
  (length (pre ++ op :: rest) < MAX_WORDS)%nat ->
  words s = words_holding (pre ++ op :: rest) ->
  no_redirects pre = true -> redirect_mode op = Some mode ->
  redirect_failure os mode rest = Some (cs, msg) ->
  child_branch os words_argv s
  = Exits 1 (set_diag (diag s ++ [msg])
       (set_calls (calls s ++ cs)
          (set_disp_tstp (SIGTSTP_default s) (set_disp_int (SIGINT_default s) s)))).
Proof.
  intros Hlen Hw Hpre Hop Hfail. unfold child_branch.
  pose proof Hlen as Hlen'. rewrite length_app in Hlen'. cbn [length] in Hlen'.
  unfold bind at 1. cbn [gets].
  unfold bind at 1. cbn [sys_sigaction].
  unfold bind at 1. cbn [gets].
  unfold bind at 1. cbn [sys_sigaction].
  set (s1 := set_disp_tstp _ _).
  assert (Hw1 : words s1 = words_holding ([] ++ pre ++ op :: rest)) by exact Hw.
  unfold bind at 1.
  replace (S (S MAX_WORDS)) with (length pre + (S (S MAX_WORDS) - length pre))%nat
    by lia.
  change 0 with (Z.of_nat (length (@nil string))).
  rewrite (redirect_loop_skip os pre [] (op :: rest) _ s1 Hpre ltac:(cbn [app]; lia) Hw1).
  destruct (S (S MAX_WORDS) - length pre)%nat as [|fuel] eqn:Hfuel;
    [lia|].
  cbn [redirect_loop app] in *. unfold bind at 1. rewrite Hw1.
  rewrite (arr_get_words (pre ++ op :: rest) (length pre) op)
    by (lia || (rewrite list_lookup_middle; reflexivity)).
  cbn [lift].
  assert (Hget : arr_get (words s1) (Z.of_nat (length pre) + 1) = Ok (head rest)).
  { rewrite Hw1.
    replace (Z.of_nat (length pre) + 1) with (Z.of_nat (S (length pre))) by lia.
    destruct rest as [|f rest'].
    - apply arr_get_words_end; [rewrite length_app; simpl; lia|lia].
    - apply arr_get_words; [lia|].
      replace (S (length pre)) with (length (pre ++ [op])) by (rewrite length_app; simpl; lia).
      replace (pre ++ op :: f :: rest')%list with ((pre ++ [op]) ++ f :: rest')%list
        by (rewrite <- app_assoc; reflexivity).
      apply list_lookup_middle. reflexivity. }
  pose proof (redirect_fails os (Z.of_nat (length pre)) mode rest cs msg s1 Hget Hfail) as Hred.
  unfold redirect_mode in Hop.
  unfold bind at 1.
  destruct (streq op ">");
    [inversion Hop; subst mode; cbn [open_message] in Hred; rewrite Hred; reflexivity|].
  destruct (streq op "<");
    [inversion Hop; subst mode; cbn [open_message] in Hred; rewrite Hred; reflexivity|].
  destruct (streq op ">>");
    [inversion Hop; subst mode; cbn [open_message] in Hred; rewrite Hred; reflexivity|].
  discriminate Hop.
Qed.

Lemma child_redirection_fails_witness :
  child_branch no_answers (argv_layout ["sort"] 2)
    (set_words (words_holding ["sort"; "<"]) sample_shell)
  = Exits 1 (set_diag (diag (set_words (words_holding ["sort"; "<"]) sample_shell)
                         ++ ["no file for redirection output"])
       (set_calls (calls (set_words (words_holding ["sort"; "<"]) sample_shell) ++ [])
          (set_disp_tstp (SIGTSTP_default (set_words (words_holding ["sort"; "<"]) sample_shell))
             (set_disp_int (SIGINT_default (set_words (words_holding ["sort"; "<"]) sample_shell))
                (set_words (words_holding ["sort"; "<"]) sample_shell))))).
Proof.
  refine (child_redirection_fails no_answers ["sort"] [] "<" O_read []
            "no file for redirection output" (argv_layout ["sort"] 2)
            (set_words (words_holding ["sort"; "<"]) sample_shell)
            _ eq_refl eq_refl eq_refl eq_refl).
  unfold MAX_WORDS. simpl. lia.
Defined.

(** ** Job Executor: a line that fills [words] *)





(** ** The [words] array between two lines *)

Lemma preserves_weaken {A B C} (f : shell -> B) (g : shell -> C) (m : M A) :
  (forall s s', f s' = f s -> g s' = g s) -> preserves f m -> preserves g m.
Proof.
  intros Hfg Hm s. specialize (Hm s). destruct (m s); try exact I. exact (Hfg _ _ Hm).
Qed.

Lemma bind_returns_inv {A B} (m : M A) (k : A -> M B) (s s' : shell) (b : B) :
  bind m k s = Returns b s' ->
  exists a s1, m s = Returns a s1 /\ k a s1 = Returns b s'.
Proof.
  unfold bind. intros H. destruct (m s) as [a s1| | |]; try discriminate H. eauto.
Qed.

Lemma pres_redirect (os : os_answers) (i : Z) (mode : open_mode) (msg : string) :
  preserves but_diag_calls (redirect os i mode msg).
Proof. unfold redirect, err1, eprint, sys. pres_split. Qed.

Lemma pres_redirect_loop (os : os_answers) (fuel : nat) (i : Z) :
  preserves but_diag_calls (redirect_loop fuel os i).
Proof.
  revert i. induction fuel as [|fuel IH]; intros i; cbn [redirect_loop].
  - apply pres_crash.
  - apply pres_bind; [apply pres_read|]. intros [t|]; [|apply pres_ret].
    apply pres_bind; [|intros ?; apply IH].
    destruct (streq t ">"); [apply pres_redirect|].
    destruct (streq t "<"); [apply pres_redirect|].
    destruct (streq t ">>"); [apply pres_redirect|].
    apply pres_ret.
Qed.

Lemma child_branch_never_returns (os : os_answers) (words_argv : list (option (option string))) :
  never_returns (child_branch os words_argv).
Proof.
  unfold child_branch.
  repeat (apply never_returns_bind; intros ?).
  match goal with |- never_returns (match ?x with _ => _ end) => destruct x end;
    (destruct (exec_ok os); [intros ? ? ?; discriminate|]);
    apply never_returns_bind; intros ? ? ? ?; discriminate.
Qed.

Lemma pres_never_returns {A B} (f : shell -> B) (m : M A) :
  never_returns m -> preserves f m.
Proof.
  intros Hm s. specialize (Hm s). destruct (m s) as [a s'| | |]; try exact I.
  destruct (Hm a s' eq_refl).
Qed.

(** [execute_cmds], when it comes back to the loop, has changed nothing
    but the environment, stderr and the record of system calls. *)
Lemma pres_execute_cmds (os : os_answers) (words_argv : list (option (option string)))
    (words_argc : Z) :
  preserves but_environ_diag_calls (execute_cmds os words_argv words_argc).
Proof.
  unfold execute_cmds. apply pres_bind; [unfold arg_at; apply pres_lift|]. intros p.
  apply pres_bind; [apply pres_lift|]. intros a0.
  destruct (streq a0 "cd").
  - unfold builtin_cd, arg_at, setenv, eprint, sys. pres_split.
  - apply pres_bind; [apply pres_read|]. intros w.
    apply pres_bind; [apply pres_lift|]. intros w0.
    destruct (streq w0 "exit").
    + apply pres_never_returns. intros s a s' H.
      exact (builtin_exit_never_returns words_argv words_argc s a s' H).
    + unfold execute_nonbuiltin_cmds.
      apply pres_bind; [intros ?; reflexivity|]. intros _.
      destruct (fork_ret os =? -1).
      * unfold arg_at. pres_split.
      * destruct (fork_ret os =? 0).
        -- apply pres_never_returns, child_branch_never_returns.
        -- unfold parent_branch, setenv, eprint, sys. pres_split.
Qed.

(** A write to a cell in front of [n] leaves the cells from [n] on. *)
Lemma pres_write {A} (n : nat) (i : Z) (x : option string) (k : M A) :
  i < Z.of_nat n -> preserves (tail_view n) k ->
  preserves (tail_view n)
    (let! ws := (fun s => lift (arr_set (words s) i x) s) in
     let! _ := modify (set_words ws) in k).
Proof.
  intros Hi Hk s. unfold bind at 1. unfold arr_set.
  destruct (0 <=? i) eqn:H0; [|exact I].
  destruct (i <? Z.of_nat (length (words s))) eqn:H1; [|exact I].
  cbn [andb lift]. unfold bind at 1. cbn [modify].
  specialize (Hk (set_words (<[Z.to_nat i := x]> (words s)) s)).
  destruct (k _) as [a s'| | |]; try exact I.
  rewrite Hk. unfold tail_view. cbn [words set_words].
  apply Z.leb_le in H0.
  rewrite length_insert, drop_insert_lt by lia. reflexivity.
Qed.

Lemma pres_expand_words (fuel : nat) (i nwords : Z) :
  preserves (tail_view (Z.to_nat nwords)) (expand_words fuel i nwords).
Proof.
  revert i. induction fuel as [|fuel IH]; intros i; cbn [expand_words].
  - apply pres_crash.
  - destruct (i <? nwords) eqn:Hi; [|apply pres_ret].
    apply Z.ltb_lt in Hi.
    apply pres_bind; [apply pres_read|]. intros w.
    apply pres_bind; [apply pres_lift|]. intros word.
    apply pres_bind; [apply pres_gets|]. intros env.
    apply pres_bind; [apply pres_lift|]. intros r.
    apply pres_write; [lia|apply IH].
Qed.

(** The clean-up loop sets the cells from [i] up to [nwords] to NULL and
    touches nothing else. *)
Lemma clear_words_spec (k : nat) :
  forall (i fuel : nat) (s : shell),
    (i + k <= length (words s))%nat -> (i + k <= MAX_WORDS)%nat -> (k < fuel)%nat ->
    exists ws,
      clear_words fuel (Z.of_nat i) (Z.of_nat (i + k)) s = Returns tt (set_words ws s)
      /\ length ws = length (words s)
      /\ (forall j, (i <= j < i + k)%nat -> ws !! j = Some None)
      /\ (forall j, (j < i \/ i + k <= j)%nat -> ws !! j = words s !! j).
Proof.
  induction k as [|k IH]; intros i fuel s Hlen Hmax Hfuel;
    (destruct fuel as [|fuel]; [lia|]); cbn [clear_words].
  - rewrite Nat.add_0_r, Z.ltb_irrefl. exists (words s).
    rewrite set_words_same. repeat split; auto. intros; lia.
  - pose proof MAX_WORDS_small as Hsmall.
    replace (Z.of_nat i <? Z.of_nat (i + S k)) with true by (symmetry; apply Z.ltb_lt; lia).
    unfold bind at 1. unfold arr_set.
    replace (0 <=? Z.of_nat i) with true by (symmetry; apply Z.leb_le; lia).
    replace (Z.of_nat i <? Z.of_nat (length (words s))) with true
      by (symmetry; apply Z.ltb_lt; lia).
    cbn [andb lift]. unfold bind at 1. cbn [modify]. rewrite Nat2Z.id.
    rewrite size_wrap_small by (unfold size_max in *; lia).
    replace (Z.of_nat i + 1) with (Z.of_nat (S i)) by lia.
    replace (i + S k)%nat with (S i + k)%nat by lia.
    destruct (IH (S i) fuel (set_words (<[i := None]> (words s)) s)) as (ws & E & Hl & Hin & Hout).
    + cbn [words set_words]. rewrite length_insert. lia.
    + lia.
    + lia.
    + exists ws. cbn [words set_words] in Hl, Hout. rewrite length_insert in Hl.
      split; [exact E|]. split; [exact Hl|]. split.
      * intros j Hj. destruct (Nat.eq_dec j i) as [->|Hne].
        -- rewrite Hout by lia. apply list_lookup_insert_eq. lia.
        -- apply Hin. lia.
      * intros j Hj. rewrite Hout by lia. apply list_lookup_insert_ne. lia.
Qed.

Lemma wordsplit_fresh (line : string) (n : nat) (arr : list (option string)) :
  wordsplit line no_words = Ok (n, arr) ->
  (n <= MAX_WORDS)%nat /\ length arr = MAX_WORDS /\ drop n arr = drop n no_words.
Proof.
  intros E. unfold wordsplit in E.
  destruct (skip_space (line_fuel line) (At line)) as [c|] eqn:Es; [|discriminate].
  cbn [res_bind] in E.
  apply wordsplit_loop_cells in E;
    [|exact (skip_space_stops _ _ _ Es)|lia|apply length_replicate].
  destruct E as (Hn & Hl & _ & Hsame).
  split; [lia|]. split; [exact Hl|].
  apply list_eq. intros j. rewrite !lookup_drop. apply Hsame. lia.
Qed.

Lemma all_null (ws : list (option string)) (n : nat) :
  length ws = MAX_WORDS -> (n <= MAX_WORDS)%nat ->
  (forall j, (j < n)%nat -> ws !! j = Some None) ->
  drop n ws = drop n no_words ->
  ws = no_words.
Proof.
  intros Hlen Hn Hin Hout. apply list_eq. intros j.
  destruct (Nat.lt_ge_cases j n) as [Hj|Hj].
  - rewrite (Hin j Hj). symmetry. apply lookup_replicate_2. lia.
  - replace j with (n + (j - n))%nat by lia. rewrite <- !lookup_drop, Hout. reflexivity.
Qed.

Lemma pres_prompt_words (argc : Z) :
  preserves words (if argc =? 2 then ret tt else print_prompt).
Proof. destruct (argc =? 2); [apply pres_ret|]. unfold print_prompt, eprint. pres_split. Qed.

(** A line's way through the pipeline ends, when it ends in the loop,
    with every cell of [words] at NULL again. *)
Lemma after_sweep_words (argc : Z) (it : iteration) (b : Z) (s s' : shell) (e : entry) :
  words s = no_words ->
  after_sweep argc it b s = Returns e s' -> words s' = no_words.
Proof.
  intros Hw E. unfold after_sweep in E.
  apply bind_returns_inv in E as (? & s1 & E1 & E).
  assert (Hw1 : words s1 = no_words).
  { rewrite <- Hw. revert E1. apply pres_returns.
    destruct (negb (b =? 0)); [unfold err1, eprint; pres_split|apply pres_ret]. }
  apply bind_returns_inv in E as (? & s2 & E2 & E).
  assert (Hw2 : words s2 = no_words).
  { rewrite <- Hw1. exact (pres_returns words _ _ _ _ (pres_prompt_words argc) E2). }
  destruct (it_read it) as [line| | |]; try discriminate E.
  - apply bind_returns_inv in E as (? & s3 & E3 & E).
    assert (Hw3 : words s3 = no_words) by (inversion E3; subst; exact Hw2).
    apply bind_returns_inv in E as (ws & s4 & E4 & E).
    inversion E4; subst ws s4. clear E4.
    apply bind_returns_inv in E as ([n arr] & s4 & E4 & E).
    rewrite Hw3 in E4. unfold lift in E4.
    destruct (wordsplit line no_words) as [r|] eqn:Esplit; [|discriminate E4].
    inversion E4; subst r s4. clear E4.
    destruct (wordsplit_fresh line n arr Esplit) as (Hn & Hlen & Htail).
    apply bind_returns_inv in E as (? & s4 & E4 & E).
    inversion E4; subst s4. clear E4. cbn [fst snd] in E.
    set (s4 := set_words arr s3) in *.
    destruct (Z.of_nat n =? 0) eqn:Hz.
    + inversion E; subst. cbn [words set_words].
      apply Z.eqb_eq in Hz. assert (n = 0%nat) as -> by lia.
      rewrite !drop_0 in Htail. exact Htail.
    + apply bind_returns_inv in E as (? & s5 & E5 & E).
      pose proof (pres_returns _ _ _ _ _ (pres_expand_words _ _ _) E5) as H5.
      rewrite Nat2Z.id in H5.
      apply bind_returns_inv in E as (ws & s6 & E6 & E).
      inversion E6; subst ws s6. clear E6.
      apply bind_returns_inv in E as ([[words_argv words_argc] bg] & s6 & E6 & E).
      unfold lift in E6. destruct (parse_command _ _ _); [|discriminate E6].
      inversion E6; subst s6. clear E6.
      apply bind_returns_inv in E as (? & s6 & E6 & E).
      inversion E6; subst s6. clear E6.
      apply bind_returns_inv in E as (? & s7 & E7 & E).
      pose proof (pres_returns _ _ _ _ _
                    (preserves_weaken but_environ_diag_calls words _
                       ltac:(intros ? ? H; inversion H; reflexivity)
                       (pres_execute_cmds _ _ _)) E7) as H7.
      cbn [words set_bg_flag] in H7.
      apply bind_returns_inv in E as (? & s8 & E8 & E).
      inversion E; subst s8. clear E.
      unfold tail_view in H5. cbn [words set_words] in H5. inversion H5 as [[Hl5 Ht5]].
      destruct (clear_words_spec n 0 (S MAX_WORDS) s7) as (ws & Ec & Hl & Hin & Hout).
      * rewrite H7, Hl5, Hlen. simpl. exact Hn.
      * simpl. exact Hn.
      * lia.
      * change (Z.of_nat 0) with 0 in Ec. change (0 + n)%nat with n in Ec.
        rewrite Ec in E8. inversion E8; subst s'.
        cbn [words set_words]. apply (all_null ws n).
        -- rewrite Hl, H7, Hl5. exact Hlen.
        -- exact Hn.
        -- intros j Hj. apply Hin. lia.
        -- rewrite <- Htail, <- Ht5, <- H7.
           apply list_eq. intros j. rewrite !lookup_drop. apply Hout. lia.
  - inversion E; subst. exact Hw2.
Qed.

Lemma pres_startup_words (argc : Z) (fopen_ok : bool) :
  preserves words (startup argc fopen_ok).
Proof. unfold startup, setenv, err1, eprint. pres_split. Qed.

Lemma pres_before_sweep_words (argc : Z) (fopen_ok : bool) (e : entry) :
  preserves words (before_sweep argc fopen_ok e).
Proof.
  unfold before_sweep.
  apply pres_bind.
  - destruct e; [apply pres_startup_words|apply pres_ret..].
  - intros _. destruct e; [|
      |apply pres_ret]; unfold SIGTSTP_setup, SIGINT_setup; pres_split.
Qed.

(** X14: [words] is empty between two lines.  A pass through the loop
    that starts with every cell of [words] at NULL and comes back to the
    loop, from whichever of its three entry points and for whatever line,
    answers of the system and children reaped, leaves every cell of
    [words] at NULL: the tokenizer always fills from cell 0 of an empty
    array, and the stale words of one line are never seen by the next. *)
Theorem pass_leaves_words_empty (argc : Z) (fopen_ok : bool) (e e' : entry) (it : iteration)
    (s s' : shell) :
  words s = no_words ->
  pass bg_handler argc fopen_ok e it s = Returns e' s' ->
  words s' = no_words.
Proof.
  intros Hw E. unfold pass in E.
  apply bind_returns_inv in E as (? & s1 & E1 & E).
  apply bind_returns_inv in E as (b & s2 & E2 & E).
  apply (after_sweep_words argc it b s2 s' e'); [|exact E].
  rewrite <- Hw.
  rewrite <- (pres_returns words _ _ _ _ (pres_before_sweep_words argc fopen_ok e) E1).
  exact (pres_returns words _ _ _ _
           (preserves_weaken but_diag_calls words _
              ltac:(intros ? ? H; inversion H; reflexivity) (pres_bg_handler _)) E2).
Qed.

Lemma pass_leaves_words_empty_witness :
  exists e' s',
    pass bg_handler 1 true At_smallsh
      (reads ("cd /nowhere # and stay" ++ nl)
         {| fork_ret := -1; wait_ret := -1; wait_status := None; kill_ret := -1;
            chdir_ret := fun _ => -1; open_ok := fun _ => false; dup2_ok := false;
            exec_ok := false |})
      sample_shell = Returns e' s'
    /\ words s' = no_words.
Proof.
  eexists _, _. split; [vm_compute; reflexivity|].
  refine (pass_leaves_words_empty 1 true At_smallsh At_for
            (reads ("cd /nowhere # and stay" ++ nl)
               {| fork_ret := -1; wait_ret := -1; wait_status := None; kill_ret := -1;
                  chdir_ret := fun _ => -1; open_ok := fun _ => false; dup2_ok := false;
                  exec_ok := false |})
            sample_shell _ eq_refl _).
  vm_compute. reflexivity.
Defined.

(** ** Signal dispositions of the children *)

Lemma frames_bind {A B C} (f : shell -> C) (Q : shell -> shell -> Prop)
    (m : M A) (k : A -> M B) :
  (forall s s1 s', f s1 = f s -> Q s1 s' -> Q s s') ->
  frames f Q m -> (forall a, frames f Q (k a)) -> frames f Q (bind m k).
Proof.
  intros HQ Hm Hk s. unfold bind. specialize (Hm s).
  destruct (m s) as [a s1| | |]; try exact I; [|exact Hm].
  specialize (Hk a s1). destruct (k a s1); try exact I.
  - congruence.
  - exact (HQ _ _ _ Hm Hk).
Qed.

Lemma frames_ret {A B} (f : shell -> B) Q (a : A) : frames f Q (ret a).
Proof. intros s. reflexivity. Qed.

Lemma frames_gets {A B} (f : shell -> B) Q (g : shell -> A) : frames f Q (gets g).
Proof. intros s. reflexivity. Qed.

Lemma frames_exit {A B} (f : shell -> B) Q (st : Z) : frames f Q (@exit_ A st).
Proof. intros s. exact I. Qed.

Lemma frames_lift {A B} (f : shell -> B) Q (r : res A) : frames f Q (lift r).
Proof. intros s. unfold lift. destruct r; reflexivity. Qed.

Lemma frames_read {A B} (f : shell -> B) Q (g : shell -> res A) :
  frames f Q (fun s => lift (g s) s).
Proof. intros s. unfold lift. destruct (g s); reflexivity. Qed.

Lemma frames_crash {A B} (f : shell -> B) Q (x : fault) : frames f Q (fun _ => @Crashes A x).
Proof. intros s. exact I. Qed.

Lemma frames_modify {B} (f : shell -> B) Q (g : shell -> shell) :
  (forall s, f (g s) = f s) -> frames f Q (modify g).
Proof. intros H s. apply H. Qed.

(** Splits a computation along its binds and conditionals; the leaves
    are primitives that neither call [exec] nor touch the view. *)
Ltac frames_split HQ :=
  repeat first
    [ apply frames_ret | apply frames_gets | apply frames_exit | apply frames_lift
    | apply frames_read | apply frames_crash
    | assumption
    | apply frames_modify; intros ?; reflexivity
    | apply (frames_bind _ _ _ _ HQ); [|intros ?]
    | match goal with
      | |- frames _ _ (if ?b then _ else _) => destruct b
      | |- frames _ _ (match ?x with _ => _ end) => destruct x
      end ].

Lemma runs_with_saved_compat (s s1 s' : shell) :
  saved_defaults s1 = saved_defaults s -> runs_with_saved s1 s' -> runs_with_saved s s'.
Proof. unfold saved_defaults, runs_with_saved. intros H [H1 H2]. inversion H. split; congruence. Qed.

Lemma runs_with_current_compat (s s1 s' : shell) :
  dispositions s1 = dispositions s -> runs_with_current s1 s' -> runs_with_current s s'.
Proof. unfold dispositions, runs_with_current. intros H [H1 H2]. inversion H. split; congruence. Qed.

Lemma frames_redirect_loop (os : os_answers) (fuel : nat) (i : Z) :
  frames dispositions runs_with_current (redirect_loop fuel os i).
Proof.
  revert i. induction fuel as [|fuel IH]; intros i; cbn [redirect_loop].
  - apply frames_crash.
  - unfold redirect, err1, eprint, sys. frames_split runs_with_current_compat.
    all: apply IH.
Qed.

Lemma frames_weaken {A B C} (f : shell -> B) (g : shell -> C) (Q : shell -> shell -> Prop)
    (m : M A) :
  (forall s s', f s' = f s -> g s' = g s) -> frames f Q m -> frames g Q m.
Proof.
  intros Hfg Hm s. specialize (Hm s). destruct (m s); try exact I; [|exact Hm].
  exact (Hfg _ _ Hm).
Qed.

Lemma runs_with_saved_compat_disp (s s1 s' : shell) :
  dispositions s1 = dispositions s -> runs_with_saved s1 s' -> runs_with_saved s s'.
Proof.
  unfold dispositions, saved_defaults, runs_with_saved. intros H [H1 H2].
  injection H as _ _ H3 H4. split; congruence.
Qed.

(** The child: whatever it does, it calls [exec] with the saved
    dispositions in force. *)
Lemma frames_child_branch (os : os_answers) (words_argv : list (option (option string))) :
  frames dispositions runs_with_saved (child_branch os words_argv).
Proof.
  intros s. pose proof (child_branch_never_returns os words_argv s) as Hnever.
  unfold child_branch in *.
  unfold bind at 1. cbn [gets].
  unfold bind at 1. cbn [sys_sigaction].
  unfold bind at 1. cbn [gets].
  unfold bind at 1. cbn [sys_sigaction].
  unfold bind at 1 in Hnever. cbn [gets] in Hnever.
  unfold bind at 1 in Hnever. cbn [sys_sigaction] in Hnever.
  unfold bind at 1 in Hnever. cbn [gets] in Hnever.
  unfold bind at 1 in Hnever. cbn [sys_sigaction] in Hnever.
  match goal with
  | |- match bind ?m ?k ?s1 with _ => _ end =>
      assert (H : frames dispositions runs_with_current (bind m k));
      [|specialize (H s1); destruct (bind m k s1) as [a s'| |x s'|]; try exact I]
  end.
  - apply (frames_bind _ _ _ _ runs_with_current_compat); [apply frames_redirect_loop|].
    intros _. unfold arg_at, eprint.
    apply (frames_bind _ _ _ _ runs_with_current_compat); [apply frames_lift|]. intros p.
    apply (frames_bind _ _ _ _ runs_with_current_compat); [apply frames_lift|]. intros prog.
    destruct (strchr prog "/"); (destruct (exec_ok os);
      [intros ?; split; reflexivity|frames_split runs_with_current_compat]).
  - destruct (Hnever a s' eq_refl).
  - destruct H as [H1 H2]. split; [rewrite H1|rewrite H2]; reflexivity.
Qed.

Lemma frames_execute_cmds (os : os_answers) (words_argv : list (option (option string)))
    (words_argc : Z) :
  frames dispositions runs_with_saved (execute_cmds os words_argv words_argc).
Proof.
  pose proof (frames_child_branch os words_argv) as Hchild.
  unfold execute_cmds, builtin_cd, builtin_exit, execute_nonbuiltin_cmds, parent_branch,
    arg_at, setenv, eprint, sys.
  frames_split runs_with_saved_compat_disp.
Qed.

Lemma frames_expand_words (fuel : nat) (i nwords : Z) :
  frames dispositions runs_with_saved (expand_words fuel i nwords).
Proof.
  revert i. induction fuel as [|fuel IH]; intros i; cbn [expand_words].
  - apply frames_crash.
  - frames_split runs_with_saved_compat_disp.
    all: apply IH.
Qed.

Lemma frames_clear_words (fuel : nat) (i nwords : Z) :
  frames dispositions runs_with_saved (clear_words fuel i nwords).
Proof.
  revert i. induction fuel as [|fuel IH]; intros i; cbn [clear_words].
  - apply frames_crash.
  - frames_split runs_with_saved_compat_disp.
    all: apply IH.
Qed.

Lemma frames_bg_handler (answers : list reaped) :
  frames dispositions runs_with_saved (bg_handler answers).
Proof.
  induction answers as [|r rest IH]; cbn [bg_handler]; unfold report_child, eprint, sys;
    frames_split runs_with_saved_compat_disp.
Qed.

(** The command of a line, from the expansion of its words to the
    clean-up. *)
Lemma frames_command (os : os_answers) (nwords : Z) :
  frames dispositions runs_with_saved
    (let! _ := expand_words (S MAX_WORDS) 0 nwords in
     let! ws := gets words in
     let! p := lift (parse_command ws nwords (fresh_argv nwords)) in
     let '(words_argv, words_argc, bg) := p in
     let! _ := modify (set_bg_flag bg) in
     let! _ := execute_cmds os words_argv words_argc in
     let! _ := clear_words (S MAX_WORDS) 0 nwords in
     ret At_for).
Proof.
  apply (frames_bind _ _ _ _ runs_with_saved_compat_disp); [apply frames_expand_words|].
  intros _.
  apply (frames_bind _ _ _ _ runs_with_saved_compat_disp); [apply frames_gets|].
  intros ws.
  apply (frames_bind _ _ _ _ runs_with_saved_compat_disp); [apply frames_lift|].
  intros [[words_argv words_argc] bg].
  apply (frames_bind _ _ _ _ runs_with_saved_compat_disp);
    [apply frames_modify; intros ?; reflexivity|].
  intros _.
  apply (frames_bind _ _ _ _ runs_with_saved_compat_disp); [apply frames_execute_cmds|].
  intros _.
  apply (frames_bind _ _ _ _ runs_with_saved_compat_disp); [apply frames_clear_words|].
  intros _. apply frames_ret.
Qed.

Lemma saved_of_dispositions (s s' : shell) :
  dispositions s' = dispositions s -> saved_defaults s' = saved_defaults s.
Proof. unfold dispositions. intros H. congruence. Qed.

(** Behind the sweep: a child is executed with the saved dispositions,
    and the saved dispositions are left alone. *)
Lemma frames_after_sweep (argc : Z) (it : iteration) (b : Z) :
  frames saved_defaults runs_with_saved (after_sweep argc it b).
Proof.
  unfold after_sweep.
  apply (frames_bind _ _ _ _ runs_with_saved_compat).
  { destruct (negb (b =? 0)); [|apply frames_ret].
    unfold err1, eprint. frames_split runs_with_saved_compat. }
  intros _.
  apply (frames_bind _ _ _ _ runs_with_saved_compat).
  { destruct (argc =? 2); [apply frames_ret|].
    unfold print_prompt, eprint. frames_split runs_with_saved_compat. }
  intros _.
  destruct (it_read it) as [line| | |].
  - apply (frames_bind _ _ _ _ runs_with_saved_compat).
    { unfold ignore_SIGINT. frames_split runs_with_saved_compat. }
    intros _.
    apply (frames_bind _ _ _ _ runs_with_saved_compat); [apply frames_gets|]. intros ws.
    apply (frames_bind _ _ _ _ runs_with_saved_compat); [apply frames_lift|]. intros r.
    apply (frames_bind _ _ _ _ runs_with_saved_compat);
      [apply frames_modify; intros ?; reflexivity|].
    intros _.
    destruct (Z.of_nat (fst r) =? 0); [apply frames_ret|].
    exact (frames_weaken _ saved_defaults _ _ saved_of_dispositions
             (frames_command (it_os it) (Z.of_nat (fst r)))).
  - apply frames_exit.
  - apply frames_ret.
  - unfold err1, eprint. frames_split runs_with_saved_compat.
Qed.

Lemma frames_from_sweep (argc : Z) (it : iteration) :
  frames saved_defaults runs_with_saved
    (let! b := bg_handler (it_reaped it) in after_sweep argc it b).
Proof.
  apply (frames_bind _ _ _ _ runs_with_saved_compat).
  - exact (frames_weaken _ saved_defaults _ _ saved_of_dispositions (frames_bg_handler _)).
  - intros b. apply frames_after_sweep.
Qed.

Lemma startup_outcome (argc : Z) (fopen_ok : bool) (s : shell) :
  match startup argc fopen_ok s with
  | Returns _ s0 => disp_int s0 = disp_int s /\ disp_tstp s0 = disp_tstp s
  | Exits st _ => st = 1
  | Execs _ _ => False
  | Crashes _ => False
  end.
Proof.
  cbv beta iota delta [startup bind gets modify ret exit_ setenv err1 eprint].
  destruct (argc =? 2); [destruct fopen_ok|destruct (argc >? 2)];
    cbv beta iota; first [reflexivity | split; reflexivity].
Qed.

Lemma setup_outcome (s : shell) :
  exists s0,
    (let! _ := SIGTSTP_setup in SIGINT_setup) s = Returns tt s0
    /\ saved_defaults s0 = (disp_int s, disp_tstp s)
    /\ disp_tstp s0 = ignored
    /\ disp_int s0 = {| sa_handler := SIGINT_handler; sa_mask_full := true |}.
Proof.
  eexists. split; [reflexivity|]. repeat split.
Qed.

(** In front of the sweep: from the label [prompt] nothing happens; from
    the other two entry points the setup saves the dispositions then in
    force and installs the interpreter's own. *)
Lemma before_sweep_outcome (argc : Z) (fopen_ok : bool) (e : entry) (s : shell) :
  match before_sweep argc fopen_ok e s with
  | Returns _ s0 =>
      match e with
      | At_prompt => s0 = s
      | _ => saved_defaults s0 = (disp_int s, disp_tstp s)
             /\ disp_tstp s0 = ignored
             /\ disp_int s0 = {| sa_handler := SIGINT_handler; sa_mask_full := true |}
      end
  | Exits st _ => st = 1
  | Execs _ _ => False
  | Crashes _ => False
  end.
Proof.
  destruct e; unfold before_sweep.
  - unfold bind at 1. pose proof (startup_outcome argc fopen_ok s) as Hs.
    destruct (startup argc fopen_ok s) as [? s1| | |]; try exact Hs.
    destruct Hs as [Hi Ht].
    destruct (setup_outcome s1) as (s0 & -> & H1 & H2 & H3).
    rewrite <- Hi, <- Ht. auto.
  - unfold bind at 1. cbv beta iota delta [ret].
    destruct (setup_outcome s) as (s0 & -> & H1 & H2 & H3). auto.
  - reflexivity.
Qed.

(** What a pass that comes back to the loop leaves of the dispositions:
    SIGTSTP ignored once the setup has run, SIGINT ignored once a line
    has been read. *)
Lemma after_sweep_returns (argc : Z) (it : iteration) (b : Z) (s s' : shell) (e' : entry) :
  after_sweep argc it b s = Returns e' s' ->
  disp_tstp s' = disp_tstp s
  /\ match e' with
     | At_smallsh => disp_int s' = disp_int s
     | _ => sa_handler (disp_int s') = SIG_IGN
     end.
Proof.
  intros E. unfold after_sweep in E.
  apply bind_returns_inv in E as (? & s1 & E1 & E).
  assert (H1 : dispositions s1 = dispositions s).
  { revert E1. apply pres_returns.
    destruct (negb (b =? 0)); [unfold err1, eprint; pres_split|apply pres_ret]. }
  apply bind_returns_inv in E as (? & s2 & E2 & E).
  assert (H2 : dispositions s2 = dispositions s).
  { rewrite <- H1. revert E2. apply pres_returns.
    destruct (argc =? 2); [apply pres_ret|unfold print_prompt, eprint; pres_split]. }
  unfold dispositions in H2. injection H2 as Hi Ht _.
  destruct (it_read it) as [line| | |]; try discriminate E.
  - apply bind_returns_inv in E as (? & s3 & E3 & E).
    inversion E3; subst s3. clear E3.
    apply bind_returns_inv in E as (ws & s4 & E4 & E).
    inversion E4; subst ws s4. clear E4.
    apply bind_returns_inv in E as (r & s4 & E4 & E).
    unfold lift in E4. destruct (wordsplit _ _); [|discriminate E4].
    inversion E4; subst s4. clear E4.
    apply bind_returns_inv in E as (? & s4 & E4 & E).
    inversion E4; subst s4. clear E4.
    destruct (Z.of_nat (fst r) =? 0).
    + inversion E; subst. cbn. auto.
    + match type of E with
      | _ ?st = _ => pose proof (frames_command (it_os it) (Z.of_nat (fst r)) st) as Hc
      end.
      rewrite E in Hc. unfold dispositions in Hc. injection Hc as Hi' Ht' _.
      cbn in Hi', Ht'. rewrite Hi', Ht'.
      assert (e' = At_for) as ->.
      { apply bind_returns_inv in E as (? & ? & _ & E).
        apply bind_returns_inv in E as (? & ? & _ & E).
        apply bind_returns_inv in E as ([[? ?] ?] & ? & _ & E).
        apply bind_returns_inv in E as (? & ? & _ & E).
        apply bind_returns_inv in E as (? & ? & _ & E).
        apply bind_returns_inv in E as (? & ? & _ & E).
        inversion E. reflexivity. }
      auto.
  - inversion E; subst. auto.
Qed.

(** X15: the dispositions a command is executed with.  When a pass
    through the loop ends in the [exec] of a child, SIGINT and SIGTSTP
    are, in that child, as the last setup saved them: for a pass entered
    at the label [smallsh] or at the head of the loop, which runs the
    setup itself, these are the dispositions that were in force when the
    pass began; for a pass entered at the label [prompt], the ones saved
    before. *)
Theorem child_dispositions (argc : Z) (fopen_ok : bool) (e : entry) (it : iteration)
    (x : exec_request) (s s' : shell) :
  pass bg_handler argc fopen_ok e it s = Execs x s' ->
  match e with
  | At_prompt => runs_with_saved s s'
  | _ => runs_with_current s s'
  end.
Proof.
  intros E. unfold pass, bind at 1 in E.
  pose proof (before_sweep_outcome argc fopen_ok e s) as Hb.
  destruct (before_sweep argc fopen_ok e s) as [? s0| | |]; try discriminate E; try contradiction.
  pose proof (frames_from_sweep argc it s0) as Hf. rewrite E in Hf.
  destruct e.
  - destruct Hb as (Hs & _). unfold saved_defaults in Hs. injection Hs as Hi Ht.
    destruct Hf as [F1 F2]. split; congruence.
  - destruct Hb as (Hs & _). unfold saved_defaults in Hs. injection Hs as Hi Ht.
    destruct Hf as [F1 F2]. split; congruence.
  - subst s0. exact Hf.
Qed.

Lemma child_dispositions_witness :
  exists x s',
    pass bg_handler 1 true At_smallsh (reads ("sleep 5" ++ nl) (answers_for 0 None))
      sample_shell = Execs x s'
    /\ runs_with_current sample_shell s'.
Proof.
  eexists _, _. split; [vm_compute; reflexivity|].
  refine (child_dispositions 1 true At_smallsh
            (reads ("sleep 5" ++ nl) (answers_for 0 None)) _ sample_shell _ _).
  vm_compute. reflexivity.
Defined.

(** X16: every command that follows a command runs with SIGINT and
    SIGTSTP ignored.  After a pass that has run a command and come back
    to the head of the loop, the setup runs again and saves the
    interpreter's own dispositions, both "ignore", in place of the ones it
    was started with; the child of the next pass installs these, whatever
    the two lines and whatever the dispositions at the start. *)
Theorem command_after_command_ignores_signals (argc : Z) (fopen_ok : bool) (e : entry)
    (it1 it2 : iteration) (x : exec_request) (s s1 s2 : shell) :
  (e = At_prompt -> sa_handler (disp_tstp s) = SIG_IGN) ->
  pass bg_handler argc fopen_ok e it1 s = Returns At_for s1 ->
  pass bg_handler argc fopen_ok At_for it2 s1 = Execs x s2 ->
  sa_handler (disp_int s2) = SIG_IGN /\ sa_handler (disp_tstp s2) = SIG_IGN.
Proof.
  intros Hpre E1 E2.
  assert (H1 : sa_handler (disp_int s1) = SIG_IGN /\ sa_handler (disp_tstp s1) = SIG_IGN).
  { unfold pass in E1.
    apply bind_returns_inv in E1 as (? & s0 & E0 & E1).
    apply bind_returns_inv in E1 as (b & s0' & Eb & E1).
    pose proof (before_sweep_outcome argc fopen_ok e s) as Hb. rewrite E0 in Hb.
    pose proof (pres_returns _ _ _ _ _ (pres_bg_handler _) Eb) as Hbg.
    unfold but_diag_calls in Hbg.
    assert (Ht0 : disp_tstp s0' = disp_tstp s0) by (inversion Hbg; reflexivity).
    destruct (after_sweep_returns argc it1 b s0' s1 At_for E1) as [Ht Hi].
    split; [exact Hi|]. rewrite Ht, Ht0.
    destruct e; [destruct Hb as (_ & -> & _); reflexivity
                |destruct Hb as (_ & -> & _); reflexivity
                |subst s0; apply Hpre; reflexivity]. }
  unfold pass, bind at 1 in E2.
  pose proof (before_sweep_outcome argc fopen_ok At_for s1) as Hb.
  destruct (before_sweep argc fopen_ok At_for s1) as [? s0| | |];
    try discriminate E2; try contradiction.
  pose proof (frames_from_sweep argc it2 s0) as Hf. rewrite E2 in Hf.
  destruct Hb as (Hs & _). unfold saved_defaults in Hs. injection Hs as Hi Ht.
  destruct Hf as [F1 F2], H1 as [G1 G2]. split; congruence.
Qed.

Lemma command_after_command_ignores_signals_witness :
  exists s1 x s2,
    pass bg_handler 1 true At_smallsh
      (reads ("true" ++ nl) (answers_for 5000 (Some (W_EXITCODE 0 0)))) sample_shell
    = Returns At_for s1
    /\ pass bg_handler 1 true At_for (reads ("sleep 5" ++ nl) (answers_for 0 None)) s1
       = Execs x s2
    /\ sa_handler (disp_int s2) = SIG_IGN /\ sa_handler (disp_tstp s2) = SIG_IGN.
Proof.
  eexists _, _, _. split; [vm_compute; reflexivity|]. split; [vm_compute; reflexivity|].
  refine (command_after_command_ignores_signals 1 true At_smallsh
            (reads ("true" ++ nl) (answers_for 5000 (Some (W_EXITCODE 0 0))))
            (reads ("sleep 5" ++ nl) (answers_for 0 None)) _ sample_shell _ _ _ _ _).
  - intros H. discriminate H.
  - vm_compute. reflexivity.
  - vm_compute. reflexivity.
Defined.
